(** * Audiobook text pipeline: markdown normalizer and TTS chunker

    Shallow embedding of
      - [scripts/generate_audiobook.py]  ([markdown_to_text]),
      - [src/audiobook.py]               ([chunk_text], [generate_audiobook]),
      - [src/audiobook_generator.py]     ([clean_markdown_for_tts],
                                          [simple_tts_optimize], [chunk_text],
                                          [generate_audio_chunk], [main]),
    together with the Python string and [re] primitives they call. *)

From Stdlib Require Import List NArith ZArith Bool Lia String Ascii.
Import ListNotations.

(** ** Python [str] values

    A Python string is a sequence of Unicode code points; [len] counts
    code points.  A code point is an [N]. *)

Module Py.

Definition char := N.
Bind Scope N_scope with char.
Definition text := list char.

(** An ASCII literal as a [text]. *)
Definition str (s : string) : text :=
  List.map N_of_ascii (list_ascii_of_string s).

Definition len (s : text) : Z := Z.of_nat (List.length s).

Definition NL : char := 10%N.
Definition SP : char := 32%N.

Definition in_range (lo hi c : char) : bool := ((lo <=? c) && (c <=? hi))%N.

(** [str.isspace] on one code point, which is also what [\s] matches in a
    [str] pattern and what [str.strip()] removes: the ASCII table of
    CPython (TAB..CR, FS..US, space) and the Unicode white space
    characters. *)
Definition isspace (c : char) : bool :=
  (in_range 9 13 c || in_range 28 31 c || (c =? 32)
   || (c =? 133) || (c =? 160) || (c =? 5760)
   || in_range 8192 8202 c || (c =? 8232) || (c =? 8233)
   || (c =? 8239) || (c =? 8287) || (c =? 12288))%N.

Fixpoint lstrip (s : text) : text :=
  match s with
  | [] => []
  | c :: s' => if isspace c then lstrip s' else s
  end.

Definition rstrip (s : text) : text := rev (lstrip (rev s)).

(** [s.strip()] *)
Definition strip (s : text) : text := rstrip (lstrip s).

Fixpoint prefixb (p s : text) : bool :=
  match p, s with
  | [], _ => true
  | a :: p', b :: s' => (a =? b)%N && prefixb p' s'
  | _ :: _, [] => false
  end.

Definition cons_head (c : char) (l : list text) : list text :=
  match l with
  | [] => [[c]]
  | p :: ps => (c :: p) :: ps
  end.

(** [s.split(sep)] for a non-empty separator: left to right, without
    overlap.  [skip] counts the characters of a separator found earlier
    that are still to be passed over. *)
Fixpoint split_go (sep s : text) (skip : nat) : list text :=
  match s with
  | [] => [[]]
  | c :: s' =>
      match skip with
      | S k => split_go sep s' k
      | O => if prefixb sep s
             then [] :: split_go sep s' (List.length sep - 1)
             else cons_head c (split_go sep s' 0)
      end
  end.

Definition split (sep s : text) : list text := split_go sep s 0.

(** [sep.join(l)] *)
Fixpoint join (sep : text) (l : list text) : text :=
  match l with
  | [] => []
  | [p] => p
  | p :: ps => p ++ sep ++ join sep ps
  end.

(** [s.replace(old, new)] where [old] is one character, as in every call
    of the sources below. *)
Definition replace1 (old : char) (new s : text) : text :=
  flat_map (fun c => if (c =? old)%N then new else [c]) s.

(** [s.replace(old, new)] for a non-empty [old] of any length: the
    occurrences of [old] from left to right, without overlap.  [skip]
    counts the characters of an occurrence found earlier that are still
    to be passed over. *)
Fixpoint replace_go (old new s : text) (skip : nat) : text :=
  match s with
  | [] => []
  | c :: s' =>
      match skip with
      | S k => replace_go old new s' k
      | O => if prefixb old s
             then new ++ replace_go old new s' (List.length old - 1)
             else c :: replace_go old new s' 0
      end
  end.

Definition replace (old new s : text) : text := replace_go old new s 0.

(** Truth value of a string: [if s:] holds for the non-empty ones. *)
Definition truthy (s : text) : bool :=
  match s with [] => false | _ :: _ => true end.

End Py.

Import Py.

(** ** The [re] module

    A backtracking matcher with the priorities of CPython's engine: the
    first alternative first, a greedy repetition longest first, a lazy one
    shortest first, and a search that takes the leftmost start.  Every
    repetition in the sources is over a one-character class, so [Rep]
    takes a class. *)

Module Re.

Record flags := { MULTILINE : bool; DOTALL : bool }.

Definition no_flags := {| MULTILINE := false; DOTALL := false |}.
Definition multiline := {| MULTILINE := true; DOTALL := false |}.
Definition dotall := {| MULTILINE := false; DOTALL := true |}.

(** One-character classes: [.] (which depends on DOTALL) or a set. *)
Inductive cclass :=
| Dot
| Cls (p : char -> bool).

Definition cc_test (fl : flags) (cc : cclass) (c : char) : bool :=
  match cc with
  | Dot => DOTALL fl || negb (c =? NL)%N
  | Cls p => p c
  end.

Inductive greed := Greedy | Lazy.

Inductive regex :=
| Eps
| One (cc : cclass)
| Seq (r1 r2 : regex)
| Alt (r1 r2 : regex)
| Rep (g : greed) (lo : nat) (hi : option nat) (cc : cclass)
| Group (i : nat) (r : regex)
| Bol                              (* ^ *)
| Eol                              (* $ *)
| WordB (w : char -> bool)         (* \b, for the word class w *)
| Ahead (r : regex)                (* (?=r) *)
| Behind (cc : cclass).            (* (?<=c) with a one-character body *)

(** Position in the subject: the characters before it (nearest first),
    the characters from it on, and the groups captured so far. *)
Record mstate := {
  pre : text;
  rest : text;
  caps : list (nat * text)
}.

Definition start_at (p r : text) : mstate :=
  {| pre := p; rest := r; caps := [] |}.

Definition more_allowed (hi : option nat) : bool :=
  match hi with
  | None => true
  | Some O => false
  | Some (S _) => true
  end.

Section Matcher.

Variable fl : flags.

(** [cc{lo,hi}] followed by the continuation [k]. *)
Fixpoint rep (g : greed) (cc : cclass) (lo : nat) (hi : option nat)
             (p r : text) (k : text -> text -> option mstate)
  : option mstate :=
  let stop := fun _ : unit =>
    match lo with O => k p r | S _ => None end in
  let more := fun _ : unit =>
    match r with
    | c :: r' =>
        if cc_test fl cc c && more_allowed hi
        then rep g cc (Nat.pred lo) (option_map Nat.pred hi) (c :: p) r' k
        else None
    | [] => None
    end in
  match g with
  | Greedy => match more tt with Some x => Some x | None => stop tt end
  | Lazy => match stop tt with Some x => Some x | None => more tt end
  end.

Definition at_bol (st : mstate) : bool :=
  match pre st with
  | [] => true
  | c :: _ => MULTILINE fl && (c =? NL)%N
  end.

Definition at_eol (st : mstate) : bool :=
  match rest st with
  | [] => true
  | c :: r => (c =? NL)%N && (MULTILINE fl || match r with [] => true | _ => false end)
  end.

Definition word_before (w : char -> bool) (st : mstate) : bool :=
  match pre st with [] => false | c :: _ => w c end.

Definition word_after (w : char -> bool) (st : mstate) : bool :=
  match rest st with [] => false | c :: _ => w c end.

(** The text consumed between two positions of one match. *)
Definition consumed (st st' : mstate) : text :=
  rev (firstn (List.length (pre st') - List.length (pre st)) (pre st')).

Fixpoint exec (r : regex) (st : mstate) (k : mstate -> option mstate)
  : option mstate :=
  match r with
  | Eps => k st
  | One cc =>
      match rest st with
      | c :: r' =>
          if cc_test fl cc c
          then k {| pre := c :: pre st; rest := r'; caps := caps st |}
          else None
      | [] => None
      end
  | Seq r1 r2 => exec r1 st (fun st' => exec r2 st' k)
  | Alt r1 r2 =>
      match exec r1 st k with
      | Some x => Some x
      | None => exec r2 st k
      end
  | Rep g lo hi cc =>
      rep g cc lo hi (pre st) (rest st)
          (fun p' r' => k {| pre := p'; rest := r'; caps := caps st |})
  | Group i r' =>
      exec r' st (fun st' =>
        k {| pre := pre st'; rest := rest st';
             caps := (i, consumed st st') :: caps st' |})
  | Bol => if at_bol st then k st else None
  | Eol => if at_eol st then k st else None
  | WordB w =>
      if xorb (word_before w st) (word_after w st) then k st else None
  | Ahead r' =>
      match exec r' st (fun st' => Some st') with
      | Some _ => k st
      | None => None
      end
  | Behind cc =>
      match pre st with
      | c :: _ => if cc_test fl cc c then k st else None
      | [] => None
      end
  end.

(** [pattern.match] at one position. *)
Definition match_at (r : regex) (p s : text) : option mstate :=
  exec r (start_at p s) (fun st => Some st).

(** [pattern.search] from a position on: the leftmost start that matches.
    Returns the position where the match starts and the one where it
    ends. *)
Fixpoint search (r : regex) (p s : text) : option (mstate * mstate) :=
  match match_at r p s with
  | Some st' => Some (start_at p s, st')
  | None =>
      match s with
      | [] => None
      | c :: s' => search r (c :: p) s'
      end
  end.

(** One match of an iteration over the subject: the text skipped since
    the previous match, the matched text and the groups. *)
Record found := {
  skipped : text;
  whole : text;
  groups : list (nat * text)
}.

(** [pattern.finditer]: the successive matches, and the text after the
    last one.  After an empty match the scan moves on by one character,
    which goes to the skipped text of the next match.  The fuel is the
    number of characters left plus one. *)
Fixpoint finditer_go (fuel : nat) (r : regex) (p s : text) (skip : text)
  : list found * text :=
  match fuel with
  | O => ([], rev skip ++ s)
  | S fuel' =>
      match search r p s with
      | None => ([], rev skip ++ s)
      | Some (st0, st1) =>
          let f := {| skipped := rev skip ++ consumed (start_at p s) st0;
                      whole := consumed st0 st1;
                      groups := caps st1 |} in
          match whole f, rest st1 with
          | [], [] => ([f], [])
          | [], c :: s' =>
              let (fs, tl) := finditer_go fuel' r (c :: pre st1) s' [c] in
              (f :: fs, tl)
          | _ :: _, _ =>
              let (fs, tl) := finditer_go fuel' r (pre st1) (rest st1) [] in
              (f :: fs, tl)
          end
      end
  end.

Definition finditer (r : regex) (s : text) : list found * text :=
  finditer_go (S (List.length s)) r [] s [].

(** [re.sub(pattern, repl, s)] with [repl] a function of the match. *)
Definition sub (r : regex) (repl : found -> text) (s : text) : text :=
  let (fs, tl) := finditer r s in
  flat_map (fun f => skipped f ++ repl f) fs ++ tl.

(** [re.split(pattern, s)] for a pattern without groups. *)
Definition split (r : regex) (s : text) : list text :=
  let (fs, tl) := finditer r s in
  List.map skipped fs ++ [tl].

End Matcher.

(** [m.group(i)]: [None] for a group that did not take part. *)
Fixpoint group (i : nat) (cs : list (nat * text)) : option text :=
  match cs with
  | [] => None
  | (j, t) :: cs' => if Nat.eqb i j then Some t else group i cs'
  end.

(** The replacement template [\1]. *)
Definition backref1 (f : found) : text :=
  match group 1 (groups f) with Some t => t | None => [] end.

(** Pattern builders. *)
Definition seq (rs : list regex) : regex := fold_right Seq Eps rs.
Definition chr (c : char) : regex := One (Cls (fun x => (x =? c)%N)).
Definition lit (s : string) : regex := seq (List.map chr (str s)).
Definition only (c : char) : cclass := Cls (fun x => (x =? c)%N).
Definition except (c : char) : cclass := Cls (fun x => negb (x =? c)%N).
Definition oneof (s : string) : cclass :=
  Cls (fun x => existsb (fun c => (x =? c)%N) (str s)).
Definition star (cc : cclass) : regex := Rep Greedy 0 None cc.
Definition plus (cc : cclass) : regex := Rep Greedy 1 None cc.
Definition star_lazy (cc : cclass) : regex := Rep Lazy 0 None cc.
Definition at_least (n : nat) (cc : cclass) : regex := Rep Greedy n None cc.
Definition between (lo hi : nat) (cc : cclass) : regex := Rep Greedy lo (Some hi) cc.

Definition space : cclass := Cls isspace.           (* \s *)

End Re.

Import Re.

(** ** Calls that may raise, over a store

    A Python call returns a value or raises; what it did to the store
    before it raised stays done. *)

Module Eff.

Inductive exn :=
| RuntimeError (msg : string)
| ServiceError (what : string).     (* any other subclass of Exception *)

Inductive outcome (A : Type) :=
| Returned (a : A)
| Raised (e : exn).

Arguments Returned {A} a.
Arguments Raised {A} e.

Section Monad.

Variable St : Type.

Definition M (A : Type) : Type := St -> outcome A * St.

Definition ret {A} (a : A) : M A := fun s => (Returned a, s).

Definition bind {A B} (m : M A) (f : A -> M B) : M B :=
  fun s =>
    match m s with
    | (Returned a, s') => f a s'
    | (Raised e, s') => (Raised e, s')
    end.

Definition raise {A} (e : exn) : M A := fun s => (Raised e, s).

(** [try: body  except Exception as e: handler e] *)
Definition try_except {A} (body : M A) (handler : exn -> M A) : M A :=
  fun s =>
    match body s with
    | (Returned a, s') => (Returned a, s')
    | (Raised e, s') => handler e s'
    end.

Definition get : M St := fun s => (Returned s, s).
Definition modify (f : St -> St) : M unit := fun s => (Returned tt, f s).

End Monad.

Arguments ret {St A} a.
Arguments bind {St A B} m f.
Arguments raise {St A} e.
Arguments try_except {St A} body handler.
Arguments get {St}.
Arguments modify {St} f.

Declare Scope eff_scope.
Delimit Scope eff_scope with eff.
Notation "x <- m ;; k" := (bind m (fun x => k))
  (at level 61, m at next level, right associativity) : eff_scope.
Notation "m ;; k" := (bind m (fun _ => k))
  (at level 61, right associativity) : eff_scope.

End Eff.

Import Eff.

(** ** [src/audiobook.py]: the chunker *)

Module Audiobook.

Definition MAX_CHUNK_LENGTH : Z := 2000.

(** The separator of [text.split] and of the paragraph join: two newlines. *)
Definition para_sep : text := [NL; NL].

(** [(?<=[.!?])\s+] *)
Definition sentence_end : regex := seq [Behind (oneof ".!?"); plus space].

Definition sentences (para : text) : list text :=
  Re.split no_flags sentence_end para.

(** The two variables the loops update. *)
Record acc := { chunks : list text; current_chunk : text }.

Definition flush (a : acc) : list text :=
  if truthy (current_chunk a)
  then chunks a ++ [strip (current_chunk a)]
  else chunks a.

(** Body of [for sentence in sentences]. *)
Definition add_sentence (max_length : Z) (a : acc) (sentence : text) : acc :=
  if (len (current_chunk a) + len sentence + 1 <=? max_length)%Z
  then {| chunks := chunks a;
          current_chunk :=
            if truthy (current_chunk a)
            then current_chunk a ++ [SP] ++ sentence
            else sentence |}
  else {| chunks := flush a; current_chunk := sentence |}.

(** Body of [for para in paragraphs]. *)
Definition add_paragraph (max_length : Z) (a : acc) (para0 : text) : acc :=
  let para := strip para0 in
  if negb (truthy para) then a
  else if (max_length <? len para)%Z
  then fold_left (add_sentence max_length) (sentences para) a
  else if (len (current_chunk a) + len para + 2 <=? max_length)%Z
  then {| chunks := chunks a;
          current_chunk :=
            if truthy (current_chunk a)
            then current_chunk a ++ para_sep ++ para
            else para |}
  else {| chunks := flush a; current_chunk := para |}.

Definition chunk_text (text0 : text) (max_length : Z) : list text :=
  let paragraphs := Py.split para_sep text0 in
  flush (fold_left (add_paragraph max_length) paragraphs
                   {| chunks := []; current_chunk := [] |}).

(** [chunk_text] as a call.  Its body has no [raise] and no test of
    [max_length] other than the two comparisons above, and the string
    operations it uses are total: the call returns. *)
Definition call_chunk_text (text0 : text) (max_length : Z)
  : outcome (list text) :=
  Returned (chunk_text text0 max_length).

(** *** [generate_audiobook] and the calls it makes outside *)

Inductive path :=
| MarkdownPath                 (* FULL_TEXT_DIR / "mcp-crash-course.md" *)
| OutputPath                   (* AUDIO_DIR / "mcp-crash-course.mp3" *)
| TtsTextPath                  (* AUDIO_DIR / "tts-formatted.txt" *)
| TempDir                      (* AUDIO_DIR / "temp" *)
| ChunkFile (i : nat).         (* temp_dir / f"chunk_{i:04d}.wav" *)

Definition url := text.

(** What leaves the process. *)
Inductive event :=
| ReadText (p : path)
| AgentFormat
| WriteText (p : path) (content : text)
| Mkdir (p : path)
| ReplicateRun (i : nat) (prompt : text) (audio_prompt : option text)
| Download (u : url) (p : path)
| Sleep (seconds : nat)
| Export (files : list path) (out : path)
| Unlink (p : path)
| Rmdir (p : path)
| Print (what : string).

(** The collaborators: each answers a call with a value or an exception.
    The calls of the loop are told apart by the index of the chunk.
    [format_for_tts_simple] is the regex pass of the same file, which no
    statement below looks into. *)
Record services := {
  read_text : path -> outcome text;
  format_for_tts : text -> outcome text;
  format_for_tts_simple : text -> text;
  write_text : path -> text -> outcome unit;
  mkdir : path -> outcome unit;
  replicate_run : nat -> text -> option text -> outcome url;
  http_download : nat -> url -> path -> outcome unit;
  pydub_export : list path -> path -> outcome unit;
  unlink : path -> outcome unit;
  rmdir : path -> outcome unit
}.

(** The store: what has been done outside, and the list [audio_files]. *)
Record store := { log : list event; audio_files : list path }.

Definition empty_store : store := {| log := []; audio_files := [] |}.

Definition emit (e : event) : M store unit :=
  modify (fun s => {| log := log s ++ [e]; audio_files := audio_files s |}).

Definition append_audio_file (p : path) : M store unit :=
  modify (fun s => {| log := log s; audio_files := audio_files s ++ [p] |}).

(** An outside call: it is made, then it returns or raises. *)
Definition call {A} (e : event) (answer : outcome A) : M store A :=
  (emit e ;;
   match answer with
   | Returned a => ret a
   | Raised x => raise x
   end)%eff.

Section Run.

Variable env : services.
Variable audio_prompt : option text.

Definition generate_audio_chunk (i : nat) (t : text) : M store url :=
  call (ReplicateRun i t audio_prompt) (replicate_run env i t audio_prompt).

Definition download_audio (i : nat) (u : url) (output_path : path)
  : M store unit :=
  call (Download u output_path) (http_download env i u output_path).

Definition concatenate_audio_files (files : list path) (output_path : path)
  : M store path :=
  (call (Export files output_path) (pydub_export env files output_path) ;;
   ret output_path)%eff.

(** Body of [for i, chunk in enumerate(chunks)], with its [try]. *)
Definition synthesize_chunk (total i : nat) (chunk : text) : M store unit :=
  (emit (Print "Generating audio for chunk") ;;
   try_except
     (audio_url <- generate_audio_chunk i chunk ;;
      let temp_file := ChunkFile i in
      download_audio i audio_url temp_file ;;
      append_audio_file temp_file ;;
      if (Z.of_nat i <? Z.of_nat total - 1)%Z
      then emit (Sleep 1)
      else ret tt)
     (fun e => emit (Print "Error generating chunk")))%eff.

Fixpoint synthesis_loop (total i : nat) (chunks0 : list text) : M store unit :=
  match chunks0 with
  | [] => ret tt
  | chunk :: more =>
      (synthesize_chunk total i chunk ;;
       synthesis_loop total (S i) more)%eff
  end.

Fixpoint unlink_all (files : list path) : M store unit :=
  match files with
  | [] => ret tt
  | f :: fs => (call (Unlink f) (unlink env f) ;; unlink_all fs)%eff
  end.

Definition generate_audiobook (use_agent_formatting : bool) : M store path :=
  (let markdown_path := MarkdownPath in
   let output_path := OutputPath in
   emit (Print "Generating audiobook") ;;
   markdown_content <- call (ReadText markdown_path) (read_text env markdown_path) ;;
   tts_text <- (if use_agent_formatting
                then call AgentFormat (format_for_tts env markdown_content)
                else ret (format_for_tts_simple env markdown_content)) ;;
   call (WriteText TtsTextPath tts_text) (write_text env TtsTextPath tts_text) ;;
   emit (Print "TTS-formatted text saved") ;;
   let chunks0 := chunk_text tts_text MAX_CHUNK_LENGTH in
   emit (Print "Split into chunks") ;;
   modify (fun s => {| log := log s; audio_files := [] |}) ;;
   call (Mkdir TempDir) (mkdir env TempDir) ;;
   synthesis_loop (List.length chunks0) 0 chunks0 ;;
   s <- get ;;
   match audio_files s with
   | [] => raise (RuntimeError "No audio chunks were generated successfully")
   | _ :: _ =>
       emit (Print "Concatenating audio files") ;;
       final_path <- concatenate_audio_files (audio_files s) output_path ;;
       unlink_all (audio_files s) ;;
       call (Rmdir TempDir) (rmdir env TempDir) ;;
       emit (Print "Audiobook saved") ;;
       ret final_path
   end)%eff.

End Run.

End Audiobook.

(** ** [scripts/generate_audiobook.py]: the markdown normalizer *)

Module Normalizer.

Definition ascii_letter (c : char) : bool :=
  in_range 65 90 c || in_range 97 122 c.           (* [a-zA-Z] *)

Definition ascii_digit (c : char) : bool := in_range 48 57 c.

Section Unicode.

(** In a [str] pattern [\w] and [\d] follow the Unicode database outside
    ASCII; that part of the two classes is left open. *)
Variable unicode_word : char -> bool.
Variable unicode_digit : char -> bool.

Definition is_word (c : char) : bool :=            (* \w *)
  if (c <? 128)%N
  then ascii_letter c || ascii_digit c || (c =? 95)%N
  else unicode_word c.

Definition is_digit (c : char) : bool :=           (* \d *)
  if (c <? 128)%N then ascii_digit c else unicode_digit c.

Definition word : cclass := Cls is_word.
Definition digit : cclass := Cls is_digit.
Definition letter : cclass := Cls ascii_letter.
Definition wb : regex := WordB is_word.

Definition remove (_ : found) : text := [].

(** [^---\n.*?\n---\n] *)
Definition re_frontmatter : regex :=
  seq [Bol; lit "---"; chr NL; star_lazy Dot; chr NL; lit "---"; chr NL].

(** [\\newpage], [\\[a-zA-Z]+\{[^}]*\}], [\\[a-zA-Z]+] *)
Definition re_newpage : regex := lit "\newpage".
Definition re_latex_arg : regex :=
  seq [lit "\"; plus letter; lit "{"; star (except 125); lit "}"].
Definition re_latex : regex := seq [lit "\"; plus letter].

(** [!\[.*?\]\(.*?\)] *)
Definition re_image : regex :=
  seq [lit "!["; star_lazy Dot; lit "]("; star_lazy Dot; lit ")"].

(** [\*\*Figure \d+\.\d+:\*\*.*?(?=\n\n|\n#|$)] *)
Definition re_figure : regex :=
  seq [lit "**Figure "; plus digit; lit "."; plus digit; lit ":**";
       star_lazy Dot;
       Ahead (Alt (seq [chr NL; chr NL]) (Alt (seq [chr NL; lit "#"]) Eol))].

(** [\[([^\]]+)\]\([^)]+\)] *)
Definition re_link : regex :=
  seq [lit "["; Group 1 (plus (except 93)); lit "]("; plus (except 41); lit ")"].

(** Three backticks, group 1 = [\w*], a newline, [.*?], three backticks. *)
Definition re_code_block : regex :=
  seq [lit "```"; Group 1 (star word); chr NL; star_lazy Dot; lit "```"].

Definition replace_code_block (m : found) : text :=
  let lang := match group 1 (groups m) with
              | Some ((_ :: _) as g) => g
              | _ => str "code"
              end in
  str "[" ++ lang ++ str " code example omitted for audio]".

(** [`([^`]+)`] *)
Definition re_inline_code : regex :=
  seq [lit "`"; Group 1 (plus (except 96)); lit "`"].

(** [^#\s+(.+)$], [^##\s+(.+)$], [^#{3,6}\s+(.+)$] *)
Definition re_h1 : regex :=
  seq [Bol; lit "#"; plus space; Group 1 (plus Dot); Eol].
Definition re_h2 : regex :=
  seq [Bol; lit "##"; plus space; Group 1 (plus Dot); Eol].
Definition re_h3 : regex :=
  seq [Bol; between 3 6 (only 35); plus space; Group 1 (plus Dot); Eol].

(** [format_h1], [format_h2], [format_subsection]: the same body. *)
Definition format_heading (m : found) : text :=
  let title := strip (backref1 m) in
  [NL; NL] ++ title ++ str "." ++ [NL; NL].

(** [\*\*\*([^*]+)\*\*\*], [\*\*([^*]+)\*\*], [\*([^*]+)\*], [_([^_]+)_] *)
Definition re_bold_italic : regex :=
  seq [lit "***"; Group 1 (plus (except 42)); lit "***"].
Definition re_bold : regex :=
  seq [lit "**"; Group 1 (plus (except 42)); lit "**"].
Definition re_italic : regex :=
  seq [lit "*"; Group 1 (plus (except 42)); lit "*"].
Definition re_underscore : regex :=
  seq [lit "_"; Group 1 (plus (except 95)); lit "_"].

(** [^\s*[-*]\s+], [^\s*\d+\.\s+] *)
Definition re_bullet : regex :=
  seq [Bol; star space; One (oneof "-*"); plus space].
Definition re_numbered : regex :=
  seq [Bol; star space; plus digit; lit "."; plus space].

(** The table, in the order in which the dict literal lists its keys,
    which is the order in which [items()] yields them. *)
Definition abbreviations : list (string * string) :=
  [ ("e.g.", "for example");
    ("i.e.", "that is");
    ("etc.", "and so on");
    ("vs.", "versus");
    ("API", "A P I");
    ("APIs", "A P Is");
    ("JSON", "Jason");
    ("JSON-RPC", "Jason R P C");
    ("STDIO", "standard I O");
    ("stdio", "standard I O");
    ("SSE", "S S E");
    ("HTTP", "H T T P");
    ("HTTPS", "H T T P S");
    ("URL", "U R L");
    ("URLs", "U R Ls");
    ("URI", "U R I");
    ("LLM", "L L M");
    ("LLMs", "L L Ms");
    ("AI", "A I");
    ("IDE", "I D E");
    ("IDEs", "I D Es");
    ("SDK", "S D K");
    ("SDKs", "S D Ks");
    ("CLI", "C L I");
    ("MCP", "M C P");
    ("REST", "rest");
    ("GraphQL", "Graph Q L");
    ("OAuth", "O Auth");
    ("RAG", "rag");
    ("NPM", "N P M");
    ("npm", "N P M");
    ("UUID", "U U I D") ]%string.

(** [rf'\b{re.escape(abbr)}\b']: the key taken literally between two
    word boundaries. *)
Definition re_abbr (abbr : string) : regex := seq [wb; lit abbr; wb].

(** One turn of [for abbr, expansion in abbreviations.items()]. *)
Definition expand_one (t : text) (kv : string * string) : text :=
  Re.sub no_flags (re_abbr (fst kv)) (fun _ => str (snd kv)) t.

Definition expand_abbreviations (t : text) : text :=
  fold_left expand_one abbreviations t.

(** [^---+$], [\n{3,}], [ {2,}] *)
Definition re_rule : regex := seq [Bol; lit "--"; plus (only 45); Eol].
Definition re_newlines : regex := at_least 3 (only NL).
Definition re_spaces : regex := at_least 2 (only SP).

Definition markdown_to_text (markdown_text : text) : text :=
  let t := markdown_text in
  (* Remove YAML frontmatter *)
  let t := Re.sub dotall re_frontmatter remove t in
  (* Remove LaTeX commands *)
  let t := Re.sub no_flags re_newpage remove t in
  let t := Re.sub no_flags re_latex_arg remove t in
  let t := Re.sub no_flags re_latex remove t in
  (* Remove image references *)
  let t := Re.sub no_flags re_image remove t in
  (* Remove figure captions *)
  let t := Re.sub dotall re_figure remove t in
  (* Convert markdown links to just text *)
  let t := Re.sub no_flags re_link backref1 t in
  (* Replace code blocks with spoken description *)
  let t := Re.sub dotall re_code_block replace_code_block t in
  (* Remove inline code but keep text *)
  let t := Re.sub no_flags re_inline_code backref1 t in
  (* Headings *)
  let t := Re.sub multiline re_h1 format_heading t in
  let t := Re.sub multiline re_h2 format_heading t in
  let t := Re.sub multiline re_h3 format_heading t in
  (* Remove bold/italic markers *)
  let t := Re.sub no_flags re_bold_italic backref1 t in
  let t := Re.sub no_flags re_bold backref1 t in
  let t := Re.sub no_flags re_italic backref1 t in
  let t := Re.sub no_flags re_underscore backref1 t in
  (* Convert bullet points *)
  let t := Re.sub multiline re_bullet remove t in
  let t := Re.sub multiline re_numbered remove t in
  (* Expand abbreviations for better pronunciation *)
  let t := expand_abbreviations t in
  (* Handle special characters *)
  let t := replace1 8594 (str " to ") t in
  let t := replace1 8592 (str " from ") t in
  let t := replace1 215 (str " times ") t in
  let t := replace1 38 (str " and ") t in
  let t := replace1 37 (str " percent") t in
  (* Clean up horizontal rules *)
  let t := Re.sub multiline re_rule (fun _ => [NL]) t in
  (* Clean up whitespace *)
  let t := Re.sub no_flags re_newlines (fun _ => [NL; NL]) t in
  let t := Re.sub no_flags re_spaces (fun _ => [SP]) t in
  let t := join [NL] (List.map strip (Py.split [NL] t)) in
  strip t.

End Unicode.

End Normalizer.

Import Audiobook Normalizer.

(** ** Notions used in the statements *)

(** Empty or white space only. *)
Definition blank (s : text) : bool := forallb isspace s.

(** The words of a text: its maximal runs of characters that are not
    white space, in order (what [s.split()] returns).  Two texts with the
    same words differ in white space only. *)
Fixpoint words (s : text) : list text :=
  match s with
  | [] => []
  | c :: s' =>
      if isspace c then words s'
      else match s' with
           | [] => [[c]]
           | d :: _ => if isspace d then [c] :: words s'
                       else cons_head c (words s')
           end
  end.


(** [needle in hay] *)
Fixpoint contains (needle hay : text) : bool :=
  prefixb needle hay ||
  match hay with
  | [] => false
  | _ :: hay' => contains needle hay'
  end.

(** No white space at either end. *)
Definition clean_edges (s : text) : Prop :=
  (forall c, hd_error s = Some c -> isspace c = false) /\
  (forall c, hd_error (rev s) = Some c -> isspace c = false).

(** The chunk is one sentence, longer than the limit, of a paragraph that
    went through the sentence split. *)
Definition oversized_sentence (text0 : text) (max_length : Z) (c : text) : Prop :=
  exists para sentence,
    In para (Py.split para_sep text0) /\
    (max_length < len (strip para))%Z /\
    In sentence (sentences (strip para)) /\
    (max_length < len sentence)%Z /\
    c = strip sentence.

(** The two variables of [chunk_text] after the loop has gone through
    the pieces [ps] of the split. *)
Definition state_after (max_length : Z) (ps : list text) : acc :=
  fold_left (add_paragraph max_length) ps {| chunks := []; current_chunk := [] |}.

(** A chunk whose synthesis and download both return. *)
Definition chunk_ok (env : services) (audio_prompt : option text)
           (i : nat) (chunk : text) : bool :=
  match replicate_run env i chunk audio_prompt with
  | Returned u =>
      match http_download env i u (ChunkFile i) with
      | Returned _ => true
      | Raised _ => false
      end
  | Raised _ => false
  end.

(** The files of the chunks that went through, numbered from [i]. *)
Fixpoint ok_files (env : services) (audio_prompt : option text)
         (i : nat) (l : list text) : list path :=
  match l with
  | [] => []
  | c :: l' =>
      (if chunk_ok env audio_prompt i c then [ChunkFile i] else [])
      ++ ok_files env audio_prompt (S i) l'
  end.

Definition is_export (e : event) : bool :=
  match e with Export _ _ => true | _ => false end.

Section Settled.

Variable unicode_word : char -> bool.
Variable unicode_digit : char -> bool.

Definition no_match (fl : flags) (r : regex) (t : text) : bool :=
  match Re.search fl r [] t with None => true | Some _ => false end.



End Settled.

(** ** Notions used in the proofs *)

(** The loop stands after the chunks [cs] with a buffer that began as
    [c], or has emitted that buffer, grown or not, right after [cs]. *)
Definition carries (cs : list text) (c : text) (a : acc) : Prop :=
  (chunks a = cs /\ exists more, current_chunk a = c ++ more) \/
  (exists more rest, chunks a = cs ++ strip (c ++ more) :: rest).

(** The characters of [[.!?]]. *)
Definition terminator (c : char) : bool := cc_test no_flags (oneof ".!?") c.

(** A piece is acceptable when it is empty or has a character that is
    not white space. *)
Definition solid (s : text) : Prop := s = [] \/ blank s = false.

Section Within.

Variable text0 : text.
Variable max_length : Z.

(** A sentence of a paragraph of [text0] that was longer than the limit. *)
Definition split_sentence (s : text) : Prop :=
  exists para,
    In para (Py.split para_sep text0) /\
    (max_length < len (strip para))%Z /\
    In s (sentences (strip para)).

Definition chunk_within (c : text) : Prop :=
  (len c <= max_length)%Z \/ oversized_sentence text0 max_length c.

Definition current_within (c : text) : Prop :=
  (len c <= max_length)%Z \/ (split_sentence c /\ (max_length < len c)%Z).

Definition within (a : acc) : Prop :=
  Forall chunk_within (chunks a) /\ current_within (current_chunk a).

End Within.

(** The words held by the loop variables, in order. *)
Definition content (a : acc) : list text :=
  List.concat (List.map words (chunks a)) ++ words (current_chunk a).

(** What the loops keep true of the buffer and of the chunks. *)
Definition good_chunk (c : text) : Prop := c <> [] /\ clean_edges c.

Definition sound (a : acc) : Prop :=
  Forall good_chunk (chunks a) /\ solid (current_chunk a).

(** [s'] continues [s]: more was logged, and no export among it. *)
Definition continues (s s' : store) : Prop :=
  exists l, log s' = log s ++ l /\ existsb is_export l = false.

(** A service whose every synthesis call raises. *)
Definition failing_service : services :=
  {| read_text := fun _ => Returned (str "One. Two.");
     format_for_tts := fun t => Returned t;
     format_for_tts_simple := fun t => t;
     write_text := fun _ _ => Returned tt;
     mkdir := fun _ => Returned tt;
     replicate_run := fun _ _ _ => Raised (ServiceError "replicate");
     http_download := fun _ _ _ => Returned tt;
     pydub_export := fun _ _ => Returned tt;
     unlink := fun _ => Returned tt;
     rmdir := fun _ => Returned tt |}.

(** The Unicode part of [\w] and [\d] for texts that are ASCII only,
    where it is never consulted. *)
Definition no_unicode (c : char) : bool := false.


(** ** Notions for the further statements on the chunker *)

(** The paragraphs the loop of [chunk_text] works on: each piece of the
    split stripped, the empty ones passed over. *)
Definition paragraphs_of (text0 : text) : list text :=
  filter truthy (List.map strip (Py.split para_sep text0)).

(** Where one group of paragraphs ends and the next begins, the first
    paragraph of the next did not fit after the group. *)
Fixpoint boundaries_forced (max_length : Z) (groups : list (list text)) : Prop :=
  match groups with
  | [] => True
  | g :: rest0 =>
      match rest0 with
      | (p :: _) :: _ => (max_length < len (join para_sep g) + len p + 2)%Z
      | _ => True
      end /\ boundaries_forced max_length rest0
  end.

(** The group being filled, as a list of groups: none while it is empty. *)
Definition open_group (cur : list text) : list (list text) :=
  match cur with [] => [] | _ :: _ => [cur] end.

(** The loop variables hold a packing of the paragraphs [all] seen so
    far: closed groups in [chunks], the open group in the buffer. *)
Definition packed (max_length : Z) (a : acc) (all : list text) : Prop :=
  exists gs cur,
    chunks a = List.map (join para_sep) gs /\
    current_chunk a = join para_sep cur /\
    Forall (fun g => g <> []) gs /\
    (cur = [] -> gs = []) /\
    List.concat gs ++ cur = all /\
    boundaries_forced max_length (gs ++ open_group cur).

(** The text ends with one of [.!?]. *)
Definition ends_marked (x : text) : Prop :=
  exists t, hd_error (rev x) = Some t /\ terminator t = true.

(** The text does not start with white space. *)
Definition starts_solid (x : text) : Prop :=
  forall c, hd_error x = Some c -> isspace c = false.

(** A piece cut off by the sentence split: not empty, no white space in
    front, a terminator at the end. *)
Definition marked_sentence (x : text) : Prop :=
  x <> [] /\ starts_solid x /\ ends_marked x.

(** What is left after the last cut: a suffix of the subject that is
    empty only when the subject is empty or ends with white space. *)
Definition last_piece (s tl : text) : Prop :=
  starts_solid tl /\
  exists a, s = a ++ tl /\
            (tl = [] -> a = [] \/ exists c, hd_error (rev a) = Some c /\ isspace c = true).

(** ** Notions for the further statements on [generate_audiobook] *)

Definition is_sleep (e : event) : bool :=
  match e with Sleep _ => true | _ => false end.

Definition is_request (e : event) : bool :=
  match e with ReplicateRun _ _ _ => true | _ => false end.

Definition is_download (e : event) : bool :=
  match e with Download _ _ => true | _ => false end.

Definition is_cleanup (e : event) : bool :=
  match e with Unlink _ | Rmdir _ => true | _ => false end.

(** One synthesis request per chunk, numbered from [i]. *)
Fixpoint requests_from (audio_prompt : option text) (i : nat) (l : list text)
  : list event :=
  match l with
  | [] => []
  | c :: l' => ReplicateRun i c audio_prompt :: requests_from audio_prompt (S i) l'
  end.

(** The downloads of the chunks whose synthesis returned a URL. *)
Fixpoint downloads_from (env : services) (audio_prompt : option text)
         (i : nat) (l : list text) : list event :=
  match l with
  | [] => []
  | c :: l' =>
      match replicate_run env i c audio_prompt with
      | Returned u => [Download u (ChunkFile i)]
      | Raised _ => []
      end ++ downloads_from env audio_prompt (S i) l'
  end.

(** What one turn of the loop adds to the log. *)
Definition chunk_events (env : services) (audio_prompt : option text)
           (total i : nat) (chunk : text) : list event :=
  Print "Generating audio for chunk" :: ReplicateRun i chunk audio_prompt ::
  match replicate_run env i chunk audio_prompt with
  | Returned u =>
      Download u (ChunkFile i) ::
      match http_download env i u (ChunkFile i) with
      | Returned _ =>
          if (Z.of_nat i <? Z.of_nat total - 1)%Z then [Sleep 1] else []
      | Raised _ => [Print "Error generating chunk"]
      end
  | Raised _ => [Print "Error generating chunk"]
  end.

Fixpoint loop_events (env : services) (audio_prompt : option text)
         (total i : nat) (l : list text) : list event :=
  match l with
  | [] => []
  | c :: l' => chunk_events env audio_prompt total i c
               ++ loop_events env audio_prompt total (S i) l'
  end.

(** What the run logs before the loop when every step there returns. *)
Definition prelude_events (use_agent : bool) (tts : text) : list event :=
  [Print "Generating audiobook"; ReadText MarkdownPath]
  ++ (if use_agent then [AgentFormat] else [])
  ++ [WriteText TtsTextPath tts; Print "TTS-formatted text saved";
      Print "Split into chunks"; Mkdir TempDir].

(** The steps of [generate_audiobook] before the loop, as one answer:
    the TTS text when reading, formatting, saving the text and making the
    temporary directory all return, else the first exception. *)
Definition prelude (env : services) (use_agent : bool) : outcome text :=
  match read_text env MarkdownPath with
  | Raised e => Raised e
  | Returned markdown_content =>
      match (if use_agent then format_for_tts env markdown_content
             else Returned (format_for_tts_simple env markdown_content)) with
      | Raised e => Raised e
      | Returned tts_text =>
          match write_text env TtsTextPath tts_text with
          | Raised e => Raised e
          | Returned _ =>
              match mkdir env TempDir with
              | Raised e => Raised e
              | Returned _ => Returned tts_text
              end
          end
      end
  end.

(** The store when the loop is over. *)
Definition after_synthesis (env : services) (audio_prompt : option text)
           (use_agent : bool) (tts : text) : store :=
  let chunks0 := chunk_text tts MAX_CHUNK_LENGTH in
  {| log := prelude_events use_agent tts
            ++ loop_events env audio_prompt (List.length chunks0) 0 chunks0;
     audio_files := ok_files env audio_prompt 0 chunks0 |}.

(** The end of [generate_audiobook], from the test of [audio_files] on. *)
Definition finish (env : services) (s : store) : outcome path * store :=
  (match audio_files s with
   | [] => raise (RuntimeError "No audio chunks were generated successfully")
   | _ :: _ =>
       (emit (Print "Concatenating audio files") ;;
        final_path <- concatenate_audio_files env (audio_files s) OutputPath ;;
        unlink_all env (audio_files s) ;;
        call (Rmdir TempDir) (rmdir env TempDir) ;;
        emit (Print "Audiobook saved") ;;
        ret final_path)%eff
   end) s.

(** Collaborators that all answer; the text is one short paragraph. *)
Definition working_service : services :=
  {| read_text := fun _ => Returned (str "One. Two.");
     format_for_tts := fun t => Returned t;
     format_for_tts_simple := fun t => t;
     write_text := fun _ _ => Returned tt;
     mkdir := fun _ => Returned tt;
     replicate_run := fun _ _ _ => Returned (str "https://host/audio.wav");
     http_download := fun _ _ _ => Returned tt;
     pydub_export := fun _ _ => Returned tt;
     unlink := fun _ => Returned tt;
     rmdir := fun _ => Returned tt |}.

(** The same, but the export raises. *)
Definition export_failing_service : services :=
  {| read_text := fun _ => Returned (str "One. Two.");
     format_for_tts := fun t => Returned t;
     format_for_tts_simple := fun t => t;
     write_text := fun _ _ => Returned tt;
     mkdir := fun _ => Returned tt;
     replicate_run := fun _ _ _ => Returned (str "https://host/audio.wav");
     http_download := fun _ _ _ => Returned tt;
     pydub_export := fun _ _ => Raised (ServiceError "ffmpeg");
     unlink := fun _ => Returned tt;
     rmdir := fun _ => Returned tt |}.

(** The same, but the markdown file cannot be read. *)
Definition unreadable_service : services :=
  {| read_text := fun _ => Raised (ServiceError "FileNotFoundError");
     format_for_tts := fun t => Returned t;
     format_for_tts_simple := fun t => t;
     write_text := fun _ _ => Returned tt;
     mkdir := fun _ => Returned tt;
     replicate_run := fun _ _ _ => Returned (str "https://host/audio.wav");
     http_download := fun _ _ _ => Returned tt;
     pydub_export := fun _ _ => Returned tt;
     unlink := fun _ => Returned tt;
     rmdir := fun _ => Returned tt |}.

(** ** Notions for the further statements on the normalizer *)

(** A later position of the same subject: [st'] is [st] moved forward
    over some characters [w]. *)
Definition advance (st st' : mstate) : Prop :=
  exists w, rest st = w ++ rest st' /\ pre st' = rev w ++ pre st.

Definition among (l : list char) (c : char) : bool :=
  existsb (fun x => (c =? x)%N) l.

(** The five symbols that the pass replaces by words: the percent sign,
    the ampersand, the multiplication sign and the two arrows. *)
Definition spoken_symbols : list char := [37; 38; 215; 8592; 8594]%N.

Definition is_symbol (c : char) : bool := among spoken_symbols c.

(** ** [src/audiobook_generator.py]: from a chapter to its chunks *)

Module Generator.

Section Unicode.

(** The part of [\d] outside ASCII, left open as in the normalizer. *)
Variable unicode_digit : char -> bool.

(** The class [[\s\S]]: every character. *)
Definition any : cclass := Cls (fun _ => true).

(** [!\[.*?\]\(.*?\)] *)
Definition re_image : regex :=
  seq [lit "!["; star_lazy Dot; lit "]("; star_lazy Dot; lit ")"].

(** Three backticks, [[\s\S]*?], three backticks; then one backtick,
    [[^`]+], one backtick. *)
Definition re_code_block : regex :=
  seq [lit "```"; star_lazy any; lit "```"].
Definition re_inline_code : regex :=
  seq [lit "`"; plus (except 96); lit "`"].

(** [^#{1,6}\s+(.+)$], replaced by the template [\1.] *)
Definition re_header : regex :=
  seq [Bol; between 1 6 (only 35); plus space; Group 1 (plus Dot); Eol].
Definition spoken_header (m : found) : text := backref1 m ++ str ".".

(** [\*\*([^*]+)\*\*], [\*([^*]+)\*], [__([^_]+)__], [_([^_]+)_] *)
Definition re_bold : regex :=
  seq [lit "**"; Group 1 (plus (except 42)); lit "**"].
Definition re_italic : regex :=
  seq [lit "*"; Group 1 (plus (except 42)); lit "*"].
Definition re_bold_underscore : regex :=
  seq [lit "__"; Group 1 (plus (except 95)); lit "__"].
Definition re_italic_underscore : regex :=
  seq [lit "_"; Group 1 (plus (except 95)); lit "_"].

(** [\[([^\]]+)\]\([^)]+\)] *)
Definition re_link : regex :=
  seq [lit "["; Group 1 (plus (except 93)); lit "]("; plus (except 41); lit ")"].

(** [^\s*[-*+]\s+], [^\s*\d+\.\s+] *)
Definition re_bullet : regex :=
  seq [Bol; star space; One (oneof "-*+"); plus space].
Definition re_numbered : regex :=
  seq [Bol; star space; plus (Cls (is_digit unicode_digit)); lit "."; plus space].

(** [^---+$], [\n{3,}] *)
Definition re_rule : regex := seq [Bol; lit "--"; plus (only 45); Eol].
Definition re_newlines : regex := at_least 3 (only NL).

Definition clean_markdown_for_tts (content : text) : text :=
  (* Remove image references *)
  let content := Re.sub no_flags re_image remove content in
  (* Remove code blocks *)
  let content := Re.sub no_flags re_code_block
                        (fun _ => str "[code example omitted]") content in
  let content := Re.sub no_flags re_inline_code remove content in
  (* Convert headers to spoken form *)
  let content := Re.sub multiline re_header spoken_header content in
  (* Remove bold/italic markers *)
  let content := Re.sub no_flags re_bold backref1 content in
  let content := Re.sub no_flags re_italic backref1 content in
  let content := Re.sub no_flags re_bold_underscore backref1 content in
  let content := Re.sub no_flags re_italic_underscore backref1 content in
  (* Remove links but keep text *)
  let content := Re.sub no_flags re_link backref1 content in
  (* Remove bullet points *)
  let content := Re.sub multiline re_bullet remove content in
  let content := Re.sub multiline re_numbered remove content in
  (* Remove horizontal rules *)
  let content := Re.sub multiline re_rule remove content in
  (* Clean up extra whitespace *)
  let content := Re.sub no_flags re_newlines (fun _ => [NL; NL]) content in
  strip content.

End Unicode.

(** Body of [for sentence in sentences], on the two variables it
    updates. *)
Definition add_sentence (max_chars : Z) (a : acc) (sentence : text) : acc :=
  if (len (current_chunk a) + len sentence + 1 <=? max_chars)%Z
  then {| chunks := chunks a;
          current_chunk :=
            current_chunk a
            ++ (if truthy (current_chunk a) then [SP] else [])
            ++ sentence |}
  else {| chunks := if truthy (current_chunk a)
                    then chunks a ++ [strip (current_chunk a)]
                    else chunks a;
          current_chunk := sentence |}.

(** [chunk_text]: the sentence split (the pattern of [src/audiobook.py])
    on the whole text, then the loop, then the last buffer. *)
Definition chunk_text (text0 : text) (max_chars : Z) : list text :=
  let sentences0 := Re.split no_flags sentence_end text0 in
  let a := fold_left (add_sentence max_chars) sentences0
                     {| chunks := []; current_chunk := [] |} in
  if truthy (current_chunk a)
  then chunks a ++ [strip (current_chunk a)]
  else chunks a.

(** The table of [simple_tts_optimize], in the order of the dict
    literal. *)
Definition replacements : list (string * string) :=
  [ ("MCP", "M C P");
    ("API", "A P I");
    ("APIs", "A P Is");
    ("JSON", "Jason");
    ("HTTP", "H T T P");
    ("HTTPS", "H T T P S");
    ("URL", "U R L");
    ("URLs", "U R Ls");
    ("CLI", "C L I");
    ("SDK", "S D K");
    ("SSE", "S S E");
    ("STDIO", "standard I O");
    ("AI", "A I");
    ("LLM", "L L M");
    ("LLMs", "L L Ms");
    ("e.g.", "for example");
    ("i.e.", "that is");
    ("etc.", "et cetera") ]%string.

(** One turn of [for abbr, expansion in replacements.items()]. *)
Definition replace_one (t : text) (kv : string * string) : text :=
  Py.replace (str (fst kv)) (str (snd kv)) t.

Definition simple_tts_optimize (t : text) : text :=
  fold_left replace_one replacements t.

(** Steps 1 to 3 of the chapter loop of [main]: the chunks of a chapter,
    with the default limit of [chunk_text]. *)
Definition chapter_chunks (unicode_digit : char -> bool) (content : text)
  : list text :=
  let clean_text := clean_markdown_for_tts unicode_digit content in
  let optimized_text := simple_tts_optimize clean_text in
  chunk_text optimized_text 2000.

End Generator.

(** ** Notions for the statements on the chapter pipeline *)

(** The chunk is one sentence of the text, longer than the limit. *)
Definition long_sentence (text0 : text) (max_chars : Z) (c : text) : Prop :=
  exists s, In s (sentences text0) /\ (max_chars < len s)%Z /\ c = strip s.

(** What the loop of [Generator.chunk_text] keeps true. *)
Definition bounded (text0 : text) (max_chars : Z) (a : acc) : Prop :=
  Forall (fun c => (len c <= max_chars)%Z \/ long_sentence text0 max_chars c)
         (chunks a) /\
  ((len (current_chunk a) <= max_chars)%Z \/
   (In (current_chunk a) (sentences text0) /\
    (max_chars < len (current_chunk a))%Z)).

(** ** Notions for reasoning on [re.sub] step by step *)

(** [re.sub] from a position on, with the fuel of the iteration. *)
Definition sub_from (fl : flags) (r : regex) (repl : found -> text)
           (fuel : nat) (p s : text) : text :=
  let (fs, tl) := Re.finditer_go fl fuel r p s [] in
  flat_map (fun f => skipped f ++ repl f) fs ++ tl.

(** The replacement looks at the match only: its text and its groups. *)
Definition match_only (repl : found -> text) : Prop :=
  forall f f', whole f = whole f' -> groups f = groups f' -> repl f = repl f'.

(** The pattern has no empty match. *)
Definition never_empty (fl : flags) (r : regex) : Prop :=
  forall p s st, Re.match_at fl r p s = Some st ->
                 (List.length (rest st) < List.length s)%nat.

(** The match found at a position, as [re.sub] hands it to the
    replacement. *)
Definition found_at (p s : text) (st : mstate) : found :=
  {| skipped := []; whole := Re.consumed (start_at p s) st; groups := caps st |}.

(** The number of times [c] stands at the start of [s]. *)
Fixpoint run (c : char) (s : text) : nat :=
  match s with
  | x :: s' => if (x =? c)%N then S (run c s') else 0
  | [] => 0
  end.

(** No [n] consecutive [c] anywhere in [s]. *)
Fixpoint short_runs (c : char) (n : nat) (s : text) : bool :=
  match s with
  | [] => true
  | _ :: s' => (run c s <? n)%nat && short_runs c n s'
  end.

(** ** Notions for the statements on the table of abbreviations *)

(** The text starts with a word character. *)
Definition starts_word (w : char -> bool) (s : text) : bool :=
  match s with [] => false | c :: _ => w c end.

(** Somewhere in [t] the key [k] stands directly in front of a word
    character. *)
Fixpoint glued (w : char -> bool) (k t : text) : bool :=
  (prefixb k t && starts_word w (skipn (List.length k) t))
  || match t with [] => false | _ :: t' => glued w k t' end.

(** The first four entries of the table: the keys that end with a full
    stop. *)
Definition dotted_entries : list (string * string) := firstn 4 abbreviations.

(** The steps of [re.sub] over a subject, as a relation between the
    text before the position, the text from it on, and the result from
    it on. *)
Inductive scan (fl : flags) (r : regex) (repl : found -> text)
  : text -> text -> text -> Prop :=
| scan_end (p : text) : scan fl r repl p [] []
| scan_skip (p : text) (c : char) (s res : text) :
    Re.match_at fl r p (c :: s) = None ->
    scan fl r repl (c :: p) s res ->
    scan fl r repl p (c :: s) (c :: res)
| scan_hit (p s : text) (st : mstate) (res : text) :
    Re.match_at fl r p s = Some st ->
    scan fl r repl (pre st) (rest st) res ->
    scan fl r repl p s (repl (found_at p s st) ++ res).

(** The table without the entry of the key JSON-RPC. *)
Definition without_json_rpc : list (string * string) :=
  filter (fun kv => negb (String.eqb (fst kv) "JSON-RPC")) abbreviations.

(** ** Notions for the statements on [simple_tts_optimize] *)

(** The two texts differ at a place that both have. *)
Fixpoint mismatch (a b : text) : bool :=
  match a, b with
  | x :: a', y :: b' => negb (x =? y)%N || mismatch a' b'
  | _, _ => false
  end.

(** [k] differs in this way from [n] and from every part of [n] that
    goes to its end: [k] cannot start inside [n]. *)
Fixpoint clear_of (k n : text) : bool :=
  match n with
  | [] => true
  | _ :: n' => mismatch k n && clear_of k n'
  end.

(** The keys of the table that only add a letter to the key before
    them. *)
Definition shadowed_keys : list string := ["APIs"; "HTTPS"; "URLs"; "LLMs"]%string.

(** The table without these entries. *)
Definition effective_replacements : list (string * string) :=
  filter (fun kv => negb (existsb (String.eqb (fst kv)) shadowed_keys))
         Generator.replacements.

(** ** [src/audiobook_generator.py]: the run over the chapters *)

Module GeneratorMain.

(** The files of a run. *)
Inductive gpath :=
| ChapterAudio (name : text)           (* AUDIO_OUTPUT_DIR / f"{chapter_name}.wav" *)
| ChunkAudio (name : text) (i : nat)   (* f"{chapter_name}_chunk_{i:03d}.wav" *)
| ConcatList                           (* output_path.parent / "concat_list.txt" *)
| FinalList                            (* "final_concat_list.txt" *)
| FinalOutput.                         (* "mcp-crash-course-audiobook.wav" *)

(** What leaves the process. *)
Inductive gevent :=
| LoadChapters
| UploadVoice
| Request (prompt voice_url : text)          (* replicate.run *)
| Fetch (u : text)                           (* requests.get *)
| WriteAudio (p : gpath) (content : text)
| Pause                                      (* time.sleep(1) *)
| WriteList (p : gpath) (files : list gpath)
| Ffmpeg (list_file out : gpath)
| Remove (p : gpath)
| Say (what : string).

(** The collaborators.  The calls for one chunk are told apart by the
    file of the chunk, the calls of one concatenation by its output
    file; the chapter names of a run are distinct, being the stems of
    the files of one directory.  [ffmpeg] answers with the exit status
    of the process, or raises when it cannot be started. *)
Record world := {
  load_chapters : outcome (list (text * text));
  upload_voice_reference : outcome text;
  path_exists : gpath -> bool;
  tts_run : gpath -> text -> text -> outcome text;
  http_get : gpath -> text -> outcome (Z * text);
  write_audio : gpath -> text -> outcome unit;
  write_list : gpath -> list gpath -> outcome unit;
  ffmpeg : gpath -> outcome Z;
  remove_list : gpath -> outcome unit;
  remove_file : gpath -> outcome unit
}.

(** The store is the log. *)
Definition emit (e : gevent) : M (list gevent) unit :=
  modify (fun l => l ++ [e]).

Definition call {A} (e : gevent) (answer : outcome A) : M (list gevent) A :=
  (emit e ;;
   match answer with
   | Returned a => ret a
   | Raised x => raise x
   end)%eff.

Section Run.

Variable w : world.
Variable unicode_digit : char -> bool.

Definition generate_audio_chunk (t voice_url : text) (output_path : gpath)
  : M (list gevent) bool :=
  try_except
    (output <- call (Request t voice_url) (tts_run w output_path t voice_url) ;;
     if truthy output
     then
       response <- call (Fetch output) (http_get w output_path output) ;;
       if (fst response =? 200)%Z
       then
         call (WriteAudio output_path (snd response))
              (write_audio w output_path (snd response)) ;;
         ret true
       else ret false
     else ret false)%eff
    (fun e => emit (Say "TTS generation failed") ;; ret false)%eff.

Fixpoint remove_all (files : list gpath) : M (list gevent) unit :=
  match files with
  | [] => ret tt
  | f :: fs => (call (Remove f) (remove_file w f) ;; remove_all fs)%eff
  end.

Definition concatenate_audio_files (audio_files : list gpath)
           (output_path : gpath) : M (list gevent) unit :=
  match audio_files with
  | [] => ret tt
  | _ :: _ =>
      (call (WriteList ConcatList audio_files)
            (write_list w output_path audio_files) ;;
       _ <- call (Ffmpeg ConcatList output_path) (ffmpeg w output_path) ;;
       call (Remove ConcatList) (remove_list w output_path) ;;
       remove_all audio_files)%eff
  end.

(** [for i, chunk in enumerate(chunks)], with the list
    [chunk_audio_files] it fills. *)
Fixpoint chunk_loop (chapter_name voice_url : text) (i : nat)
         (chunks0 : list text) (chunk_audio_files : list gpath)
  : M (list gevent) (list gpath) :=
  match chunks0 with
  | [] => ret chunk_audio_files
  | chunk :: more =>
      (let chunk_path := ChunkAudio chapter_name i in
       emit (Say "Generating chunk") ;;
       success <- generate_audio_chunk chunk voice_url chunk_path ;;
       files <- (if success : bool
                 then ret (chunk_audio_files ++ [chunk_path])
                 else (emit (Say "Failed to generate chunk") ;;
                       ret chunk_audio_files)) ;;
       emit Pause ;;
       chunk_loop chapter_name voice_url (S i) more files)%eff
  end.

(** Body of [for chapter_name, content in chapters]. *)
Definition process_chapter (voice_url : text) (all_chapter_audios : list gpath)
           (chapter : text * text) : M (list gevent) (list gpath) :=
  (let chapter_name := fst chapter in
   let content := snd chapter in
   let chapter_audio_path := ChapterAudio chapter_name in
   if path_exists w chapter_audio_path
   then
     emit (Say "already exists, skipping") ;;
     ret (all_chapter_audios ++ [chapter_audio_path])
   else
     emit (Say "Processing") ;;
     emit (Say "Cleaning markdown") ;;
     emit (Say "Optimizing for speech") ;;
     let chunks0 := Generator.chapter_chunks unicode_digit content in
     emit (Say "Split into chunks") ;;
     chunk_audio_files <- chunk_loop chapter_name voice_url 0 chunks0 [] ;;
     all <- match chunk_audio_files with
            | [] => ret all_chapter_audios
            | _ :: _ =>
                emit (Say "Concatenating") ;;
                concatenate_audio_files chunk_audio_files chapter_audio_path ;;
                ret (all_chapter_audios ++ [chapter_audio_path])
            end ;;
     emit (Say "Completed") ;;
     emit (Say EmptyString) ;;
     ret all)%eff.

Fixpoint chapters_loop (voice_url : text) (chapters : list (text * text))
         (all_chapter_audios : list gpath) : M (list gevent) (list gpath) :=
  match chapters with
  | [] => ret all_chapter_audios
  | chapter :: more =>
      (all <- process_chapter voice_url all_chapter_audios chapter ;;
       chapters_loop voice_url more all)%eff
  end.

Definition main : M (list gevent) unit :=
  (chapters <- call LoadChapters (load_chapters w) ;;
   emit (Say "Loaded chapters") ;;
   emit (Say "TTS model") ;;
   emit (Say "Voice reference") ;;
   emit (Say "-") ;;
   emit (Say "Preparing voice reference") ;;
   voice_url <- call UploadVoice (upload_voice_reference w) ;;
   emit (Say "Voice ready") ;;
   all_chapter_audios <- chapters_loop voice_url chapters [] ;;
   match all_chapter_audios with
   | [] => ret tt
   | _ :: _ =>
       emit (Say "-") ;;
       emit (Say "Creating final audiobook") ;;
       call (WriteList FinalList all_chapter_audios)
            (write_list w FinalOutput all_chapter_audios) ;;
       _ <- call (Ffmpeg FinalList FinalOutput) (ffmpeg w FinalOutput) ;;
       call (Remove FinalList) (remove_list w FinalOutput) ;;
       emit (Say "Final audiobook saved")
   end ;;
   emit (Say "-") ;;
   emit (Say "Audiobook generation complete"))%eff.

End Run.

End GeneratorMain.

(** ** Notions for the statements on the run over the chapters *)

Definition is_tts_request (e : GeneratorMain.gevent) : bool :=
  match e with GeneratorMain.Request _ _ => true | _ => false end.

Definition is_pause (e : GeneratorMain.gevent) : bool :=
  match e with GeneratorMain.Pause => true | _ => false end.

(** The chunk is delivered: the synthesis gives an output, the download
    answers 200 and the file is written. *)
Definition delivered (w : GeneratorMain.world) (p : GeneratorMain.gpath)
           (t voice_url : text) : bool :=
  match GeneratorMain.tts_run w p t voice_url with
  | Returned output =>
      truthy output &&
      match GeneratorMain.http_get w p output with
      | Returned response =>
          (fst response =? 200)%Z &&
          match GeneratorMain.write_audio w p (snd response) with
          | Returned _ => true
          | Raised _ => false
          end
      | Raised _ => false
      end
  | Raised _ => false
  end.

(** The files of the delivered chunks of a chapter, numbered from [i]. *)
Fixpoint delivered_files (w : GeneratorMain.world) (name voice_url : text)
         (i : nat) (l : list text) : list GeneratorMain.gpath :=
  match l with
  | [] => []
  | c :: l' =>
      (if delivered w (GeneratorMain.ChunkAudio name i) c voice_url
       then [GeneratorMain.ChunkAudio name i] else [])
      ++ delivered_files w name voice_url (S i) l'
  end.

(** A chapter ends up in the final list when its audio was there
    before the run or one of its chunks was delivered. *)
Definition listed (w : GeneratorMain.world) (unicode_digit : char -> bool)
           (voice_url : text) (chapter : text * text) : bool :=
  GeneratorMain.path_exists w (GeneratorMain.ChapterAudio (fst chapter))
  || match delivered_files w (fst chapter) voice_url 0
                           (Generator.chapter_chunks unicode_digit (snd chapter))
     with
     | [] => false
     | _ :: _ => true
     end.

(** The two events of the final concatenation. *)
Definition is_final (e : GeneratorMain.gevent) : bool :=
  match e with
  | GeneratorMain.WriteList GeneratorMain.FinalList _ => true
  | GeneratorMain.Ffmpeg GeneratorMain.FinalList _ => true
  | _ => false
  end.

(** What one call of [generate_audio_chunk] logs. *)
Definition chunk_trace (w : GeneratorMain.world) (p : GeneratorMain.gpath)
           (t voice_url : text) : list GeneratorMain.gevent :=
  GeneratorMain.Request t voice_url ::
  match GeneratorMain.tts_run w p t voice_url with
  | Returned output =>
      if truthy output
      then GeneratorMain.Fetch output ::
           match GeneratorMain.http_get w p output with
           | Returned response =>
               if (fst response =? 200)%Z
               then GeneratorMain.WriteAudio p (snd response) ::
                    match GeneratorMain.write_audio w p (snd response) with
                    | Returned _ => []
                    | Raised _ => [GeneratorMain.Say "TTS generation failed"]
                    end
               else []
           | Raised _ => [GeneratorMain.Say "TTS generation failed"]
           end
      else []
  | Raised _ => [GeneratorMain.Say "TTS generation failed"]
  end.

(** What the loop over the chunks of a chapter logs. *)
Fixpoint chunks_trace (w : GeneratorMain.world) (name voice_url : text)
         (i : nat) (l : list text) : list GeneratorMain.gevent :=
  match l with
  | [] => []
  | c :: l' =>
      [GeneratorMain.Say "Generating chunk"]
      ++ chunk_trace w (GeneratorMain.ChunkAudio name i) c voice_url
      ++ (if delivered w (GeneratorMain.ChunkAudio name i) c voice_url
          then [] else [GeneratorMain.Say "Failed to generate chunk"])
      ++ [GeneratorMain.Pause]
      ++ chunks_trace w name voice_url (S i) l'
  end.

(** The requests of a run: those of the chunks of the chapters whose
    audio was not there. *)
Definition run_requests_of (w : GeneratorMain.world)
           (unicode_digit : char -> bool) (voice_url : text)
           (chapters : list (text * text)) : list GeneratorMain.gevent :=
  flat_map
    (fun chapter =>
       if GeneratorMain.path_exists w (GeneratorMain.ChapterAudio (fst chapter))
       then []
       else List.map (fun c => GeneratorMain.Request c voice_url)
                     (Generator.chapter_chunks unicode_digit (snd chapter)))
    chapters.

(** A world in which every synthesis call raises and one chapter is to
    be done. *)
Definition silent_world : GeneratorMain.world :=
  {| GeneratorMain.load_chapters :=
       Returned [(str "chapter-01", str "# One" ++ [NL; NL] ++ str "Some text.")];
     GeneratorMain.upload_voice_reference := Returned (str "data:audio/mpeg;base64,");
     GeneratorMain.path_exists := fun _ => false;
     GeneratorMain.tts_run := fun _ _ _ => Raised (ServiceError "replicate");
     GeneratorMain.http_get := fun _ _ => Returned (200%Z, []);
     GeneratorMain.write_audio := fun _ _ => Returned tt;
     GeneratorMain.write_list := fun _ _ => Returned tt;
     GeneratorMain.ffmpeg := fun _ => Returned 0%Z;
     GeneratorMain.remove_list := fun _ => Returned tt;
     GeneratorMain.remove_file := fun _ => Returned tt |}.

(** ** Strings: white space, [strip], [split] and [join] *)


Lemma len_app (a b : text) : len (a ++ b) = (len a + len b)%Z.
Proof. unfold len; rewrite length_app; lia. Qed.

Lemma len_nonneg (a : text) : (0 <= len a)%Z.
Proof. unfold len; lia. Qed.

Lemma len_pos (a : text) : a <> [] -> (1 <= len a)%Z.
Proof. destruct a; [congruence|]; unfold len; simpl; lia. Qed.

Lemma truthy_true (s : text) : truthy s = true <-> s <> [].
Proof. destruct s; simpl; split; congruence. Qed.

Lemma truthy_false (s : text) : truthy s = false <-> s = [].
Proof. destruct s; simpl; split; congruence. Qed.

Lemma blank_app (a b : text) : blank (a ++ b) = blank a && blank b.
Proof. apply forallb_app. Qed.

Lemma blank_rev (a : text) : blank (rev a) = blank a.
Proof.
  induction a as [|c a IH]; simpl; auto.
  rewrite blank_app, IH; simpl. rewrite andb_true_r, andb_comm; reflexivity.
Qed.

(** [lstrip] drops a blank prefix and stops at the first other character. *)
Lemma lstrip_split (s : text) :
  exists w, s = w ++ lstrip s /\ blank w = true.
Proof.
  induction s as [|c s [w [E B]]]; simpl.
  - exists []; auto.
  - destruct (isspace c) eqn:Hc.
    + exists (c :: w); simpl; rewrite Hc, B; split; [f_equal; exact E | reflexivity].
    + exists []; auto.
Qed.

Lemma lstrip_hd (s : text) c : hd_error (lstrip s) = Some c -> isspace c = false.
Proof.
  induction s as [|d s IH]; simpl; [discriminate|].
  destruct (isspace d) eqn:Hd; auto.
  simpl; intros [= <-]; exact Hd.
Qed.

Lemma lstrip_blank (s : text) : blank s = true -> lstrip s = [].
Proof.
  induction s as [|c s IH]; simpl; auto.
  intros H; apply andb_prop in H as [Hc Hs]; rewrite Hc; auto.
Qed.

Lemma lstrip_fixed (s : text) :
  (forall c, hd_error s = Some c -> isspace c = false) -> lstrip s = s.
Proof.
  destruct s as [|c s]; simpl; auto.
  intros H; rewrite (H c eq_refl); reflexivity.
Qed.

Lemma rstrip_split (s : text) :
  exists w, s = rstrip s ++ w /\ blank w = true.
Proof.
  unfold rstrip. destruct (lstrip_split (rev s)) as [w [E B]].
  exists (rev w); split; [| rewrite blank_rev; exact B].
  rewrite <- rev_app_distr, <- E, rev_involutive; reflexivity.
Qed.

(** A text is its [strip] between two blank margins. *)
Lemma strip_split (s : text) :
  exists w1 w2, s = w1 ++ strip s ++ w2 /\ blank w1 = true /\ blank w2 = true.
Proof.
  destruct (lstrip_split s) as [w1 [E1 B1]].
  destruct (rstrip_split (lstrip s)) as [w2 [E2 B2]].
  exists w1, w2; unfold strip; repeat split; auto.
  rewrite <- E2; exact E1.
Qed.

Lemma strip_len (s : text) : (len (strip s) <= len s)%Z.
Proof.
  destruct (strip_split s) as [w1 [w2 [E _]]].
  rewrite E at 2; rewrite !len_app.
  pose proof (len_nonneg w1); pose proof (len_nonneg w2); lia.
Qed.

Lemma strip_clean (s : text) : clean_edges (strip s).
Proof.
  assert (L : forall c, hd_error (rev (strip s)) = Some c -> isspace c = false).
  { unfold strip, rstrip; intros c; rewrite rev_involutive; apply lstrip_hd. }
  split; [| exact L].
  intros c Hc.
  destruct (rstrip_split (lstrip s)) as [w [E B]]; fold (strip s) in E.
  destruct (strip s) as [|d t] eqn:Es; [discriminate|].
  simpl in Hc; injection Hc as ->.
  apply (lstrip_hd s); rewrite E; reflexivity.
Qed.

Lemma blank_strip (s : text) : blank s = true -> strip s = [].
Proof.
  intros B; unfold strip; rewrite (lstrip_blank _ B); reflexivity.
Qed.

Lemma strip_nil_blank (s : text) : strip s = [] -> blank s = true.
Proof.
  intros E; destruct (strip_split s) as [w1 [w2 [Es [B1 B2]]]].
  rewrite Es, E, !blank_app, B1, B2; reflexivity.
Qed.

Lemma clean_nonblank (s : text) : s <> [] -> clean_edges s -> blank s = false.
Proof.
  destruct s as [|c s]; [congruence|]; intros _ [H _]; simpl.
  rewrite (H c eq_refl); reflexivity.
Qed.

Lemma strip_nonblank (s : text) : strip s <> [] -> blank (strip s) = false.
Proof. intros H; apply clean_nonblank; [exact H | apply strip_clean]. Qed.

(** ** Words *)

Lemma words_cons (c : char) (s : text) :
  words (c :: s) =
  if isspace c then words s
  else match s with
       | [] => [[c]]
       | d :: _ => if isspace d then [c] :: words s else cons_head c (words s)
       end.
Proof. reflexivity. Qed.

Lemma words_hd_nonspace (c : char) (s : text) :
  isspace c = false -> words (c :: s) <> [].
Proof.
  revert c; induction s as [|d s IH]; intros c Hc; rewrite words_cons, Hc.
  - discriminate.
  - destruct (isspace d) eqn:Hd; [discriminate|].
    specialize (IH d Hd). destruct (words (d :: s)); [congruence | discriminate].
Qed.

Lemma cons_head_app (c : char) (a b : list text) :
  a <> [] -> cons_head c (a ++ b) = cons_head c a ++ b.
Proof. destruct a; [congruence | reflexivity]. Qed.

Lemma words_blank (w : text) : blank w = true -> words w = [].
Proof.
  induction w as [|c w IH]; auto.
  simpl blank; intros H; apply andb_prop in H as [Hc Hw].
  rewrite words_cons, Hc; auto.
Qed.

Lemma words_blank_app (w y : text) : blank w = true -> words (w ++ y) = words y.
Proof.
  induction w as [|c w IH]; auto.
  simpl blank; intros H; apply andb_prop in H as [Hc Hw].
  rewrite <- app_comm_cons, words_cons, Hc; auto.
Qed.

(** A white space character between two texts separates their words. *)
Lemma words_app_space (x y : text) (c : char) :
  isspace c = true -> words (x ++ c :: y) = words x ++ words y.
Proof.
  intros Hc. induction x as [|a x IH].
  - rewrite app_nil_l, words_cons, Hc. reflexivity.
  - rewrite <- app_comm_cons.
    rewrite (words_cons a x), (words_cons a (x ++ c :: y)).
    destruct (isspace a) eqn:Ha; [exact IH|].
    destruct x as [|d x].
    + rewrite app_nil_l in *. rewrite Hc, IH. reflexivity.
    + rewrite <- app_comm_cons in *. destruct (isspace d) eqn:Hd.
      * rewrite IH. reflexivity.
      * rewrite IH. apply cons_head_app. apply words_hd_nonspace; exact Hd.
Qed.

Lemma words_app_blank (x w y : text) :
  blank w = true -> w <> [] -> words (x ++ w ++ y) = words x ++ words y.
Proof.
  destruct w as [|c w]; [congruence|]. simpl blank; intros H _.
  apply andb_prop in H as [Hc Hw].
  rewrite <- app_comm_cons, words_app_space by exact Hc.
  rewrite words_blank_app by exact Hw. reflexivity.
Qed.

Lemma words_app_blank_r (x w : text) : blank w = true -> words (x ++ w) = words x.
Proof.
  destruct w as [|c w]; [rewrite app_nil_r; reflexivity|].
  simpl blank; intros H; apply andb_prop in H as [Hc Hw].
  rewrite words_app_space by exact Hc.
  rewrite (words_blank _ Hw), app_nil_r. reflexivity.
Qed.

Lemma words_strip (s : text) : words (strip s) = words s.
Proof.
  destruct (strip_split s) as [w1 [w2 [E [B1 B2]]]].
  rewrite E at 2. rewrite words_blank_app by exact B1.
  rewrite words_app_blank_r by exact B2. reflexivity.
Qed.

Lemma words_nil (s : text) : words s = [] -> blank s = true.
Proof.
  induction s as [|c s IH]; auto.
  destruct (isspace c) eqn:Hc.
  - rewrite words_cons, Hc. simpl. rewrite Hc. exact IH.
  - intros H. exfalso. exact (words_hd_nonspace c s Hc H).
Qed.

(** ** [split] and [join] *)

Lemma split_go_nonempty (sep s : text) (k : nat) : split_go sep s k <> [].
Proof.
  revert k; induction s as [|c s IH]; intros k; simpl; [discriminate|].
  destruct k; [| apply IH].
  destruct (prefixb sep (c :: s)); [discriminate|].
  specialize (IH 0%nat). destruct (split_go sep s 0); [congruence | discriminate].
Qed.

Lemma join_cons (sep p : text) (l : list text) :
  l <> [] -> join sep (p :: l) = p ++ sep ++ join sep l.
Proof. destruct l; [congruence | reflexivity]. Qed.

Lemma join_cons_head (sep : text) (c : char) (l : list text) :
  l <> [] -> join sep (cons_head c l) = c :: join sep l.
Proof.
  destruct l as [|p [|q l]]; [congruence | reflexivity | reflexivity].
Qed.

Lemma prefixb_skipn (p s : text) :
  prefixb p s = true -> s = p ++ skipn (List.length p) s.
Proof.
  revert s; induction p as [|a p IH]; intros s; [reflexivity|].
  destruct s as [|b s]; simpl; [discriminate|].
  intros H; apply andb_prop in H as [Hab Hp].
  apply N.eqb_eq in Hab; subst; f_equal; auto.
Qed.

Lemma prefixb_length (p s : text) :
  prefixb p s = true -> (List.length p <= List.length s)%nat.
Proof.
  revert s; induction p as [|a p IH]; intros s; simpl; [lia|].
  destruct s as [|b s]; simpl; [discriminate|].
  intros H; apply andb_prop in H as [_ Hp]. specialize (IH _ Hp). lia.
Qed.

Lemma split_go_join (sep : text) :
  sep <> [] ->
  forall s k, (k <= List.length s)%nat ->
  join sep (split_go sep s k) = skipn k s.
Proof.
  intros Hsep. induction s as [|c s IH]; intros k Hk.
  - simpl in *. destruct k; reflexivity.
  - destruct k as [|k].
    + simpl split_go. destruct (prefixb sep (c :: s)) eqn:Hp.
      * rewrite join_cons by apply split_go_nonempty.
        pose proof (prefixb_length _ _ Hp) as Hl.
        pose proof (prefixb_skipn _ _ Hp) as Hs.
        destruct sep as [|a sep]; [congruence|].
        simpl in Hl, Hs |- *. rewrite Nat.sub_0_r.
        rewrite IH by lia. simpl. injection Hs as -> Hs. f_equal. symmetry; exact Hs.
      * rewrite join_cons_head by apply split_go_nonempty.
        rewrite IH by lia. reflexivity.
    + simpl in *. apply IH. lia.
Qed.

Lemma split_join (sep s : text) : sep <> [] -> join sep (Py.split sep s) = s.
Proof. intros H; unfold Py.split; rewrite split_go_join; auto. simpl; lia. Qed.

Lemma words_join (sep : text) (l : list text) :
  blank sep = true -> sep <> [] ->
  words (join sep l) = List.concat (List.map words l).
Proof.
  intros B N. induction l as [|p l IH]; [reflexivity|].
  destruct l as [|q l].
  - simpl. rewrite app_nil_r. reflexivity.
  - rewrite join_cons by discriminate.
    rewrite words_app_blank by assumption. rewrite IH. reflexivity.
Qed.

Lemma words_split (sep s : text) :
  blank sep = true -> sep <> [] ->
  List.concat (List.map words (Py.split sep s)) = words s.
Proof.
  intros B N. rewrite <- (words_join _ _ B N), split_join by exact N. reflexivity.
Qed.

(** ** The sentence split

    What [(?<=[.!?])\s+] matches, and what [re.split] makes of it. *)

Lemma terminator_not_space (c : char) : terminator c = true -> isspace c = false.
Proof.
  unfold terminator; simpl. rewrite !orb_true_iff, !N.eqb_eq.
  intros [->|[->|[->|H]]]; [reflexivity | reflexivity | reflexivity | discriminate].
Qed.

(** A greedy [\s*] before a continuation that accepts anything stops
    exactly where [lstrip] does. *)
Lemma rep_space_star (k : text -> text -> option mstate) :
  (forall p r, k p r <> None) ->
  forall r p, exists w,
    r = w ++ lstrip r /\ blank w = true /\
    Re.rep no_flags Greedy space 0 None p r k = k (rev w ++ p) (lstrip r).
Proof.
  intros Hk. induction r as [|c r IH]; intros p.
  - exists []. simpl. auto.
  - simpl. destruct (isspace c) eqn:Hc; simpl.
    + destruct (IH (c :: p)) as [w [E [B R]]].
      exists (c :: w). simpl. rewrite Hc, B. repeat split.
      * f_equal; exact E.
      * rewrite R, <- app_assoc. simpl.
        destruct (k (rev w ++ c :: p) (lstrip r)) eqn:K; [reflexivity|].
        exfalso; exact (Hk _ _ K).
    + exists []. simpl. auto.
Qed.

Lemma rep_space_plus (k : text -> text -> option mstate) (p r : text) :
  Re.rep no_flags Greedy space 1 None p r k =
  match r with
  | [] => None
  | c :: r' =>
      if isspace c
      then match Re.rep no_flags Greedy space 0 None (c :: p) r' k with
           | Some x => Some x
           | None => None
           end
      else None
  end.
Proof.
  destruct r as [|c r']; [reflexivity|].
  simpl. destruct (isspace c); reflexivity.
Qed.

Lemma match_sentence_end (p s : text) (st : mstate) :
  Re.match_at no_flags sentence_end p s = Some st ->
  exists t p' w,
    p = t :: p' /\ terminator t = true /\
    w <> [] /\ blank w = true /\ s = w ++ lstrip s /\
    pre st = rev w ++ p /\ rest st = lstrip s.
Proof.
  unfold Re.match_at, sentence_end, seq.
  cbn [fold_right Re.exec start_at pre rest caps plus].
  destruct p as [|t p']; [discriminate|].
  change (cc_test no_flags (oneof ".!?") t) with (terminator t).
  destruct (terminator t) eqn:Ht; [|discriminate].
  rewrite rep_space_plus.
  destruct s as [|c r]; [discriminate|].
  destruct (isspace c) eqn:Hc; [|discriminate].
  set (k := fun p0 r0 => Some {| pre := p0; rest := r0; caps := [] |}).
  assert (Hk : forall p0 r0, k p0 r0 <> None) by (intros; discriminate).
  destruct (rep_space_star k Hk r (c :: t :: p')) as [w [E [B R]]].
  rewrite R. unfold k.
  intros [= <-]. cbn [pre rest].
  exists t, p', (c :: w). simpl. rewrite Hc, B.
  split; [reflexivity|]. split; [exact Ht|]. split; [discriminate|].
  split; [reflexivity|]. split; [f_equal; exact E|].
  split; [rewrite <- app_assoc; reflexivity | reflexivity].
Qed.

Lemma search_spec (fl : flags) (r : regex) :
  forall s p st0 st1,
    Re.search fl r p s = Some (st0, st1) ->
    exists a, s = a ++ rest st0 /\ pre st0 = rev a ++ p /\
              Re.match_at fl r (pre st0) (rest st0) = Some st1.
Proof.
  induction s as [|c s IH]; intros p st0 st1; simpl.
  - destruct (Re.match_at fl r p []) eqn:M; [|discriminate].
    intros [= <- <-]. exists []. simpl. auto.
  - destruct (Re.match_at fl r p (c :: s)) eqn:M.
    + intros [= <- <-]. exists []. simpl. auto.
    + intros H. destruct (IH _ _ _ H) as [a [E [P M']]].
      exists (c :: a). simpl. rewrite <- app_assoc. simpl.
      repeat split; auto. f_equal; exact E.
Qed.

Lemma consumed_app (p w r r' : text) cs cs' :
  Re.consumed {| pre := p; rest := r; caps := cs |}
              {| pre := rev w ++ p; rest := r'; caps := cs' |} = w.
Proof.
  unfold Re.consumed; simpl.
  rewrite length_app, Nat.add_sub.
  rewrite firstn_app, Nat.sub_diag, firstn_all. simpl.
  rewrite app_nil_r. apply rev_involutive.
Qed.

Lemma solid_lstrip (s : text) : solid (lstrip s).
Proof.
  destruct (lstrip s) as [|c r] eqn:E; [left; reflexivity|].
  right. simpl. rewrite (lstrip_hd s c); [reflexivity|]. rewrite E; reflexivity.
Qed.

Lemma solid_skipped (a p p' : text) (t : char) :
  rev a ++ p = t :: p' -> terminator t = true -> solid a.
Proof.
  intros E Ht. destruct (rev a) as [|x ra] eqn:Ea.
  - left. rewrite <- (rev_involutive a), Ea. reflexivity.
  - right. simpl in E. injection E as -> _.
    rewrite <- blank_rev, Ea. simpl.
    rewrite (terminator_not_space _ Ht). reflexivity.
Qed.

Lemma lstrip_length (s : text) : (List.length (lstrip s) <= List.length s)%nat.
Proof.
  destruct (lstrip_split s) as [w [E _]]. rewrite E at 2.
  rewrite length_app. lia.
Qed.

(** The pieces and the text after the last match: their words are the
    words of the subject, and they are solid when the subject is. *)
Lemma sentences_go (fuel : nat) :
  forall p s, (List.length s < fuel)%nat ->
  let res := Re.finditer_go no_flags fuel sentence_end p s [] in
  List.concat (List.map words (List.map skipped (fst res))) ++ words (snd res)
    = words s /\
  (solid s -> Forall solid (List.map skipped (fst res)) /\ solid (snd res)).
Proof.
  induction fuel as [|fuel IH]; intros p s Hlen; [lia|].
  cbn [Re.finditer_go].
  destruct (Re.search no_flags sentence_end p s) as [[st0 st1]|] eqn:Hs.
  - destruct (search_spec _ _ _ _ _ _ Hs) as [a [E [P M]]].
    destruct (match_sentence_end _ _ _ M) as [t [p' [w [P0 [Ht [Hw [Bw [Er [P1 R1]]]]]]]]].
    destruct st0 as [p0 r0 c0], st1 as [p1 r1 c1]. cbn [pre rest caps] in *.
    subst p0 p1 r1. unfold start_at.
    rewrite !consumed_app. cbn [whole skipped rev app].
    destruct w as [|c w]; [congruence|].
    assert (Hl : (List.length (lstrip r0) < fuel)%nat).
    { rewrite E, Er, !length_app in Hlen. simpl in Hlen. lia. }
    specialize (IH (rev (c :: w) ++ rev a ++ p) (lstrip r0) Hl).
    destruct (Re.finditer_go no_flags fuel sentence_end
                (rev (c :: w) ++ rev a ++ p) (lstrip r0) []) as [fs tl].
    cbn [fst snd List.map List.concat skipped] in *.
    destruct IH as [IHw IHs]. split.
    + rewrite <- app_assoc, IHw, E.
      rewrite <- (words_app_blank a _ (lstrip r0) Bw Hw), <- Er. reflexivity.
    + intros _. destruct (IHs (solid_lstrip r0)) as [F T].
      split; [constructor; [|exact F] | exact T].
      exact (solid_skipped _ _ _ _ P0 Ht).
  - cbn [fst snd List.map List.concat rev app]. split; [reflexivity|].
    intros H; split; [constructor | exact H].
Qed.

Lemma sentences_words (s : text) :
  List.concat (List.map words (sentences s)) = words s.
Proof.
  unfold sentences, Re.split, Re.finditer.
  pose proof (sentences_go (S (List.length s)) [] s (Nat.lt_succ_diag_r _)) as H.
  destruct (Re.finditer_go no_flags (S (List.length s)) sentence_end [] s [])
    as [fs tl]. cbn [fst snd] in H. destruct H as [H _].
  rewrite map_app, concat_app. simpl. rewrite app_nil_r. exact H.
Qed.

Lemma sentences_solid (s : text) : solid s -> Forall solid (sentences s).
Proof.
  intros Hs. unfold sentences, Re.split, Re.finditer.
  pose proof (sentences_go (S (List.length s)) [] s (Nat.lt_succ_diag_r _)) as H.
  destruct (Re.finditer_go no_flags (S (List.length s)) sentence_end [] s [])
    as [fs tl]. cbn [fst snd] in H. destruct H as [_ H].
  destruct (H Hs) as [F T]. apply Forall_app. split; [exact F|].
  constructor; [exact T | constructor].
Qed.

(** ** The chunker's loops *)

Lemma fold_left_inv {A B : Type} (f : A -> B -> A) (I : A -> Prop) (P : B -> Prop) :
  (forall a b, I a -> P b -> I (f a b)) ->
  forall l a, Forall P l -> I a -> I (fold_left f l a).
Proof.
  intros Hf. induction l as [|b l IH]; intros a Hl Ha; [exact Ha|].
  inversion Hl; subst. simpl. apply IH; auto.
Qed.

Section Bound.

Variable text0 : text.
Variable max_length : Z.

Lemma current_within_strip (c : text) : (current_within text0 max_length) c -> (chunk_within text0 max_length) (strip c).
Proof.
  intros [H | [[para [Hin [Hp Hs]]] Hc]].
  - left. pose proof (strip_len c). lia.
  - right. exists para, c. auto.
Qed.

Lemma flush_within (a : acc) : (within text0 max_length) a -> Forall (chunk_within text0 max_length) (flush a).
Proof.
  intros [Hc Hcur]. unfold flush. destruct (truthy (current_chunk a)); [|exact Hc].
  apply Forall_app; split; [exact Hc|].
  constructor; [apply current_within_strip; exact Hcur | constructor].
Qed.

Lemma fresh_within (s : text) :
  ((len s <= max_length)%Z \/ (split_sentence text0 max_length) s) -> (current_within text0 max_length) s.
Proof.
  intros [H | H]; [left; exact H|].
  destruct (Z.le_gt_cases (len s) max_length); [left; assumption | right; auto].
Qed.

Lemma add_sentence_within (a : acc) (s : text) :
  (within text0 max_length) a -> (split_sentence text0 max_length) s -> (within text0 max_length) (add_sentence max_length a s).
Proof.
  intros Ha Hs. unfold add_sentence.
  destruct (Z.leb_spec (len (current_chunk a) + len s + 1) max_length) as [Hfit | Hno].
  - split; [exact (proj1 Ha)|]. cbn [current_chunk].
    left. destruct (truthy (current_chunk a)).
    + rewrite !len_app. change (len [SP]) with 1%Z. lia.
    + pose proof (len_nonneg (current_chunk a)). lia.
  - split; cbn [chunks current_chunk].
    + apply flush_within; exact Ha.
    + apply fresh_within. right; exact Hs.
Qed.

Lemma add_paragraph_within (a : acc) (para : text) :
  (within text0 max_length) a -> In para (Py.split para_sep text0) ->
  (within text0 max_length) (add_paragraph max_length a para).
Proof.
  intros Ha Hin. unfold add_paragraph.
  destruct (truthy (strip para)) eqn:Ht; cbn [negb]; [|exact Ha].
  destruct (Z.ltb_spec max_length (len (strip para))) as [Hlong | Hshort].
  - apply fold_left_inv with (P := (split_sentence text0 max_length)).
    + intros; apply add_sentence_within; assumption.
    + apply Forall_forall. intros s Hs. exists para. auto.
    + exact Ha.
  - destruct (Z.leb_spec (len (current_chunk a) + len (strip para) + 2) max_length)
      as [Hfit | Hno].
    + split; [exact (proj1 Ha)|]. cbn [current_chunk]. left.
      destruct (truthy (current_chunk a)); [|exact Hshort].
      rewrite !len_app. change (len para_sep) with 2%Z. lia.
    + split; cbn [chunks current_chunk].
      * apply flush_within; exact Ha.
      * left; exact Hshort.
Qed.

Hypothesis max_length_pos : (0 < max_length)%Z.

Lemma chunk_text_within : Forall (chunk_within text0 max_length) (chunk_text text0 max_length).
Proof.
  unfold chunk_text. apply flush_within.
  apply fold_left_inv with (P := fun p => In p (Py.split para_sep text0)).
  - intros; apply add_paragraph_within; assumption.
  - apply Forall_forall; auto.
  - split; [constructor | left].
    cbn [current_chunk]. change (len []) with 0%Z. lia.
Qed.

End Bound.

Section Content.

Variable max_length : Z.

Lemma flush_words (a : acc) :
  List.concat (List.map words (flush a)) = content a.
Proof.
  unfold flush, content. destruct (current_chunk a) as [|c s] eqn:E; simpl truthy; cbv iota.
  - rewrite app_nil_r. reflexivity.
  - rewrite map_app, concat_app. simpl. rewrite app_nil_r, words_strip. reflexivity.
Qed.

Lemma add_sentence_words (a : acc) (s : text) :
  content (add_sentence max_length a s) = content a ++ words s.
Proof.
  unfold add_sentence.
  destruct (len (current_chunk a) + len s + 1 <=? max_length)%Z.
  - unfold content; cbn [chunks current_chunk]. rewrite <- app_assoc. f_equal.
    destruct (current_chunk a) as [|c t]; [reflexivity|]. cbn [truthy].
    apply words_app_blank; [reflexivity | discriminate].
  - unfold content at 1; cbn [chunks current_chunk]. rewrite flush_words. reflexivity.
Qed.

Lemma add_sentences_words (ss : list text) :
  forall a, content (fold_left (add_sentence max_length) ss a)
            = content a ++ List.concat (List.map words ss).
Proof.
  induction ss as [|s ss IH]; intros a; simpl; [rewrite app_nil_r; reflexivity|].
  rewrite IH, add_sentence_words, <- app_assoc. reflexivity.
Qed.

Lemma add_paragraph_words (a : acc) (para : text) :
  content (add_paragraph max_length a para) = content a ++ words para.
Proof.
  unfold add_paragraph. rewrite <- (words_strip para).
  destruct (strip para) as [|c p] eqn:E; cbn [truthy negb].
  - rewrite app_nil_r. reflexivity.
  - destruct (max_length <? len (c :: p))%Z.
    + rewrite add_sentences_words, sentences_words. reflexivity.
    + destruct (len (current_chunk a) + len (c :: p) + 2 <=? max_length)%Z.
      * unfold content; cbn [chunks current_chunk]. rewrite <- app_assoc. f_equal.
        destruct (current_chunk a) as [|d t]; [reflexivity|]. cbn [truthy].
        apply words_app_blank; [reflexivity | discriminate].
      * unfold content at 1; cbn [chunks current_chunk]. rewrite flush_words.
        reflexivity.
Qed.

Lemma add_paragraphs_words (ps : list text) :
  forall a, content (fold_left (add_paragraph max_length) ps a)
            = content a ++ List.concat (List.map words ps).
Proof.
  induction ps as [|p ps IH]; intros a; simpl; [rewrite app_nil_r; reflexivity|].
  rewrite IH, add_paragraph_words, <- app_assoc. reflexivity.
Qed.

Lemma chunk_text_words (text0 : text) :
  List.concat (List.map words (chunk_text text0 max_length)) = words text0.
Proof.
  unfold chunk_text. rewrite flush_words, add_paragraphs_words.
  unfold content; simpl. apply words_split; [reflexivity | discriminate].
Qed.

Lemma flush_good (a : acc) : sound a -> Forall good_chunk (flush a).
Proof.
  intros [Hc Hs]. unfold flush.
  destruct (current_chunk a) as [|c t] eqn:E; cbn [truthy]; [exact Hc|].
  apply Forall_app; split; [exact Hc|]. constructor; [|constructor].
  split; [|apply strip_clean].
  intros Hn. apply strip_nil_blank in Hn.
  destruct Hs as [Hs | Hs]; congruence.
Qed.

Lemma solid_app (a sep b : text) : a <> [] -> solid a -> solid (a ++ sep ++ b).
Proof.
  intros Hn [H | H]; [congruence|]. right.
  rewrite blank_app, H. reflexivity.
Qed.

Lemma add_sentence_sound (a : acc) (s : text) :
  sound a -> solid s -> sound (add_sentence max_length a s).
Proof.
  intros Ha Hs. unfold add_sentence.
  destruct (len (current_chunk a) + len s + 1 <=? max_length)%Z.
  - split; [exact (proj1 Ha)|]. cbn [current_chunk].
    destruct (current_chunk a) as [|c t] eqn:E; cbn [truthy]; [exact Hs|].
    apply solid_app; [discriminate|]. rewrite <- E. exact (proj2 Ha).
  - split; cbn [chunks current_chunk]; [apply flush_good; exact Ha | exact Hs].
Qed.

Lemma add_paragraph_sound (a : acc) (para : text) :
  sound a -> sound (add_paragraph max_length a para).
Proof.
  intros Ha. unfold add_paragraph.
  destruct (strip para) as [|c p] eqn:E; cbn [truthy negb]; [exact Ha|].
  assert (Hp : solid (c :: p)).
  { right. rewrite <- E. apply strip_nonblank. rewrite E. discriminate. }
  destruct (max_length <? len (c :: p))%Z.
  - apply fold_left_inv with (P := solid).
    + intros; apply add_sentence_sound; assumption.
    + apply sentences_solid; exact Hp.
    + exact Ha.
  - destruct (len (current_chunk a) + len (c :: p) + 2 <=? max_length)%Z.
    + split; [exact (proj1 Ha)|]. cbn [current_chunk].
      destruct (current_chunk a) as [|d t] eqn:Ec; cbn [truthy]; [exact Hp|].
      apply solid_app; [discriminate|]. rewrite <- Ec. exact (proj2 Ha).
    + split; cbn [chunks current_chunk]; [apply flush_good; exact Ha | exact Hp].
Qed.

Lemma chunk_text_good (text0 : text) :
  Forall good_chunk (chunk_text text0 max_length).
Proof.
  unfold chunk_text. apply flush_good.
  apply fold_left_inv with (P := fun _ => True).
  - intros; apply add_paragraph_sound; assumption.
  - apply Forall_forall; auto.
  - split; [constructor | left; reflexivity].
Qed.

End Content.

(** ** A limit of zero or less *)

Section NoLimit.

Variable max_length : Z.
Hypothesis nonpositive : (max_length <= 0)%Z.

Lemma add_sentence_nolimit (a : acc) (s : text) :
  add_sentence max_length a s = {| chunks := flush a; current_chunk := s |}.
Proof.
  unfold add_sentence.
  destruct (Z.leb_spec (len (current_chunk a) + len s + 1) max_length); [|reflexivity].
  pose proof (len_nonneg (current_chunk a)). pose proof (len_nonneg s). lia.
Qed.

Lemma flush_fresh (a : acc) (s : text) :
  flush {| chunks := flush a; current_chunk := s |}
  = flush a ++ List.map strip (filter truthy [s]).
Proof.
  unfold flush at 1; cbn [chunks current_chunk]. simpl filter.
  destruct (truthy s); [reflexivity | rewrite app_nil_r; reflexivity].
Qed.

Lemma add_sentences_nolimit (ss : list text) :
  forall a, flush (fold_left (add_sentence max_length) ss a)
            = flush a ++ List.map strip (filter truthy ss).
Proof.
  induction ss as [|s ss IH]; intros a; simpl fold_left.
  - simpl. rewrite app_nil_r. reflexivity.
  - rewrite IH, add_sentence_nolimit, flush_fresh, <- app_assoc, <- map_app.
    rewrite <- filter_app. reflexivity.
Qed.

Lemma add_paragraph_nolimit (a : acc) (para : text) :
  flush (add_paragraph max_length a para)
  = flush a ++ List.map strip (filter truthy (sentences (strip para))).
Proof.
  unfold add_paragraph.
  destruct (strip para) as [|c p] eqn:E; cbn [truthy negb].
  - change (sentences []) with [@nil char]. simpl. rewrite app_nil_r. reflexivity.
  - destruct (Z.ltb_spec max_length (len (c :: p))) as [_ | H].
    + apply add_sentences_nolimit.
    + pose proof (len_pos (c :: p) ltac:(discriminate)). lia.
Qed.

Lemma add_paragraphs_nolimit (ps : list text) :
  forall a, flush (fold_left (add_paragraph max_length) ps a)
            = flush a ++ List.map strip
                (filter truthy (flat_map (fun para => sentences (strip para)) ps)).
Proof.
  induction ps as [|p ps IH]; intros a; simpl fold_left.
  - simpl. rewrite app_nil_r. reflexivity.
  - rewrite IH, add_paragraph_nolimit. simpl flat_map.
    rewrite filter_app, map_app, app_assoc. reflexivity.
Qed.

End NoLimit.

(** ** The synthesis loop *)

Section Loop.

Variable env : services.
Variable audio_prompt : option text.

Lemma continues_refl (s : store) : continues s s.
Proof. exists []. rewrite app_nil_r. auto. Qed.

Lemma continues_trans (s1 s2 s3 : store) :
  continues s1 s2 -> continues s2 s3 -> continues s1 s3.
Proof.
  intros [l1 [E1 X1]] [l2 [E2 X2]]. exists (l1 ++ l2).
  rewrite E2, E1, <- app_assoc, existsb_app, X1, X2. auto.
Qed.

Lemma synthesize_chunk_spec (total i : nat) (chunk : text) (s : store) :
  exists s',
    synthesize_chunk env audio_prompt total i chunk s = (Returned tt, s') /\
    audio_files s' = audio_files s
                     ++ (if chunk_ok env audio_prompt i chunk then [ChunkFile i] else []) /\
    In (ReplicateRun i chunk audio_prompt) (log s') /\
    continues s s'.
Proof.
  unfold synthesize_chunk, generate_audio_chunk, download_audio, chunk_ok,
    call, emit, append_audio_file, try_except, bind, modify, ret, raise, continues.
  destruct (replicate_run env i chunk audio_prompt) as [u | e]; cbn.
  - destruct (http_download env i u (ChunkFile i)) as [[] | e]; cbn.
    + destruct (Z.of_nat i <? Z.of_nat total - 1)%Z; cbn;
        (eexists; split; [reflexivity|]; cbn; split; [reflexivity|]; split;
         [rewrite !in_app_iff; simpl; tauto|]);
        eexists; rewrite <- !app_assoc; split; reflexivity.
    + eexists; split; [reflexivity|]; cbn. rewrite app_nil_r.
      split; [reflexivity|]; split; [rewrite !in_app_iff; simpl; tauto|].
      eexists; rewrite <- !app_assoc; split; reflexivity.
  - eexists; split; [reflexivity|]; cbn. rewrite app_nil_r.
    split; [reflexivity|]; split; [rewrite !in_app_iff; simpl; tauto|].
    eexists; rewrite <- !app_assoc; split; reflexivity.
Qed.

Lemma continues_In (s s' : store) (e : event) :
  continues s s' -> In e (log s) -> In e (log s').
Proof. intros [l [E _]] H. rewrite E, in_app_iff. auto. Qed.

Lemma synthesis_loop_spec (total : nat) (l : list text) :
  forall i s, exists s',
    synthesis_loop env audio_prompt total i l s = (Returned tt, s') /\
    audio_files s' = audio_files s ++ ok_files env audio_prompt i l /\
    (forall k c, nth_error l k = Some c ->
                 In (ReplicateRun (i + k) c audio_prompt) (log s')) /\
    continues s s'.
Proof.
  induction l as [|c l IH]; intros i s.
  - exists s. simpl. rewrite app_nil_r. repeat split; auto using continues_refl.
    intros [|k] c; discriminate.
  - destruct (synthesize_chunk_spec total i c s) as [s1 [E1 [A1 [R1 C1]]]].
    destruct (IH (S i) s1) as [s2 [E2 [A2 [R2 C2]]]].
    exists s2. cbn [synthesis_loop]. unfold bind at 1. rewrite E1, E2.
    split; [reflexivity|]. split; [|split].
    + rewrite A2, A1. cbn [ok_files]. rewrite app_assoc. reflexivity.
    + intros [|k] d Hk; simpl in Hk.
      * injection Hk as <-. rewrite Nat.add_0_r.
        exact (continues_In _ _ _ C2 R1).
      * replace (i + S k)%nat with (S i + k)%nat by lia. apply (R2 k d Hk).
    + exact (continues_trans _ _ _ C1 C2).
Qed.

Lemma ok_files_none (l : list text) :
  forall i,
    (forall k c, nth_error l k = Some c -> chunk_ok env audio_prompt (i + k) c = false) ->
    ok_files env audio_prompt i l = [].
Proof.
  induction l as [|c l IH]; intros i H; [reflexivity|].
  cbn [ok_files]. rewrite <- (Nat.add_0_r i) at 1.
  rewrite (H 0%nat c eq_refl). simpl. apply IH.
  intros k d Hk. replace (S i + k)%nat with (i + S k)%nat by lia.
  apply (H (S k) d Hk).
Qed.

End Loop.

(** * The chunker: statements *)

(** C3. For a positive limit, every chunk that [chunk_text] returns is at
    most [max_length] long, unless it is one sentence, itself longer than
    [max_length], of a paragraph that was split into sentences; that
    sentence is returned whole (stripped, not cut). *)
Theorem chunk_text_length_bound (text0 : text) (max_length : Z) :
  (0 < max_length)%Z ->
  Forall (fun c => (len c <= max_length)%Z \/
                   oversized_sentence text0 max_length c)
         (chunk_text text0 max_length).
Proof. intros H. exact (chunk_text_within text0 max_length H). Qed.

Lemma chunk_text_length_bound_witness :
  (0 < 3)%Z /\
  Forall (fun c => (len c <= 3)%Z \/ oversized_sentence (str "A. B. C.") 3 c)
         (chunk_text (str "A. B. C.") 3).
Proof.
  split; [reflexivity|].
  apply (chunk_text_length_bound (str "A. B. C.") 3). reflexivity.
Defined.

(** C4. For a positive limit, the chunks joined in the order returned,
    with a white space separator put back between consecutive chunks,
    have exactly the words of the input, in the input's order: nothing is
    lost, added, merged or moved; only white space differs. *)
Theorem chunk_text_lossless (text0 sep : text) (max_length : Z) :
  (0 < max_length)%Z ->
  sep <> [] -> blank sep = true ->
  words (join sep (chunk_text text0 max_length)) = words text0.
Proof.
  intros _ Hn Hb. rewrite words_join by assumption. apply chunk_text_words.
Qed.

Lemma chunk_text_lossless_witness :
  words (join para_sep
           (chunk_text (str "Hi." ++ para_sep ++ str "Aaaa.  Bbbb.") 10))
  = words (str "Hi." ++ para_sep ++ str "Aaaa.  Bbbb.").
Proof.
  apply (chunk_text_lossless (str "Hi." ++ para_sep ++ str "Aaaa.  Bbbb.")
           para_sep 10).
  - reflexivity.
  - discriminate.
  - reflexivity.
Defined.

(** C6. For a positive limit, every chunk returned is non-empty and has
    no white space at its start or its end. *)
Theorem chunk_text_chunks_clean (text0 : text) (max_length : Z) :
  (0 < max_length)%Z ->
  Forall (fun c => c <> [] /\ clean_edges c) (chunk_text text0 max_length).
Proof. intros _. apply chunk_text_good. Qed.

Lemma chunk_text_chunks_clean_witness :
  Forall (fun c => c <> [] /\ clean_edges c)
         (chunk_text ([SP; NL; NL; SP] ++ str "A. B. C. " ++ [NL; NL; NL]) 3).
Proof.
  apply (chunk_text_chunks_clean
           ([SP; NL; NL; SP] ++ str "A. B. C. " ++ [NL; NL; NL]) 3).
  reflexivity.
Defined.

(** C5. For a positive limit, [chunk_text] returns the empty sequence
    exactly when the input is empty or white space only. *)
Theorem chunk_text_empty_iff (text0 : text) (max_length : Z) :
  (0 < max_length)%Z ->
  (chunk_text text0 max_length = [] <-> blank text0 = true).
Proof.
  intros _. split; intros H.
  - apply words_nil. rewrite <- (chunk_text_words max_length text0), H. reflexivity.
  - pose proof (chunk_text_words max_length text0) as W.
    pose proof (chunk_text_good max_length text0) as G.
    rewrite (words_blank _ H) in W.
    destruct (chunk_text text0 max_length) as [|c cs]; [reflexivity|].
    exfalso. inversion G as [|? ? [Hc He] _]; subst.
    simpl in W. apply app_eq_nil in W as [W _].
    apply words_nil in W. rewrite (clean_nonblank _ Hc He) in W. discriminate.
Qed.

Lemma chunk_text_empty_iff_witness :
  chunk_text [SP; NL; NL; 9%N; NL] 5 = [] <-> blank [SP; NL; NL; 9%N; NL] = true.
Proof.
  apply (chunk_text_empty_iff [SP; NL; NL; 9%N; NL] 5). reflexivity.
Defined.

(** C2, as the code has it.  [chunk_text] does not look at the sign of
    [max_length]: with a limit of zero or less the call returns, and what
    it returns is every non-empty sentence of every paragraph as a chunk
    of its own, stripped. *)
Theorem chunk_text_nonpositive_limit (text0 : text) (max_length : Z) :
  (max_length <= 0)%Z ->
  call_chunk_text text0 max_length =
  Returned (List.map strip
              (filter truthy
                 (flat_map (fun para => sentences (strip para))
                           (Py.split para_sep text0)))).
Proof.
  intros H. unfold call_chunk_text, chunk_text. f_equal.
  rewrite (add_paragraphs_nolimit max_length H). reflexivity.
Qed.

Lemma chunk_text_nonpositive_limit_witness :
  call_chunk_text (str "One. Two." ++ para_sep ++ str "Three") (-1) =
  Returned (List.map strip
              (filter truthy
                 (flat_map (fun para => sentences (strip para))
                    (Py.split para_sep (str "One. Two." ++ para_sep ++ str "Three"))))).
Proof.
  apply (chunk_text_nonpositive_limit
           (str "One. Two." ++ para_sep ++ str "Three") (-1)).
  discriminate.
Defined.

(** C2 as stated fails: the call with limit 0 on the text "a" returns the
    chunk sequence ["a"], so the call does not fail exactly when
    [max_length <= 0]. *)
Lemma chunk_text_zero_limit_returns :
  call_chunk_text (str "a") 0 = Returned [str "a"] /\
  ~ (forall text0 max_length,
       (exists e, call_chunk_text text0 max_length = Raised e)
       <-> (max_length <= 0)%Z).
Proof.
  split; [reflexivity|].
  intros H. destruct (proj2 (H (str "a") 0%Z)) as [e He]; [lia|].
  discriminate He.
Qed.

(** ** The whole run *)

Section Whole.

Variable env : services.
Variable audio_prompt : option text.

Lemma unlink_all_log (fs : list path) :
  forall s e, In e (log s) -> In e (log (snd (unlink_all env fs s))).
Proof.
  induction fs as [|f fs IH]; intros s e H; [exact H|].
  cbn [unlink_all]. unfold bind, call, emit, modify, ret, raise. cbn.
  destruct (unlink env f) as [[]|x]; cbn.
  - apply IH. cbn. rewrite in_app_iff. auto.
  - rewrite in_app_iff. auto.
Qed.

(** After the loop: with no file the run raises; with files it exports
    them. *)
Lemma after_loop (s1 : store) :
  let k : M store path :=
    match audio_files s1 with
    | [] => raise (RuntimeError "No audio chunks were generated successfully")
    | _ :: _ =>
        (emit (Print "Concatenating audio files") ;;
         final_path <- concatenate_audio_files env (audio_files s1) OutputPath ;;
         unlink_all env (audio_files s1) ;;
         call (Rmdir TempDir) (rmdir env TempDir) ;;
         emit (Print "Audiobook saved") ;;
         ret final_path)%eff
    end in
  (audio_files s1 = [] ->
   k s1 = (Raised (RuntimeError "No audio chunks were generated successfully"), s1)) /\
  (audio_files s1 <> [] ->
   In (Export (audio_files s1) OutputPath) (log (snd (k s1)))).
Proof.
  intros k; subst k. split; intros H.
  - rewrite H. reflexivity.
  - destruct (audio_files s1) as [|f fs] eqn:E; [congruence|].
    unfold concatenate_audio_files, bind, call, emit, modify, ret, raise.
    cbn -[unlink_all In].
    destruct (pydub_export env (f :: fs) OutputPath) as [[]|x]; cbn -[unlink_all In].
    2: { rewrite !in_app_iff; simpl; tauto. }
    match goal with |- context [unlink_all env ?l ?s] =>
      pose proof (unlink_all_log l s (Export (f :: fs) OutputPath)) as U;
      destruct (unlink_all env l s) as [[[]|x] s2] end; cbn -[In] in U |- *.
    2: { apply U. rewrite !in_app_iff; simpl; tauto. }
    destruct (rmdir env TempDir) as [[]|x]; cbn -[In];
      rewrite !in_app_iff; left; try left; apply U;
      rewrite !in_app_iff; simpl; tauto.
Qed.

(** The run up to the end of the loop, when the steps before the loop
    return: the loop starts from an empty [audio_files] with nothing
    exported, and the test after the loop decides how the run ends. *)
Lemma generate_audiobook_run (use_agent : bool) (md tts : text) :
  read_text env MarkdownPath = Returned md ->
  (if use_agent then format_for_tts env md = Returned tts
   else tts = format_for_tts_simple env md) ->
  write_text env TtsTextPath tts = Returned tt ->
  mkdir env TempDir = Returned tt ->
  exists s0 s1,
    audio_files s0 = [] /\ existsb is_export (log s0) = false /\
    synthesis_loop env audio_prompt
      (List.length (chunk_text tts MAX_CHUNK_LENGTH)) 0
      (chunk_text tts MAX_CHUNK_LENGTH) s0 = (Returned tt, s1) /\
    (audio_files s1 = [] ->
     generate_audiobook env audio_prompt use_agent empty_store
     = (Raised (RuntimeError "No audio chunks were generated successfully"), s1)) /\
    (audio_files s1 <> [] ->
     In (Export (audio_files s1) OutputPath)
        (log (snd (generate_audiobook env audio_prompt use_agent empty_store)))).
Proof.
  intros Hr Hf Hw Hm.
  assert (Hf' : forall s,
            (if use_agent
             then call AgentFormat (format_for_tts env md)
             else ret (format_for_tts_simple env md)) s
            = (Returned tts,
               {| log := log s ++ (if use_agent then [AgentFormat] else []);
                  audio_files := audio_files s |})).
  { intros [l a]. destruct use_agent.
    - rewrite Hf. reflexivity.
    - subst tts. cbn. rewrite app_nil_r. reflexivity. }
  remember (generate_audiobook env audio_prompt use_agent empty_store) as g eqn:G.
  unfold generate_audiobook in G.
  unfold bind at 1 in G. cbn [emit modify empty_store log audio_files app] in G.
  unfold bind at 1 in G. unfold call at 1 in G. unfold bind at 1 in G.
  cbn [emit modify log audio_files app] in G. rewrite Hr in G. cbn [ret] in G.
  unfold bind at 1 in G. rewrite Hf' in G. cbn [log audio_files] in G.
  unfold bind at 1 in G. unfold call at 1 in G. unfold bind at 1 in G.
  cbn [emit modify log audio_files] in G. rewrite Hw in G. cbn [ret] in G.
  unfold bind at 1 in G. cbn [emit modify log audio_files] in G.
  unfold bind at 1 in G. cbn [emit modify log audio_files] in G.
  unfold bind at 1 in G. cbn [emit modify log audio_files] in G.
  unfold bind at 1 in G. unfold call at 1 in G. unfold bind at 1 in G.
  cbn [emit modify log audio_files] in G. rewrite Hm in G. cbn [ret] in G.
  unfold bind at 1 in G.
  match type of G with context [synthesis_loop _ _ _ _ _ ?s] => set (s0 := s) in G end.
  destruct (synthesis_loop_spec env audio_prompt
              (List.length (chunk_text tts MAX_CHUNK_LENGTH))
              (chunk_text tts MAX_CHUNK_LENGTH) 0 s0) as [s1 [E _]].
  exists s0, s1. rewrite E in G.
  split; [reflexivity|]. split.
  { subst s0. cbn [log]. destruct use_agent; reflexivity. }
  split; [exact E|].
  rewrite G. exact (after_loop s1).
Qed.

End Whole.

(** * The synthesis loop: statement *)

(** C9. (1) The loop over the chunks never raises: each chunk is tried,
    a chunk whose synthesis or download raises adds no file, and the
    files of the other chunks are collected in order.  (2) When the steps
    before the loop return and every chunk fails, the run raises
    [RuntimeError] and nothing is exported.  (3) When some chunk went
    through, exactly the collected files are handed to the export. *)
Theorem synthesis_failures_skipped (env : services) (audio_prompt : option text) :
  (forall (total i : nat) (chunks0 : list text) (s : store), exists s',
      synthesis_loop env audio_prompt total i chunks0 s = (Returned tt, s') /\
      audio_files s' = audio_files s ++ ok_files env audio_prompt i chunks0 /\
      (forall k c, nth_error chunks0 k = Some c ->
                   In (ReplicateRun (i + k) c audio_prompt) (log s'))) /\
  (forall (use_agent : bool) (md tts : text),
      read_text env MarkdownPath = Returned md ->
      (if use_agent then format_for_tts env md = Returned tts
       else tts = format_for_tts_simple env md) ->
      write_text env TtsTextPath tts = Returned tt ->
      mkdir env TempDir = Returned tt ->
      let chunks0 := chunk_text tts MAX_CHUNK_LENGTH in
      let run := generate_audiobook env audio_prompt use_agent empty_store in
      ((forall i c, nth_error chunks0 i = Some c ->
                    chunk_ok env audio_prompt i c = false) ->
       fst run = Raised (RuntimeError "No audio chunks were generated successfully")
       /\ existsb is_export (log (snd run)) = false) /\
      (ok_files env audio_prompt 0 chunks0 <> [] ->
       In (Export (ok_files env audio_prompt 0 chunks0) OutputPath)
          (log (snd run)))).
Proof.
  split.
  - intros total i chunks0 s.
    destruct (synthesis_loop_spec env audio_prompt total chunks0 i s)
      as [s' [E [A [R _]]]].
    exists s'. auto.
  - intros use_agent md tts Hr Hf Hw Hm chunks0 run.
    destruct (generate_audiobook_run env audio_prompt use_agent md tts Hr Hf Hw Hm)
      as [s0 [s1 [A0 [X0 [E [Hnone Hsome]]]]]].
    destruct (synthesis_loop_spec env audio_prompt (List.length chunks0) chunks0 0 s0)
      as [s1' [E' [A1 [_ [l [L X]]]]]].
    fold chunks0 in E. rewrite E in E'. injection E' as <-.
    rewrite A0 in A1. simpl in A1.
    split.
    + intros Hfail.
      assert (Z : audio_files s1 = []).
      { rewrite A1. apply ok_files_none. exact Hfail. }
      subst run. rewrite (Hnone Z). cbn [fst snd]. split; [reflexivity|].
      rewrite L, existsb_app, X0, X. reflexivity.
    + intros Hok. rewrite <- A1. apply Hsome. rewrite A1. exact Hok.
Qed.

Lemma synthesis_failures_skipped_witness :
  fst (generate_audiobook failing_service None false empty_store)
  = Raised (RuntimeError "No audio chunks were generated successfully")
  /\ existsb is_export
       (log (snd (generate_audiobook failing_service None false empty_store)))
     = false.
Proof.
  apply (proj1 (proj2 (synthesis_failures_skipped failing_service None)
                  false (str "One. Two.") (str "One. Two.")
                  eq_refl eq_refl eq_refl eq_refl)).
  intros i c _. reflexivity.
Defined.

(** * The normalizer *)

Lemma sub_no_match (fl : flags) (r : regex) (repl : found -> text) (t : text) :
  no_match fl r t = true -> Re.sub fl r repl t = t.
Proof.
  unfold no_match, Re.sub, Re.finditer. cbn [Re.finditer_go].
  destruct (Re.search fl r [] t); [discriminate | reflexivity].
Qed.



Section Fixed.

Variable unicode_word : char -> bool.
Variable unicode_digit : char -> bool.



End Fixed.

(** * The normalizer: statements *)

(** C1. On "Use the API via JSON-RPC." the pass does not give the
    compound expansion: the key JSON comes before JSON-RPC in the table,
    [\bJSON\b] matches in front of the hyphen, and the later JSON-RPC
    entry finds nothing left to match.  The result is
    "Use the A P I via Jason-RPC." and does not contain "Jason R P C". *)
Theorem json_rpc_expansion_lost (unicode_word unicode_digit : char -> bool) :
  expand_abbreviations unicode_word (str "Use the API via JSON-RPC.")
    = str "Use the A P I via Jason-RPC." /\
  markdown_to_text unicode_word unicode_digit (str "Use the API via JSON-RPC.")
    = str "Use the A P I via Jason-RPC." /\
  contains (str "Jason R P C")
    (markdown_to_text unicode_word unicode_digit (str "Use the API via JSON-RPC."))
    = false.
Proof. split; [|split]; vm_compute; reflexivity. Qed.

(** C8. A key made of word characters is replaced where it stands as a
    word and left alone inside an identifier ("API" against "APIKey2");
    but a key that ends in a dot is not replaced before a space, since
    [\b] after the dot asks for a word character there: "e.g. " and
    "vs. " stay, and "e.g." is expanded only when glued to a word. *)
Theorem dotted_abbreviations_not_expanded
        (unicode_word unicode_digit : char -> bool) :
  markdown_to_text unicode_word unicode_digit
      (str "See e.g. the API or APIKey2, a vs. b")
    = str "See e.g. the A P I or APIKey2, a vs. b" /\
  expand_abbreviations unicode_word (str "e.g. tools")
    = str "e.g. tools" /\
  expand_abbreviations unicode_word (str "e.g.tools")
    = str "for exampletools".
Proof. split; [|split]; vm_compute; reflexivity. Qed.




(** * Further properties of the chunker *)

Lemma strip_fixed (s : text) : clean_edges s -> strip s = s.
Proof.
  intros [Hh Hl]. unfold strip, rstrip.
  rewrite (lstrip_fixed s Hh), (lstrip_fixed (rev s) Hl).
  apply rev_involutive.
Qed.

Lemma strip_idem (s : text) : strip (strip s) = strip s.
Proof. apply strip_fixed, strip_clean. Qed.

Lemma add_paragraph_strip (max_length : Z) (a : acc) (para : text) :
  add_paragraph max_length a (strip para) = add_paragraph max_length a para.
Proof. unfold add_paragraph. rewrite strip_idem. reflexivity. Qed.

Lemma add_paragraph_blank (max_length : Z) (a : acc) (para : text) :
  truthy (strip para) = false -> add_paragraph max_length a para = a.
Proof. intros H. unfold add_paragraph. rewrite H. reflexivity. Qed.

(** The loop over the pieces of the split is the loop over the
    paragraphs of [paragraphs_of]. *)
Lemma fold_paragraphs (max_length : Z) (raws : list text) :
  forall a,
    fold_left (add_paragraph max_length) raws a
    = fold_left (add_paragraph max_length)
                (filter truthy (List.map strip raws)) a.
Proof.
  induction raws as [|r raws IH]; intros a; [reflexivity|].
  simpl. destruct (truthy (strip r)) eqn:E.
  - simpl. rewrite add_paragraph_strip. apply IH.
  - rewrite (add_paragraph_blank max_length a r E). apply IH.
Qed.

Lemma paragraphs_good (raws : list text) :
  Forall good_chunk (filter truthy (List.map strip raws)).
Proof.
  apply Forall_forall. intros p Hp. apply filter_In in Hp as [Hin Ht].
  apply in_map_iff in Hin as [r [<- _]].
  split; [apply truthy_true; exact Ht | apply strip_clean].
Qed.

Lemma good_app (a sep b : text) :
  good_chunk a -> good_chunk b -> good_chunk (a ++ sep ++ b).
Proof.
  intros [Na [Ha _]] [Nb [_ Hb]]. split.
  - destruct a; [congruence | discriminate].
  - split.
    + destruct a as [|c a]; [congruence|]. exact Ha.
    + rewrite !rev_app_distr, <- app_assoc.
      destruct (rev b) as [|c rb] eqn:E.
      * exfalso. apply Nb. rewrite <- (rev_involutive b), E. reflexivity.
      * exact Hb.
Qed.

Lemma join_snoc (sep p : text) (l : list text) :
  l <> [] -> join sep (l ++ [p]) = join sep l ++ sep ++ p.
Proof.
  induction l as [|q l IH]; [congruence|]. intros _.
  destruct l as [|r l].
  - reflexivity.
  - change ((q :: r :: l) ++ [p]) with (q :: (r :: l) ++ [p]).
    rewrite join_cons by (destruct l; discriminate).
    rewrite IH by discriminate.
    rewrite (join_cons sep q (r :: l)) by discriminate.
    rewrite <- !app_assoc. reflexivity.
Qed.

Lemma join_good (sep : text) (l : list text) :
  l <> [] -> Forall good_chunk l -> good_chunk (join sep l).
Proof.
  induction l as [|p l IH]; [congruence|]. intros _ H.
  inversion H as [|? ? Hp Hl]; subst.
  destruct l as [|q l]; [exact Hp|].
  rewrite join_cons by discriminate.
  apply good_app; [exact Hp | apply IH; [discriminate | exact Hl]].
Qed.

Lemma len_join_snoc_le (sep : text) (l1 l2 : list text) :
  (len (join sep l1) <= len (join sep (l1 ++ l2)))%Z.
Proof.
  revert l1. induction l2 as [|p l2 IH]; intros l1.
  - rewrite app_nil_r. lia.
  - replace (l1 ++ p :: l2) with ((l1 ++ [p]) ++ l2)
      by (rewrite <- app_assoc; reflexivity).
    specialize (IH (l1 ++ [p])).
    destruct l1 as [|q l1].
    + apply len_nonneg.
    + rewrite join_snoc in IH by discriminate.
      rewrite !len_app in IH.
      pose proof (len_nonneg sep). pose proof (len_nonneg p). lia.
Qed.

Lemma len_join_mid_le (sep p : text) (l1 l2 : list text) :
  (len p <= len (join sep (l1 ++ p :: l2)))%Z.
Proof.
  replace (l1 ++ p :: l2) with ((l1 ++ [p]) ++ l2)
    by (rewrite <- app_assoc; reflexivity).
  pose proof (len_join_snoc_le sep (l1 ++ [p]) l2) as H.
  destruct l1 as [|q l1].
  - simpl in H. exact H.
  - rewrite join_snoc in H by discriminate. rewrite !len_app in H.
    pose proof (len_nonneg (join sep (q :: l1))). pose proof (len_nonneg sep). lia.
Qed.

(** One turn of the paragraph loop on a paragraph that is stripped,
    not empty and within the limit. *)
Lemma add_paragraph_fitting (max_length : Z) (a : acc) (p : text) :
  good_chunk p -> (len p <= max_length)%Z ->
  add_paragraph max_length a p =
  if (len (current_chunk a) + len p + 2 <=? max_length)%Z
  then {| chunks := chunks a;
          current_chunk := if truthy (current_chunk a)
                           then current_chunk a ++ para_sep ++ p else p |}
  else {| chunks := flush a; current_chunk := p |}.
Proof.
  intros [Hn Hc] Hfit. unfold add_paragraph.
  rewrite (strip_fixed p Hc).
  destruct p as [|c p]; [congruence|]. cbn [truthy negb].
  destruct (Z.ltb_spec max_length (len (c :: p))); [lia | reflexivity].
Qed.

Lemma step_all_fit (max_length : Z) (a : acc) (done0 : list text) (p : text) :
  chunks a = [] -> current_chunk a = join para_sep done0 ->
  Forall good_chunk done0 -> good_chunk p ->
  (len (join para_sep (done0 ++ [p])) <= max_length)%Z ->
  add_paragraph max_length a p
  = {| chunks := []; current_chunk := join para_sep (done0 ++ [p]) |}.
Proof.
  intros Hc Hcur Hd Hp Hlen.
  assert (Hfit : (len p <= max_length)%Z).
  { pose proof (len_join_mid_le para_sep p done0 []). lia. }
  rewrite (add_paragraph_fitting max_length a p Hp Hfit).
  destruct done0 as [|q done0].
  - simpl in Hcur. rewrite Hcur. cbn [truthy app join].
    unfold flush. rewrite Hc, Hcur. cbn [truthy].
    destruct (_ <=? _)%Z; reflexivity.
  - assert (G : good_chunk (join para_sep (q :: done0)))
      by (apply join_good; [discriminate | exact Hd]).
    rewrite join_snoc in * by discriminate.
    rewrite !len_app in Hlen. change (len para_sep) with 2%Z in Hlen.
    rewrite Hcur.
    destruct (Z.leb_spec (len (join para_sep (q :: done0)) + len p + 2) max_length);
      [|lia].
    rewrite Hc. destruct G as [G _].
    destruct (join para_sep (q :: done0)); [congruence | reflexivity].
Qed.

Lemma fold_all_fit (max_length : Z) (ps : list text) :
  forall done0 a,
    chunks a = [] -> current_chunk a = join para_sep done0 ->
    Forall good_chunk done0 -> Forall good_chunk ps ->
    (len (join para_sep (done0 ++ ps)) <= max_length)%Z ->
    fold_left (add_paragraph max_length) ps a
    = {| chunks := []; current_chunk := join para_sep (done0 ++ ps) |}.
Proof.
  induction ps as [|p ps IH]; intros done0 a Hc Hcur Hd Hps Hlen.
  - rewrite app_nil_r. destruct a as [ch cu]. simpl in *. subst. reflexivity.
  - inversion Hps as [|? ? Hp Hps']; subst. simpl fold_left.
    replace (done0 ++ p :: ps) with ((done0 ++ [p]) ++ ps) in *
      by (rewrite <- app_assoc; reflexivity).
    assert (Hstep : (len (join para_sep (done0 ++ [p])) <= max_length)%Z).
    { pose proof (len_join_snoc_le para_sep (done0 ++ [p]) ps). lia. }
    rewrite (step_all_fit max_length a done0 p Hc Hcur Hd Hp Hstep).
    apply IH; try reflexivity; try assumption.
    apply Forall_app. split; [exact Hd | constructor; [exact Hp | constructor]].
Qed.

(** X1. When the non-blank paragraphs of the text, stripped and joined
    by blank lines, fit in the limit together, [chunk_text] returns that
    joined text as its only chunk; when the text has no non-blank
    paragraph (it is empty or blank) the joined text is empty and
    [chunk_text] returns no chunk at all. *)
Theorem chunk_text_single_chunk (text0 : text) (max_length : Z) :
  (len (join para_sep (paragraphs_of text0)) <= max_length)%Z ->
  chunk_text text0 max_length
  = match paragraphs_of text0 with
    | [] => []
    | _ :: _ => [join para_sep (paragraphs_of text0)]
    end.
Proof.
  intros Hlen. unfold chunk_text. rewrite fold_paragraphs.
  fold (paragraphs_of text0).
  destruct (paragraphs_of text0) as [|p ps] eqn:E; [reflexivity|].
  assert (Hne : p :: ps <> []) by discriminate.
  assert (Hg : Forall good_chunk (p :: ps))
    by (rewrite <- E; apply paragraphs_good).
  rewrite (fold_all_fit max_length (p :: ps) []
             {| chunks := []; current_chunk := [] |}
             eq_refl eq_refl (Forall_nil _) Hg Hlen).
  cbn [app]. unfold flush. cbn [chunks current_chunk].
  assert (G : good_chunk (join para_sep (p :: ps)))
    by (apply join_good; [exact Hne | exact Hg]).
  destruct G as [Gn Gc]. rewrite (strip_fixed _ Gc).
  destruct (join para_sep (p :: ps)); [congruence | reflexivity].
Qed.

Lemma chunk_text_single_chunk_witness :
  chunk_text (str "Hi." ++ para_sep ++ str "  Yo. ") 20
  = [str "Hi." ++ para_sep ++ str "Yo."]
  /\ chunk_text (str " " ++ para_sep ++ str "  ") 20 = [].
Proof.
  split.
  - apply (chunk_text_single_chunk (str "Hi." ++ para_sep ++ str "  Yo. ") 20).
    vm_compute. discriminate.
  - apply (chunk_text_single_chunk (str " " ++ para_sep ++ str "  ") 20).
    vm_compute. discriminate.
Defined.

Lemma boundaries_snoc_grow (max_length : Z) (cur : list text) (p : text) :
  cur <> [] ->
  forall gs, boundaries_forced max_length (gs ++ [cur]) ->
             boundaries_forced max_length (gs ++ [cur ++ [p]]).
Proof.
  intros Hc. induction gs as [|g gs IH]; intros H.
  - simpl. auto.
  - simpl in H |- *. destruct H as [H1 H2]. split; [|apply IH; exact H2].
    destruct gs as [|h gs]; simpl in *.
    + destruct cur as [|q cur]; [congruence|]. exact H1.
    + exact H1.
Qed.

Lemma boundaries_snoc_new (max_length : Z) (cur : list text) (p : text) :
  (max_length < len (join para_sep cur) + len p + 2)%Z ->
  forall gs, boundaries_forced max_length (gs ++ [cur]) ->
             boundaries_forced max_length ((gs ++ [cur]) ++ [[p]]).
Proof.
  intros Hc. induction gs as [|g gs IH]; intros H.
  - simpl. auto.
  - simpl in H |- *. destruct H as [H1 H2]. split; [|apply IH; exact H2].
    destruct gs as [|h gs]; simpl in *; exact H1.
Qed.

Lemma packed_step (max_length : Z) (a : acc) (all : list text) (p : text) :
  packed max_length a all -> Forall good_chunk all ->
  good_chunk p -> (len p <= max_length)%Z ->
  packed max_length (add_paragraph max_length a p) (all ++ [p]).
Proof.
  intros [gs [cur [Hch [Hcu [Hne [Hz [Hall Hb]]]]]]] Hgood Hp Hfit.
  rewrite (add_paragraph_fitting max_length a p Hp Hfit).
  assert (Hcur_good : Forall good_chunk cur).
  { rewrite <- Hall in Hgood. apply Forall_app in Hgood. tauto. }
  destruct cur as [|q cur].
  - (* nothing in the buffer, hence no chunk yet *)
    rewrite (Hz eq_refl) in *. simpl in Hcu, Hch, Hall. subst all.
    exists [], [p]. unfold flush. rewrite Hcu, Hch. cbn [truthy].
    destruct (_ <=? _)%Z; cbn [chunks current_chunk];
      (split; [reflexivity|]; split; [reflexivity|]; split; [constructor|];
       split; [discriminate|]; split; [reflexivity | simpl; auto]).
  - assert (G : good_chunk (join para_sep (q :: cur)))
      by (apply join_good; [discriminate | exact Hcur_good]).
    assert (T : truthy (current_chunk a) = true).
    { rewrite Hcu. apply truthy_true. exact (proj1 G). }
    destruct (Z.leb_spec (len (current_chunk a) + len p + 2) max_length) as [L | L].
    + exists gs, ((q :: cur) ++ [p]). cbn [chunks current_chunk]. rewrite T.
      split; [exact Hch|]. split.
      { rewrite join_snoc by discriminate. rewrite Hcu. reflexivity. }
      split; [exact Hne|]. split; [discriminate|]. split.
      { rewrite app_assoc, Hall. reflexivity. }
      simpl open_group in Hb |- *.
      exact (boundaries_snoc_grow max_length (q :: cur) p ltac:(discriminate) gs Hb).
    + exists (gs ++ [q :: cur]), [p]. cbn [chunks current_chunk].
      unfold flush. rewrite T, Hch, Hcu, (strip_fixed _ (proj2 G)).
      split; [rewrite map_app; reflexivity|]. split; [reflexivity|].
      split; [apply Forall_app; split; [exact Hne | constructor; [discriminate | constructor]]|].
      split; [discriminate|]. split.
      { rewrite concat_app. simpl. rewrite app_nil_r, <- Hall. reflexivity. }
      simpl open_group in Hb |- *.
      apply (boundaries_snoc_new max_length (q :: cur) p); [rewrite <- Hcu; lia | exact Hb].
Qed.

Lemma packed_fold (max_length : Z) (ps : list text) :
  forall a all,
    packed max_length a all -> Forall good_chunk all ->
    Forall good_chunk ps -> Forall (fun p => (len p <= max_length)%Z) ps ->
    packed max_length (fold_left (add_paragraph max_length) ps a) (all ++ ps).
Proof.
  induction ps as [|p ps IH]; intros a all Hpk Hall Hps Hfit.
  - rewrite app_nil_r. exact Hpk.
  - inversion Hps; subst. inversion Hfit; subst. simpl fold_left.
    replace (all ++ p :: ps) with ((all ++ [p]) ++ ps)
      by (rewrite <- app_assoc; reflexivity).
    apply IH; try assumption.
    + apply packed_step; assumption.
    + apply Forall_app. split; [assumption | constructor; [assumption | constructor]].
Qed.

(** X2. When no paragraph is longer than the limit, no paragraph is
    split: the chunks are the paragraphs, in order, cut into consecutive
    non-empty groups, each group joined by blank lines; and a group ends
    only where the next paragraph would not fit after it. *)
Theorem paragraphs_never_split (text0 : text) (max_length : Z) :
  Forall (fun p => (len p <= max_length)%Z) (paragraphs_of text0) ->
  exists groups,
    List.concat groups = paragraphs_of text0 /\
    Forall (fun g => g <> []) groups /\
    chunk_text text0 max_length = List.map (join para_sep) groups /\
    boundaries_forced max_length groups.
Proof.
  intros Hfit. unfold chunk_text. rewrite fold_paragraphs.
  fold (paragraphs_of text0).
  assert (P0 : packed max_length {| chunks := []; current_chunk := [] |} []).
  { exists [], []. simpl. repeat split; auto. }
  pose proof (packed_fold max_length (paragraphs_of text0) _ [] P0
                (Forall_nil _) (paragraphs_good _) Hfit) as H.
  cbn [app] in H.
  pose proof (paragraphs_good (Py.split para_sep text0)) as Hgood.
  fold (paragraphs_of text0) in Hgood.
  destruct H as [gs [cur [Hch [Hcu [Hne [Hz [Hall Hb]]]]]]].
  exists (gs ++ open_group cur). unfold flush. rewrite Hch, Hcu.
  destruct cur as [|q cur].
  - simpl. rewrite !app_nil_r in *. auto.
  - assert (G : good_chunk (join para_sep (q :: cur))).
    { apply join_good; [discriminate|]. rewrite <- Hall in Hgood.
      apply Forall_app in Hgood. tauto. }
    assert (T : truthy (join para_sep (q :: cur)) = true)
      by (apply truthy_true; exact (proj1 G)).
    rewrite T, (strip_fixed _ (proj2 G)). cbn [open_group].
    split; [rewrite concat_app; simpl; rewrite app_nil_r; exact Hall|].
    split; [apply Forall_app; split; [exact Hne | constructor; [discriminate | constructor]]|].
    split; [rewrite map_app; reflexivity | exact Hb].
Qed.

Lemma paragraphs_never_split_witness :
  exists groups,
    List.concat groups
      = paragraphs_of (str "aaaa" ++ para_sep ++ str "bbbb" ++ para_sep ++ str "cc") /\
    Forall (fun g => g <> []) groups /\
    chunk_text (str "aaaa" ++ para_sep ++ str "bbbb" ++ para_sep ++ str "cc") 10
      = List.map (join para_sep) groups /\
    boundaries_forced 10 groups.
Proof.
  apply (paragraphs_never_split
           (str "aaaa" ++ para_sep ++ str "bbbb" ++ para_sep ++ str "cc") 10).
  assert (E : paragraphs_of
                (str "aaaa" ++ para_sep ++ str "bbbb" ++ para_sep ++ str "cc")
              = [str "aaaa"; str "bbbb"; str "cc"]) by (vm_compute; reflexivity).
  rewrite E. repeat constructor; vm_compute; discriminate.
Defined.

Lemma length_le_concat_words (l : list text) :
  Forall good_chunk l ->
  (List.length l <= List.length (List.concat (List.map words l)))%nat.
Proof.
  induction l as [|c l IH]; intros H; [simpl; lia|].
  inversion H as [|? ? [Hn Hc] Hl]; subst. simpl.
  rewrite length_app. specialize (IH Hl).
  assert (words c <> []).
  { intros W. apply words_nil in W. rewrite (clean_nonblank c Hn Hc) in W. discriminate. }
  destruct (words c); [congruence|]. simpl. lia.
Qed.

(** X3. For any limit, there are never more chunks than the text has
    words: each chunk holds at least one word of the text. *)
Theorem chunk_count_at_most_words (text0 : text) (max_length : Z) :
  (List.length (chunk_text text0 max_length) <= List.length (words text0))%nat.
Proof.
  rewrite <- (chunk_text_words max_length text0).
  apply length_le_concat_words, chunk_text_good.
Qed.

(** * Further properties of the sentence split *)

Lemma hd_rev_blank (w : text) (c : char) :
  blank w = true -> hd_error (rev w) = Some c -> isspace c = true.
Proof.
  intros B H. rewrite <- blank_rev in B.
  destruct (rev w) as [|d r]; [discriminate|].
  simpl in H, B. injection H as ->. apply andb_prop in B. tauto.
Qed.

Lemma hd_error_app (a b : text) :
  a <> [] -> hd_error (a ++ b) = hd_error a.
Proof. destruct a; [congruence | reflexivity]. Qed.

Lemma sentences_go_marked (fuel : nat) :
  forall p s, (List.length s < fuel)%nat ->
  (forall c, hd_error p = Some c -> terminator c = false) ->
  let res := Re.finditer_go no_flags fuel sentence_end p s [] in
  Forall (fun x => x <> [] /\ ends_marked x) (List.map skipped (fst res)) /\
  (starts_solid s ->
   Forall starts_solid (List.map skipped (fst res)) /\ last_piece s (snd res)).
Proof.
  induction fuel as [|fuel IH]; intros p s Hlen Hp; [lia|].
  cbn [Re.finditer_go].
  destruct (Re.search no_flags sentence_end p s) as [[st0 st1]|] eqn:Hsr.
  - destruct (search_spec _ _ _ _ _ _ Hsr) as [a [E [P M]]].
    destruct (match_sentence_end _ _ _ M) as [t [p' [w [P0 [Ht [Hw [Bw [Er [P1 R1]]]]]]]]].
    destruct st0 as [p0 r0 c0], st1 as [p1 r1 c1]. cbn [pre rest caps] in *.
    subst p0 p1 r1. unfold start_at.
    rewrite !consumed_app. cbn [whole skipped rev app].
    destruct w as [|c w]; [congruence|].
    assert (Hl : (List.length (lstrip r0) < fuel)%nat).
    { rewrite E, Er, !length_app in Hlen. simpl in Hlen. lia. }
    assert (Hp' : forall d, hd_error (rev (c :: w) ++ rev a ++ p) = Some d ->
                            terminator d = false).
    { intros d Hd. rewrite hd_error_app in Hd.
      - pose proof (hd_rev_blank (c :: w) d Bw Hd) as Sd.
        destruct (terminator d) eqn:Td; [|reflexivity].
        rewrite (terminator_not_space d Td) in Sd. discriminate.
      - intros N. apply (f_equal (@List.length char)) in N.
        rewrite length_rev in N. discriminate. }
    specialize (IH (rev (c :: w) ++ rev a ++ p) (lstrip r0) Hl Hp').
    destruct (Re.finditer_go no_flags fuel sentence_end
                (rev (c :: w) ++ rev a ++ p) (lstrip r0) []) as [fs tl].
    cbn [fst snd List.map skipped] in *.
    destruct IH as [IHe IHs].
    destruct (IHs (lstrip_hd r0)) as [IHf [IHt [a' [Ea' Ha']]]].
    assert (Na : a <> []).
    { intros ->. simpl in P0. rewrite P0 in Hp.
      rewrite (Hp t eq_refl) in Ht. discriminate. }
    split.
    + constructor; [|exact IHe]. split; [exact Na|].
      exists t. split; [|exact Ht].
      destruct (rev a) as [|x ra] eqn:Ra.
      { exfalso. apply Na. rewrite <- (rev_involutive a), Ra. reflexivity. }
      simpl in P0. injection P0 as -> _. reflexivity.
    + intros Hs. split.
      * constructor; [|exact IHf].
        intros d Hd. apply Hs. rewrite E, hd_error_app by exact Na. exact Hd.
      * split; [exact IHt|].
        exists (a ++ (c :: w) ++ a'). split.
        { rewrite E, Er at 1. rewrite Ea' at 1. rewrite <- !app_assoc. reflexivity. }
        intros Z. right. destruct (Ha' Z) as [-> | [d [Hd Sd]]].
        { rewrite app_nil_r, rev_app_distr.
          destruct (rev (c :: w)) as [|x rw] eqn:Rw.
          - apply (f_equal (@List.length char)) in Rw.
            rewrite length_rev in Rw. discriminate.
          - exists x. split; [reflexivity|].
            apply (hd_rev_blank (c :: w)); [exact Bw | rewrite Rw; reflexivity]. }
        { exists d. split; [|exact Sd].
          rewrite !rev_app_distr, <- !app_assoc.
          destruct (rev a') as [|x ra']; [discriminate|]. exact Hd. }
  - cbn [fst snd List.map rev app]. split; [constructor|].
    intros Hs. split; [constructor|].
    split; [exact Hs|]. exists []. split; [reflexivity|]. auto.
Qed.

Lemma removelast_app_one {A : Type} (l : list A) (x : A) :
  removelast (l ++ [x]) = l.
Proof. rewrite removelast_app by discriminate. simpl. apply app_nil_r. Qed.

(** X4. Of the sentences cut out of a paragraph, every one but the last
    is non-empty and ends with a full stop, an exclamation mark or a
    question mark. *)
Theorem sentences_end_marked (s : text) :
  Forall (fun x => x <> [] /\ ends_marked x) (removelast (sentences s)).
Proof.
  unfold sentences, Re.split, Re.finditer.
  assert (Hp0 : forall c, hd_error (@nil char) = Some c -> terminator c = false)
    by (intros c H; discriminate H).
  pose proof (sentences_go_marked (S (List.length s)) [] s
                (Nat.lt_succ_diag_r _) Hp0) as H.
  destruct (Re.finditer_go no_flags (S (List.length s)) sentence_end [] s [])
    as [fs tl]. cbn [fst snd] in H.
  rewrite removelast_app_one. exact (proj1 H).
Qed.

Lemma sentences_good (p : text) :
  p <> [] -> clean_edges p -> Forall good_chunk (sentences p).
Proof.
  intros Hn [Hh Hl].
  unfold sentences, Re.split, Re.finditer.
  assert (Hp0 : forall c, hd_error (@nil char) = Some c -> terminator c = false)
    by (intros c H; discriminate H).
  pose proof (sentences_go_marked (S (List.length p)) [] p
                (Nat.lt_succ_diag_r _) Hp0) as H.
  destruct (Re.finditer_go no_flags (S (List.length p)) sentence_end [] p [])
    as [fs tl]. cbn [fst snd] in H. destruct H as [He Hs].
  destruct (Hs Hh) as [Hf [Ht [a [Ea Ha]]]].
  apply Forall_app. split.
  - apply Forall_forall. intros x Hx.
    rewrite Forall_forall in He, Hf.
    destruct (He x Hx) as [Nx [t [Et Tt]]].
    split; [exact Nx|]. split; [exact (Hf x Hx)|].
    intros c Hc. rewrite Et in Hc. injection Hc as <-.
    apply terminator_not_space. exact Tt.
  - constructor; [|constructor].
    assert (Nt : tl <> []).
    { intros Z. destruct (Ha Z) as [-> | [c [Hc Sc]]].
      - subst tl. simpl in Ea. congruence.
      - subst tl. rewrite app_nil_r in Ea. subst a.
        rewrite (Hl c Hc) in Sc. discriminate. }
    split; [exact Nt|]. split; [exact Ht|].
    intros c Hc. apply Hl. rewrite Ea, rev_app_distr, hd_error_app; [exact Hc|].
    intros N. apply Nt. rewrite <- (rev_involutive tl), N. reflexivity.
Qed.

(** X5. The sentences cut out of a paragraph that is not empty and has
    no white space at its ends are none of them empty and have no white
    space at their ends either: stripping them changes nothing. *)
Theorem sentences_of_clean_paragraph (p : text) :
  p <> [] -> clean_edges p ->
  Forall (fun x => x <> [] /\ clean_edges x /\ strip x = x) (sentences p).
Proof.
  intros Hn Hc. pose proof (sentences_good p Hn Hc) as G.
  apply Forall_forall. intros x Hx. rewrite Forall_forall in G.
  destruct (G x Hx) as [Nx Cx]. split; [exact Nx|]. split; [exact Cx|].
  apply strip_fixed. exact Cx.
Qed.

Lemma sentences_of_clean_paragraph_witness :
  Forall (fun x => x <> [] /\ clean_edges x /\ strip x = x)
         (sentences (str "One.  Two! Three")).
Proof.
  apply (sentences_of_clean_paragraph (str "One.  Two! Three")).
  - discriminate.
  - split; intros c H; vm_compute in H; injection H as <-; reflexivity.
Defined.

(** * An over-long paragraph after a filled buffer *)

Lemma flush_extends (a : acc) : exists tl, flush a = chunks a ++ tl.
Proof.
  unfold flush. destruct (truthy (current_chunk a)).
  - eexists. reflexivity.
  - exists []. rewrite app_nil_r. reflexivity.
Qed.

Lemma carries_flush (cs : list text) (c : text) (a : acc) (x : text) :
  c <> [] -> carries cs c a ->
  carries cs c {| chunks := flush a; current_chunk := x |}.
Proof.
  intros Hc [[Hcs [more Hm]] | [more [rest0 Hr]]]; right.
  - exists more, []. cbn [chunks]. unfold flush. rewrite Hcs, Hm.
    destruct (c ++ more) eqn:E; [|reflexivity].
    apply app_eq_nil in E. tauto.
  - destruct (flush_extends a) as [tl Htl]. exists more, (rest0 ++ tl).
    cbn [chunks]. rewrite Htl, Hr, <- app_assoc. reflexivity.
Qed.

Lemma carries_grow (cs : list text) (c : text) (a : acc) (sep x : text) :
  c <> [] -> carries cs c a ->
  carries cs c {| chunks := chunks a;
                  current_chunk := if truthy (current_chunk a)
                                   then current_chunk a ++ sep ++ x
                                   else x |}.
Proof.
  intros Hc [[Hcs [more Hm]] | [more [rest0 Hr]]].
  - left. cbn [chunks current_chunk]. split; [exact Hcs|].
    exists (more ++ sep ++ x). rewrite Hm.
    assert (T : truthy (c ++ more) = true).
    { apply truthy_true. intros E. apply app_eq_nil in E. tauto. }
    rewrite T, <- app_assoc. reflexivity.
  - right. exists more, rest0. exact Hr.
Qed.

Lemma add_sentence_carries (max_length : Z) (cs : list text) (c : text)
      (a : acc) (s : text) :
  c <> [] -> carries cs c a -> carries cs c (add_sentence max_length a s).
Proof.
  intros Hc H. unfold add_sentence.
  destruct (_ <=? _)%Z; [apply carries_grow | apply carries_flush]; assumption.
Qed.

Lemma add_sentences_carries (max_length : Z) (cs : list text) (c : text)
      (ss : list text) :
  c <> [] ->
  forall a, carries cs c a ->
            carries cs c (fold_left (add_sentence max_length) ss a).
Proof.
  intros Hc. induction ss as [|s ss IH]; intros a H; [exact H|].
  cbn [fold_left]. apply IH, add_sentence_carries; assumption.
Qed.

Lemma add_paragraph_carries (max_length : Z) (cs : list text) (c : text)
      (a : acc) (para : text) :
  c <> [] -> carries cs c a -> carries cs c (add_paragraph max_length a para).
Proof.
  intros Hc H. unfold add_paragraph.
  destruct (negb (truthy (strip para))); [exact H|].
  destruct (_ <? _)%Z; [apply add_sentences_carries; assumption|].
  destruct (_ <=? _)%Z; [apply carries_grow | apply carries_flush]; assumption.
Qed.

Lemma add_paragraphs_carries (max_length : Z) (cs : list text) (c : text)
      (ps : list text) :
  c <> [] ->
  forall a, carries cs c a ->
            carries cs c (fold_left (add_paragraph max_length) ps a).
Proof.
  intros Hc. induction ps as [|p ps IH]; intros a H; [exact H|].
  cbn [fold_left]. apply IH, add_paragraph_carries; assumption.
Qed.

(** What the buffer [c] becomes in the chunks that are returned. *)
Lemma flush_carries (cs : list text) (c : text) (a : acc) :
  c <> [] -> carries cs c a ->
  exists more rest0, flush a = cs ++ strip (c ++ more) :: rest0.
Proof.
  intros Hc H.
  pose proof (carries_flush cs c a [] Hc H) as [[_ [more Hm]] | R].
  - cbn [current_chunk] in Hm. symmetry in Hm.
    apply app_eq_nil in Hm. tauto.
  - exact R.
Qed.

(** C10, as the code has it.  The buffer holds text and the next
    paragraph is longer than the limit.  The paragraph branch does not
    flush the buffer; the sentence loop decides.  When the first sentence
    of the paragraph fits after the buffer and one space, the chunk that
    is returned next starts with the buffer, one space and that
    sentence: it spans the paragraph break, which is kept as one space.
    When it does not fit, the buffer is returned as a chunk of its own
    and the next chunk begins with the sentence. *)
Theorem oversized_paragraph_after_buffer
        (text0 : text) (max_length : Z) (ps qs : list text)
        (para s : text) (ss : list text) :
  Py.split para_sep text0 = ps ++ para :: qs ->
  truthy (current_chunk (state_after max_length ps)) = true ->
  truthy (strip para) = true ->
  (max_length < len (strip para))%Z ->
  sentences (strip para) = s :: ss ->
  let a := state_after max_length ps in
  exists more rest0,
    chunk_text text0 max_length
    = chunks a ++
      (if (len (current_chunk a) + len s + 1 <=? max_length)%Z
       then strip (current_chunk a ++ [SP] ++ s ++ more) :: rest0
       else strip (current_chunk a) :: strip (s ++ more) :: rest0).
Proof.
  intros Hsplit Hb Hp Hlong Hs. cbv zeta.
  unfold chunk_text. rewrite Hsplit, fold_left_app. cbn [fold_left].
  fold (state_after max_length ps).
  set (a := state_after max_length ps) in *.
  assert (Ns : s <> []).
  { assert (G : Forall good_chunk (sentences (strip para)))
      by (apply sentences_good; [apply truthy_true; exact Hp | apply strip_clean]).
    rewrite Hs in G. inversion G as [|? ? [N _] _]. exact N. }
  assert (Nb : current_chunk a <> []) by (apply truthy_true; exact Hb).
  unfold add_paragraph at 2. rewrite Hp. cbn [negb].
  apply Z.ltb_lt in Hlong. rewrite Hlong, Hs. cbn [fold_left].
  unfold add_sentence at 2.
  destruct (len (current_chunk a) + len s + 1 <=? max_length)%Z.
  - rewrite Hb.
    assert (C : carries (chunks a) (current_chunk a ++ [SP] ++ s)
                  {| chunks := chunks a;
                     current_chunk := current_chunk a ++ [SP] ++ s |}).
    { left. split; [reflexivity|]. exists []. rewrite app_nil_r. reflexivity. }
    assert (N : current_chunk a ++ [SP] ++ s <> []).
    { intros E. apply app_eq_nil in E. tauto. }
    apply (add_sentences_carries max_length _ _ ss N) in C.
    apply (add_paragraphs_carries max_length _ _ qs N) in C.
    destruct (flush_carries _ _ _ N C) as [more [rest0 E]].
    exists more, rest0. rewrite E, <- !app_assoc. reflexivity.
  - assert (C : carries (flush a) s {| chunks := flush a; current_chunk := s |}).
    { left. split; [reflexivity|]. exists []. rewrite app_nil_r. reflexivity. }
    apply (add_sentences_carries max_length _ _ ss Ns) in C.
    apply (add_paragraphs_carries max_length _ _ qs Ns) in C.
    destruct (flush_carries _ _ _ Ns C) as [more [rest0 E]].
    exists more, rest0. rewrite E. unfold flush at 1. rewrite Hb.
    rewrite <- app_assoc. reflexivity.
Qed.

Lemma oversized_paragraph_after_buffer_witness :
  exists more rest0,
    chunk_text (str "Hi." ++ para_sep ++ str "Aaaa. Bbbb.") 10
    = [] ++ strip (str "Hi." ++ [SP] ++ str "Aaaa." ++ more) :: rest0.
Proof.
  apply (oversized_paragraph_after_buffer
           (str "Hi." ++ para_sep ++ str "Aaaa. Bbbb.") 10
           [str "Hi."] [] (str "Aaaa. Bbbb.") (str "Aaaa.") [str "Bbbb."]).
  - reflexivity.
  - reflexivity.
  - reflexivity.
  - reflexivity.
  - reflexivity.
Defined.

(** The two runs: within the limit 10 the sentence "Aaaa." joins the
    buffer "Hi." and the chunk "Hi. Aaaa." holds the end of one paragraph
    and the start of the next; the sentence "Aaaaaaaaaaaa." does not, and
    the buffer comes out alone. *)
Example chunk_spans_paragraph_break :
  chunk_text (str "Hi." ++ para_sep ++ str "Aaaa. Bbbb.") 10
  = [str "Hi. Aaaa."; str "Bbbb."].
Proof. reflexivity. Qed.

(** C10 as stated fails: with the buffer "Hi." and the over-long
    paragraph "Aaaaaaaaaaaa. B." under the limit 10, the first sentence
    does not fit after the buffer, the buffer is flushed before it, and
    no returned chunk spans the paragraph break. *)
Lemma oversized_paragraph_may_flush_buffer :
  chunk_text (str "Hi." ++ para_sep ++ str "Aaaaaaaaaaaa. B.") 10
  = [str "Hi."; str "Aaaaaaaaaaaa."; str "B."] /\
  ~ (forall (text0 : text) (max_length : Z) (ps qs : list text)
            (para s : text) (ss : list text),
       Py.split para_sep text0 = ps ++ para :: qs ->
       truthy (current_chunk (state_after max_length ps)) = true ->
       truthy (strip para) = true ->
       (max_length < len (strip para))%Z ->
       sentences (strip para) = s :: ss ->
       exists more rest0,
         chunk_text text0 max_length
         = chunks (state_after max_length ps)
           ++ strip (current_chunk (state_after max_length ps)
                     ++ [SP] ++ s ++ more) :: rest0).
Proof.
  split; [reflexivity|]. intros H.
  destruct (H (str "Hi." ++ para_sep ++ str "Aaaaaaaaaaaa. B.") 10%Z
              [str "Hi."] [] (str "Aaaaaaaaaaaa. B.") (str "Aaaaaaaaaaaa.")
              [str "B."] eq_refl eq_refl eq_refl eq_refl eq_refl)
    as [more [rest0 E]].
  change (chunk_text (str "Hi." ++ para_sep ++ str "Aaaaaaaaaaaa. B.") 10)
    with [str "Hi."; str "Aaaaaaaaaaaa."; str "B."] in E.
  change (chunks (state_after 10 [str "Hi."])) with (@nil text) in E.
  change (current_chunk (state_after 10 [str "Hi."])) with (str "Hi.") in E.
  set (x := str "Hi." ++ [SP] ++ str "Aaaaaaaaaaaa." ++ more) in E.
  change ([] ++ strip x :: rest0) with (strip x :: rest0) in E.
  injection E as E _.
  destruct (strip_split x) as [w1 [w2 [S [B1 B2]]]].
  rewrite <- E in S. subst x.
  destruct w1 as [|c w1].
  - cbn in S. injection S as S. rewrite <- S in B2. cbn in B2. discriminate B2.
  - cbn in S. injection S as <- _. cbn in B1. discriminate B1.
Qed.

(** * Further properties of [generate_audiobook] *)

Section Trace.

Variable env : services.
Variable audio_prompt : option text.

Lemma synthesize_chunk_trace (total i : nat) (chunk : text) (s : store) :
  synthesize_chunk env audio_prompt total i chunk s
  = (Returned tt,
     {| log := log s ++ chunk_events env audio_prompt total i chunk;
        audio_files := audio_files s
                       ++ (if chunk_ok env audio_prompt i chunk
                           then [ChunkFile i] else []) |}).
Proof.
  unfold synthesize_chunk, generate_audio_chunk, download_audio, chunk_ok,
    chunk_events, call, emit, append_audio_file, try_except, bind, modify,
    ret, raise.
  destruct (replicate_run env i chunk audio_prompt) as [u | e]; cbn.
  - destruct (http_download env i u (ChunkFile i)) as [[] | e]; cbn.
    + destruct (Z.of_nat i <? Z.of_nat total - 1)%Z; cbn;
        rewrite <- ?app_assoc; reflexivity.
    + rewrite <- ?app_assoc, app_nil_r. reflexivity.
  - rewrite <- ?app_assoc, app_nil_r. reflexivity.
Qed.

Lemma synthesis_loop_trace (total : nat) (l : list text) :
  forall i s,
    synthesis_loop env audio_prompt total i l s
    = (Returned tt,
       {| log := log s ++ loop_events env audio_prompt total i l;
          audio_files := audio_files s ++ ok_files env audio_prompt i l |}).
Proof.
  induction l as [|c l IH]; intros i s.
  - simpl. rewrite !app_nil_r. destruct s; reflexivity.
  - cbn [synthesis_loop loop_events ok_files]. unfold bind at 1.
    rewrite synthesize_chunk_trace, IH. cbn [log audio_files].
    rewrite <- !app_assoc. reflexivity.
Qed.

Lemma filter_requests_chunk (total i : nat) (c : text) :
  filter is_request (chunk_events env audio_prompt total i c)
  = [ReplicateRun i c audio_prompt].
Proof.
  unfold chunk_events. simpl.
  destruct (replicate_run env i c audio_prompt) as [u|e]; simpl; [|reflexivity].
  destruct (http_download env i u (ChunkFile i)) as [[]|e]; simpl; [|reflexivity].
  destruct (Z.of_nat i <? Z.of_nat total - 1)%Z; reflexivity.
Qed.

Lemma filter_requests_loop (total : nat) (l : list text) :
  forall i, filter is_request (loop_events env audio_prompt total i l)
            = requests_from audio_prompt i l.
Proof.
  induction l as [|c l IH]; intros i; [reflexivity|].
  cbn [loop_events requests_from].
  rewrite filter_app, filter_requests_chunk, IH. reflexivity.
Qed.

Lemma filter_downloads_loop (total : nat) (l : list text) :
  forall i, filter is_download (loop_events env audio_prompt total i l)
            = downloads_from env audio_prompt i l.
Proof.
  induction l as [|c l IH]; intros i; [reflexivity|].
  cbn [loop_events downloads_from]. rewrite filter_app, IH. f_equal.
  unfold chunk_events. simpl.
  destruct (replicate_run env i c audio_prompt) as [u|e]; simpl; [|reflexivity].
  destruct (http_download env i u (ChunkFile i)) as [[]|e]; simpl; [|reflexivity].
  destruct (Z.of_nat i <? Z.of_nat total - 1)%Z; reflexivity.
Qed.

Lemma filter_sleeps_chunk (total i : nat) (c : text) (b : bool) :
  (Z.of_nat i <? Z.of_nat total - 1)%Z = b ->
  filter is_sleep (chunk_events env audio_prompt total i c)
  = if b && chunk_ok env audio_prompt i c then [Sleep 1] else [].
Proof.
  intros Hb. unfold chunk_events, chunk_ok. rewrite Hb.
  destruct (replicate_run env i c audio_prompt) as [u|e];
    [|rewrite andb_false_r; reflexivity].
  destruct (http_download env i u (ChunkFile i)) as [[]|e];
    [|rewrite andb_false_r; reflexivity].
  destruct b; reflexivity.
Qed.

Lemma filter_sleeps_loop (l : list text) :
  forall i,
    filter is_sleep (loop_events env audio_prompt (i + List.length l) i l)
    = repeat (Sleep 1)
        (List.length (ok_files env audio_prompt i (removelast l))).
Proof.
  induction l as [|c l IH]; intros i; [reflexivity|].
  cbn [loop_events]. rewrite filter_app.
  replace (i + List.length (c :: l))%nat with (S i + List.length l)%nat
    by (simpl; lia).
  rewrite IH.
  destruct l as [|d l].
  - (* the last chunk: no pause *)
    rewrite (filter_sleeps_chunk (S i + List.length []) i c false)
      by (apply Z.ltb_ge; simpl List.length; lia).
    reflexivity.
  - rewrite (filter_sleeps_chunk (S i + List.length (d :: l)) i c true)
      by (apply Z.ltb_lt; simpl List.length; lia).
    change (removelast (c :: d :: l)) with (c :: removelast (d :: l)).
    cbn [ok_files andb]. rewrite length_app.
    destruct (chunk_ok env audio_prompt i c); reflexivity.
Qed.

End Trace.

(** X6. The loop sends exactly one synthesis request per chunk, in the
    order of the chunks and with the chunk's index, whatever fails on the
    way: none is retried, none is left out. *)
Theorem one_request_per_chunk
        (env : services) (audio_prompt : option text)
        (total i : nat) (chunks0 : list text) (s : store) :
  filter is_request
    (log (snd (synthesis_loop env audio_prompt total i chunks0 s)))
  = filter is_request (log s) ++ requests_from audio_prompt i chunks0.
Proof.
  rewrite synthesis_loop_trace. cbn [snd log].
  rewrite filter_app, filter_requests_loop. reflexivity.
Qed.

(** X7. The loop downloads exactly the audio of the chunks whose
    synthesis returned a URL, each once, into the chunk's own file, in
    order; after a failed synthesis nothing is fetched. *)
Theorem downloads_follow_synthesis
        (env : services) (audio_prompt : option text)
        (total i : nat) (chunks0 : list text) (s : store) :
  filter is_download
    (log (snd (synthesis_loop env audio_prompt total i chunks0 s)))
  = filter is_download (log s) ++ downloads_from env audio_prompt i chunks0.
Proof.
  rewrite synthesis_loop_trace. cbn [snd log].
  rewrite filter_app, filter_downloads_loop. reflexivity.
Qed.

(** X8. The loop pauses for one second once after each chunk that was
    synthesized and downloaded, except after the last chunk of the list;
    it does not pause after a chunk that failed. *)
Theorem one_pause_per_delivered_chunk
        (env : services) (audio_prompt : option text)
        (chunks0 : list text) (s : store) :
  filter is_sleep
    (log (snd (synthesis_loop env audio_prompt (List.length chunks0) 0 chunks0 s)))
  = filter is_sleep (log s)
    ++ repeat (Sleep 1)
         (List.length (ok_files env audio_prompt 0 (removelast chunks0))).
Proof.
  rewrite synthesis_loop_trace. cbn [snd log].
  rewrite filter_app. f_equal.
  exact (filter_sleeps_loop env audio_prompt chunks0 0).
Qed.

Section WholeRun.

Variable env : services.
Variable audio_prompt : option text.

(** When the steps before the loop return, the run is the loop followed
    by the end of the function. *)
Lemma generate_audiobook_unfold (use_agent : bool) (tts : text) :
  prelude env use_agent = Returned tts ->
  generate_audiobook env audio_prompt use_agent empty_store
  = finish env (after_synthesis env audio_prompt use_agent tts).
Proof.
  unfold prelude. intros Hp.
  destruct (read_text env MarkdownPath) as [md|] eqn:Hr; [|discriminate].
  assert (Hf' : forall s,
            (if use_agent
             then call AgentFormat (format_for_tts env md)
             else ret (format_for_tts_simple env md)) s
            = (Returned tts,
               {| log := log s ++ (if use_agent then [AgentFormat] else []);
                  audio_files := audio_files s |})
            /\ write_text env TtsTextPath tts = Returned tt
            /\ mkdir env TempDir = Returned tt).
  { intros [l a]. destruct use_agent.
    - destruct (format_for_tts env md) as [t|]; [|discriminate].
      destruct (write_text env TtsTextPath t) as [[]|] eqn:Hw; [|discriminate].
      destruct (mkdir env TempDir) as [[]|] eqn:Hm; [|discriminate].
      injection Hp as <-. auto.
    - destruct (write_text env TtsTextPath (format_for_tts_simple env md))
        as [[]|] eqn:Hw; [|discriminate].
      destruct (mkdir env TempDir) as [[]|] eqn:Hm; [|discriminate].
      injection Hp as <-. cbn. rewrite app_nil_r. auto. }
  destruct (Hf' empty_store) as [_ [Hw Hm]].
  assert (Hf : forall s,
            (if use_agent
             then call AgentFormat (format_for_tts env md)
             else ret (format_for_tts_simple env md)) s
            = (Returned tts,
               {| log := log s ++ (if use_agent then [AgentFormat] else []);
                  audio_files := audio_files s |}))
    by (intros s; exact (proj1 (Hf' s))).
  clear Hf' Hp.
  remember (generate_audiobook env audio_prompt use_agent empty_store) as g eqn:G.
  unfold generate_audiobook in G.
  unfold bind at 1 in G. cbn [emit modify empty_store log audio_files app] in G.
  unfold bind at 1 in G. unfold call at 1 in G. unfold bind at 1 in G.
  cbn [emit modify log audio_files app] in G. rewrite Hr in G. cbn [ret] in G.
  unfold bind at 1 in G. rewrite Hf in G. cbn [log audio_files] in G.
  unfold bind at 1 in G. unfold call at 1 in G. unfold bind at 1 in G.
  cbn [emit modify log audio_files] in G. rewrite Hw in G. cbn [ret] in G.
  unfold bind at 1 in G. cbn [emit modify log audio_files] in G.
  unfold bind at 1 in G. cbn [emit modify log audio_files] in G.
  unfold bind at 1 in G. cbn [emit modify log audio_files] in G.
  unfold bind at 1 in G. unfold call at 1 in G. unfold bind at 1 in G.
  cbn [emit modify log audio_files] in G. rewrite Hm in G. cbn [ret] in G.
  unfold bind at 1 in G. rewrite synthesis_loop_trace in G.
  cbn [log audio_files app] in G.
  rewrite G. unfold after_synthesis, prelude_events.
  rewrite <- !app_assoc. reflexivity.
Qed.

End WholeRun.

Section Finish.

Variable env : services.

Lemma unlink_all_ok (fs : list path) :
  (forall f, In f fs -> unlink env f = Returned tt) ->
  forall s,
    unlink_all env fs s
    = (Returned tt,
       {| log := log s ++ List.map Unlink fs; audio_files := audio_files s |}).
Proof.
  induction fs as [|f fs IH]; intros H s.
  - simpl. rewrite app_nil_r. destruct s; reflexivity.
  - cbn [unlink_all]. unfold bind at 1, call, bind, emit, modify, ret.
    rewrite (H f (or_introl eq_refl)). cbn [log audio_files].
    rewrite IH by (intros g Hg; apply H; right; exact Hg).
    cbn [log audio_files List.map]. rewrite <- app_assoc. reflexivity.
Qed.

Lemma finish_success (s : store) :
  audio_files s <> [] ->
  pydub_export env (audio_files s) OutputPath = Returned tt ->
  (forall f, In f (audio_files s) -> unlink env f = Returned tt) ->
  rmdir env TempDir = Returned tt ->
  finish env s
  = (Returned OutputPath,
     {| log := log s
               ++ [Print "Concatenating audio files";
                   Export (audio_files s) OutputPath]
               ++ List.map Unlink (audio_files s)
               ++ [Rmdir TempDir; Print "Audiobook saved"];
        audio_files := audio_files s |}).
Proof.
  intros Hne He Hu Hr. unfold finish.
  destruct (audio_files s) as [|f fs] eqn:E; [congruence|].
  unfold concatenate_audio_files.
  unfold bind at 1. cbn [emit modify].
  unfold bind at 1. unfold bind at 1. unfold call at 1. unfold bind at 1.
  cbn [emit modify log audio_files]. rewrite He. cbn [ret].
  unfold bind at 1. rewrite (unlink_all_ok (f :: fs) Hu). cbn [log audio_files].
  unfold bind at 1. unfold call at 1. unfold bind at 1.
  cbn [emit modify log audio_files]. rewrite Hr. cbn [ret].
  unfold bind at 1. cbn [emit modify log audio_files ret].
  rewrite E, <- !app_assoc. reflexivity.
Qed.

Lemma finish_export_fails (s : store) (e : exn) :
  audio_files s <> [] ->
  pydub_export env (audio_files s) OutputPath = Raised e ->
  finish env s
  = (Raised e,
     {| log := log s
               ++ [Print "Concatenating audio files";
                   Export (audio_files s) OutputPath];
        audio_files := audio_files s |}).
Proof.
  intros Hne He. unfold finish.
  destruct (audio_files s) as [|f fs] eqn:E; [congruence|].
  unfold concatenate_audio_files.
  unfold bind at 1. cbn [emit modify].
  unfold bind at 1. unfold bind at 1. unfold call at 1. unfold bind at 1.
  cbn [emit modify log audio_files]. rewrite He. cbn [raise].
  rewrite E, <- !app_assoc. reflexivity.
Qed.

Lemma finish_returns (s s' : store) (p : path) :
  finish env s = (Returned p, s') ->
  p = OutputPath /\ audio_files s <> [] /\
  pydub_export env (audio_files s) OutputPath = Returned tt /\
  In (Export (audio_files s) OutputPath) (log s').
Proof.
  unfold finish. destruct (audio_files s) as [|f fs] eqn:E; [discriminate|].
  unfold concatenate_audio_files.
  unfold bind at 1. cbn [emit modify].
  unfold bind at 1. unfold bind at 1. unfold call at 1. unfold bind at 1.
  cbn [emit modify log audio_files].
  destruct (pydub_export env (f :: fs) OutputPath) as [[]|x]; [|discriminate].
  cbn [ret]. unfold bind at 1.
  match goal with |- context [unlink_all env ?l ?st] =>
    pose proof (unlink_all_log env l st (Export (f :: fs) OutputPath)) as U;
    destruct (unlink_all env l st) as [[[]|x] s2] end; [|discriminate].
  cbn [snd log] in U.
  unfold bind at 1. unfold call at 1. unfold bind at 1.
  cbn [emit modify log audio_files].
  destruct (rmdir env TempDir) as [[]|x]; [|discriminate].
  cbn [ret]. unfold bind at 1. cbn [emit modify log audio_files ret].
  intros [= <- <-]. cbn [log].
  split; [reflexivity|]. split; [discriminate|]. split; [reflexivity|].
  rewrite !in_app_iff. left. left. apply U.
  rewrite !in_app_iff. simpl. tauto.
Qed.

End Finish.

Section Prelude.

Variable env : services.
Variable audio_prompt : option text.

Lemma prelude_fails (use_agent : bool) (e : exn) :
  prelude env use_agent = Raised e ->
  fst (generate_audiobook env audio_prompt use_agent empty_store) = Raised e /\
  filter is_request
    (log (snd (generate_audiobook env audio_prompt use_agent empty_store))) = [].
Proof.
  unfold prelude, generate_audiobook, call, emit, bind, modify, ret, raise.
  cbn. destruct (read_text env MarkdownPath) as [md|x]; cbn.
  2: { intros [= ->]. auto. }
  destruct use_agent; cbn.
  - destruct (format_for_tts env md) as [t|x]; cbn.
    2: { intros [= ->]. auto. }
    destruct (write_text env TtsTextPath t) as [[]|x]; cbn.
    2: { intros [= ->]. auto. }
    destruct (mkdir env TempDir) as [[]|x]; cbn.
    2: { intros [= ->]. auto. }
    discriminate.
  - destruct (write_text env TtsTextPath (format_for_tts_simple env md))
      as [[]|x]; cbn.
    2: { intros [= ->]. auto. }
    destruct (mkdir env TempDir) as [[]|x]; cbn.
    2: { intros [= ->]. auto. }
    discriminate.
Qed.

Lemma no_cleanup_before_finish (use_agent : bool) (tts : text) :
  filter is_cleanup
    (log (after_synthesis env audio_prompt use_agent tts)) = [].
Proof.
  unfold after_synthesis. cbn [log]. rewrite filter_app.
  assert (L : forall total l i,
            filter is_cleanup (loop_events env audio_prompt total i l) = []).
  { intros total. induction l as [|c l IH]; intros i; [reflexivity|].
    cbn [loop_events]. rewrite filter_app, IH, app_nil_r.
    unfold chunk_events. simpl.
    destruct (replicate_run env i c audio_prompt) as [u|x]; simpl; [|reflexivity].
    destruct (http_download env i u (ChunkFile i)) as [[]|x]; simpl; [|reflexivity].
    destruct (Z.of_nat i <? Z.of_nat total - 1)%Z; reflexivity. }
  rewrite L, app_nil_r. unfold prelude_events. destruct use_agent; reflexivity.
Qed.

End Prelude.

(** X9. When every step returns and at least one chunk went through,
    the run returns the output path, having exported the files of the
    chunks that went through, in order, as one call, and having then
    removed each of these files and the temporary directory. *)
Theorem run_exports_then_cleans_up
        (env : services) (audio_prompt : option text)
        (use_agent : bool) (tts : text) :
  let files := ok_files env audio_prompt 0 (chunk_text tts MAX_CHUNK_LENGTH) in
  prelude env use_agent = Returned tts ->
  files <> [] ->
  pydub_export env files OutputPath = Returned tt ->
  (forall f, In f files -> unlink env f = Returned tt) ->
  rmdir env TempDir = Returned tt ->
  generate_audiobook env audio_prompt use_agent empty_store
  = (Returned OutputPath,
     {| log := log (after_synthesis env audio_prompt use_agent tts)
               ++ [Print "Concatenating audio files"; Export files OutputPath]
               ++ List.map Unlink files
               ++ [Rmdir TempDir; Print "Audiobook saved"];
        audio_files := files |}).
Proof.
  intros files Hp Hne He Hu Hr.
  rewrite (generate_audiobook_unfold env audio_prompt use_agent tts Hp).
  apply finish_success; assumption.
Qed.

Lemma run_exports_then_cleans_up_witness :
  fst (generate_audiobook working_service None false empty_store)
  = Returned OutputPath.
Proof.
  rewrite (run_exports_then_cleans_up working_service None false (str "One. Two.")).
  - reflexivity.
  - reflexivity.
  - vm_compute. discriminate.
  - reflexivity.
  - intros f _. reflexivity.
  - reflexivity.
Defined.

(** X10. When the export raises, the run raises the same exception and
    removes nothing: no temporary file and not the temporary directory. *)
Theorem export_failure_leaves_files
        (env : services) (audio_prompt : option text)
        (use_agent : bool) (tts : text) (e : exn) :
  let files := ok_files env audio_prompt 0 (chunk_text tts MAX_CHUNK_LENGTH) in
  let run := generate_audiobook env audio_prompt use_agent empty_store in
  prelude env use_agent = Returned tts ->
  files <> [] ->
  pydub_export env files OutputPath = Raised e ->
  fst run = Raised e /\ filter is_cleanup (log (snd run)) = [].
Proof.
  intros files run Hp Hne He. subst run.
  rewrite (generate_audiobook_unfold env audio_prompt use_agent tts Hp).
  rewrite (finish_export_fails env (after_synthesis env audio_prompt use_agent tts) e Hne He). cbn [fst snd log].
  split; [reflexivity|].
  rewrite filter_app, no_cleanup_before_finish. reflexivity.
Qed.

Lemma export_failure_leaves_files_witness :
  fst (generate_audiobook export_failing_service None false empty_store)
  = Raised (ServiceError "ffmpeg") /\
  filter is_cleanup
    (log (snd (generate_audiobook export_failing_service None false empty_store)))
  = [].
Proof.
  apply (export_failure_leaves_files export_failing_service None false
           (str "One. Two.") (ServiceError "ffmpeg")).
  - reflexivity.
  - vm_compute. discriminate.
  - reflexivity.
Defined.

(** X11. The run returns a path only if it is the output path and the
    export of a non-empty list of chunk files to it was called and
    returned. *)
Theorem returns_only_after_export
        (env : services) (audio_prompt : option text)
        (use_agent : bool) (p : path) (s' : store) :
  generate_audiobook env audio_prompt use_agent empty_store = (Returned p, s') ->
  p = OutputPath /\
  exists files,
    files <> [] /\
    pydub_export env files OutputPath = Returned tt /\
    In (Export files OutputPath) (log s').
Proof.
  intros H. destruct (prelude env use_agent) as [tts|e] eqn:Hp.
  - rewrite (generate_audiobook_unfold env audio_prompt use_agent tts Hp) in H.
    destruct (finish_returns env _ _ _ H) as [E [Hne [He Hin]]].
    split; [exact E|]. eexists. split; [exact Hne|]. split; [exact He | exact Hin].
  - destruct (prelude_fails env audio_prompt use_agent e Hp) as [F _].
    rewrite H in F. discriminate F.
Qed.

Lemma returns_only_after_export_witness :
  OutputPath = OutputPath /\
  exists files,
    files <> [] /\
    pydub_export working_service files OutputPath = Returned tt /\
    In (Export files OutputPath)
       (log (snd (generate_audiobook working_service None false empty_store))).
Proof.
  apply (returns_only_after_export working_service None false OutputPath
           (snd (generate_audiobook working_service None false empty_store))).
  vm_compute. reflexivity.
Defined.

(** X12. When a step before the loop raises (reading the markdown, the
    agent formatting, saving the TTS text, making the temporary
    directory), the run raises the same exception and no synthesis
    request is made. *)
Theorem failure_before_loop_aborts
        (env : services) (audio_prompt : option text)
        (use_agent : bool) (e : exn) :
  let run := generate_audiobook env audio_prompt use_agent empty_store in
  prelude env use_agent = Raised e ->
  fst run = Raised e /\ filter is_request (log (snd run)) = [].
Proof. intros run. apply prelude_fails. Qed.

Lemma failure_before_loop_aborts_witness :
  fst (generate_audiobook unreadable_service None false empty_store)
  = Raised (ServiceError "FileNotFoundError") /\
  filter is_request
    (log (snd (generate_audiobook unreadable_service None false empty_store)))
  = [].
Proof.
  apply (failure_before_loop_aborts unreadable_service None false
           (ServiceError "FileNotFoundError")).
  reflexivity.
Defined.

(** * The matcher: what a match consumes *)

Lemma advance_refl (st : mstate) : advance st st.
Proof. exists []. auto. Qed.

Lemma advance_trans (a b c : mstate) : advance a b -> advance b c -> advance a c.
Proof.
  intros [w1 [R1 P1]] [w2 [R2 P2]]. exists (w1 ++ w2).
  rewrite R1, R2, P2, P1, rev_app_distr, <- !app_assoc. auto.
Qed.

Lemma rep_advance (fl : flags) (g : greed) (cc : cclass)
      (k : text -> text -> option mstate) :
  forall r lo hi p res,
    Re.rep fl g cc lo hi p r k = Some res ->
    exists w r', r = w ++ r' /\ k (rev w ++ p) r' = Some res.
Proof.
  induction r as [|c r IH]; intros lo hi p res H.
  - exists [], []. split; [reflexivity|]. simpl.
    destruct g, lo; simpl in H; try discriminate; try exact H.
    destruct (k p []) as [x|]; [exact H | discriminate].
  - assert (Stop : forall x, match lo with O => k p (c :: r) | S _ => None end = Some x ->
                             exists w r', c :: r = w ++ r' /\ k (rev w ++ p) r' = Some x).
    { intros x Hx. destruct lo; [|discriminate]. exists [], (c :: r). auto. }
    assert (More : forall x,
               (if cc_test fl cc c && more_allowed hi
                then Re.rep fl g cc (Nat.pred lo) (option_map Nat.pred hi) (c :: p) r k
                else None) = Some x ->
               exists w r', c :: r = w ++ r' /\ k (rev w ++ p) r' = Some x).
    { intros x Hx. destruct (cc_test fl cc c && more_allowed hi); [|discriminate].
      destruct (IH _ _ _ _ Hx) as [w [r' [E K]]].
      exists (c :: w), r'. split; [simpl; f_equal; exact E|].
      simpl. rewrite <- app_assoc. exact K. }
    cbn [Re.rep] in H. destruct g.
    + destruct (if cc_test fl cc c && more_allowed hi
                then Re.rep fl Greedy cc (Nat.pred lo) (option_map Nat.pred hi) (c :: p) r k
                else None) as [x|] eqn:M.
      * injection H as <-. apply More. reflexivity.
      * apply Stop. exact H.
    + destruct (match lo with O => k p (c :: r) | S _ => None end) as [x|] eqn:S0.
      * injection H as <-. apply Stop. reflexivity.
      * apply More. exact H.
Qed.

(** Whatever the pattern, the continuation is entered at a position
    that lies ahead in the same subject. *)
Lemma exec_advance (fl : flags) (r : regex) :
  forall st k res,
    Re.exec fl r st k = Some res ->
    exists st', advance st st' /\ k st' = Some res.
Proof.
  induction r as [ | cc | r1 IH1 r2 IH2 | r1 IH1 r2 IH2 | g lo hi cc
                   | i r IH | | | w | r IH | cc ];
    intros st k res H; cbn [Re.exec] in H.
  - exists st. split; [apply advance_refl | exact H].
  - destruct (rest st) as [|c r'] eqn:R; [discriminate|].
    destruct (cc_test fl cc c); [|discriminate].
    eexists. split; [|exact H]. exists [c]. cbn [pre rest]. auto.
  - destruct (IH1 _ _ _ H) as [st1 [A1 H1]].
    destruct (IH2 _ _ _ H1) as [st2 [A2 H2]].
    exists st2. split; [exact (advance_trans _ _ _ A1 A2) | exact H2].
  - destruct (Re.exec fl r1 st k) as [x|] eqn:E1.
    + injection H as <-. apply IH1. exact E1.
    + apply IH2. exact H.
  - destruct (rep_advance fl g cc _ _ _ _ _ _ H) as [w [r' [E K]]].
    eexists. split; [|exact K]. exists w. cbn [pre rest]. auto.
  - destruct (IH _ _ _ H) as [st1 [A1 H1]].
    eexists. split; [|exact H1].
    destruct A1 as [w [R P]]. exists w. cbn [pre rest]. auto.
  - destruct (Re.at_bol fl st); [|discriminate].
    exists st. split; [apply advance_refl | exact H].
  - destruct (Re.at_eol fl st); [|discriminate].
    exists st. split; [apply advance_refl | exact H].
  - destruct (xorb _ _); [|discriminate].
    exists st. split; [apply advance_refl | exact H].
  - destruct (Re.exec fl r st (fun st' => Some st')); [|discriminate].
    exists st. split; [apply advance_refl | exact H].
  - destruct (pre st) as [|c p']; [discriminate|].
    destruct (cc_test fl cc c); [|discriminate].
    exists st. split; [apply advance_refl | exact H].
Qed.

Lemma match_at_advance (fl : flags) (r : regex) (p s : text) (st : mstate) :
  Re.match_at fl r p s = Some st ->
  exists w, s = w ++ rest st /\ pre st = rev w ++ p.
Proof.
  unfold Re.match_at. intros H.
  destruct (exec_advance fl r _ _ _ H) as [st' [[w [R P]] K]].
  injection K as <-. exists w. auto.
Qed.

(** The matches of an iteration, each with the text skipped before it,
    and the text after the last one, make up the subject. *)
Lemma finditer_go_partition (fl : flags) (r : regex) (fuel : nat) :
  forall p s skip,
    let res := Re.finditer_go fl fuel r p s skip in
    flat_map (fun f => skipped f ++ whole f) (fst res) ++ snd res = rev skip ++ s.
Proof.
  induction fuel as [|fuel IH]; intros p s skip; [reflexivity|].
  cbn [Re.finditer_go].
  destruct (Re.search fl r p s) as [[st0 st1]|] eqn:Hs; [|reflexivity].
  destruct (search_spec _ _ _ _ _ _ Hs) as [a [E [P M]]].
  destruct (match_at_advance _ _ _ _ _ M) as [w [R1 P1]].
  destruct st0 as [p0 r0 c0], st1 as [p1 r1 c1]. cbn [pre rest caps] in *.
  subst p0 p1. unfold start_at. rewrite !consumed_app. cbn [whole skipped].
  destruct w as [|c w].
  - simpl in R1. subst r0. destruct r1 as [|c s'].
    + cbn [fst snd flat_map skipped whole]. rewrite E, !app_nil_r. reflexivity.
    + specialize (IH (c :: rev [] ++ rev a ++ p) s' [c]).
      destruct (Re.finditer_go fl fuel r (c :: rev [] ++ rev a ++ p) s' [c])
        as [fs tl].
      cbn [fst snd flat_map skipped whole] in *.
      rewrite <- !app_assoc, IH, E. reflexivity.
  - specialize (IH (rev (c :: w) ++ rev a ++ p) r1 []).
    destruct (Re.finditer_go fl fuel r (rev (c :: w) ++ rev a ++ p) r1 [])
      as [fs tl].
    cbn [fst snd flat_map skipped whole] in *.
    rewrite <- !app_assoc, IH, E, R1. reflexivity.
Qed.

(** A property of characters that the subject has and every
    replacement has, the result of [re.sub] has. *)
Lemma sub_Forall (P : char -> Prop) (fl : flags) (r : regex)
      (repl : found -> text) (s : text) :
  Forall P s -> (forall f, Forall P (repl f)) -> Forall P (Re.sub fl r repl s).
Proof.
  intros Hs Hr. unfold Re.sub, Re.finditer.
  pose proof (finditer_go_partition fl r (S (List.length s)) [] s []) as H.
  destruct (Re.finditer_go fl (S (List.length s)) r [] s []) as [fs tl].
  cbn [fst snd rev app] in H. rewrite <- H in Hs. clear H.
  apply Forall_app in Hs as [Hf Ht]. apply Forall_app. split; [|exact Ht].
  induction fs as [|f fs IH]; [constructor|].
  cbn [flat_map] in Hf |- *.
  apply Forall_app in Hf as [Hf1 Hf2]. apply Forall_app in Hf1 as [Hsk _].
  apply Forall_app. split; [|exact (IH Hf2)].
  apply Forall_app. split; [exact Hsk | apply Hr].
Qed.

(** * Further properties of the normalizer *)

Lemma replace1_among (l : list char) (c : char) (new s : text) :
  Forall (fun x => among l x = false) s ->
  Forall (fun x => among (c :: l) x = false) new ->
  Forall (fun x => among (c :: l) x = false) (replace1 c new s).
Proof.
  intros Hs Hn. unfold replace1. induction s as [|x s IH]; [constructor|].
  inversion Hs as [|? ? Hx Hs']; subst. cbn [flat_map].
  apply Forall_app. split; [|exact (IH Hs')].
  destruct (x =? c)%N eqn:E; [exact Hn|].
  constructor; [|constructor]. unfold among in *. simpl. rewrite E. exact Hx.
Qed.

Lemma strip_Forall (P : char -> Prop) (s : text) :
  Forall P s -> Forall P (strip s).
Proof.
  intros H. destruct (strip_split s) as [w1 [w2 [E _]]].
  rewrite E in H. apply Forall_app in H as [_ H].
  apply Forall_app in H as [H _]. exact H.
Qed.

Lemma Forall_join (P : char -> Prop) (sep : text) (l : list text) :
  Forall P sep -> Forall (Forall P) l -> Forall P (join sep l).
Proof.
  intros Hsep. induction l as [|p l IH]; intros H; [constructor|].
  inversion H as [|? ? Hp Hl]; subst.
  destruct l as [|q l]; [exact Hp|].
  rewrite join_cons by discriminate.
  apply Forall_app. split; [exact Hp|].
  apply Forall_app. split; [exact Hsep | exact (IH Hl)].
Qed.

Lemma Forall_join_inv (P : char -> Prop) (sep : text) (l : list text) :
  Forall P (join sep l) -> Forall (Forall P) l.
Proof.
  induction l as [|p l IH]; intros H; [constructor|].
  destruct l as [|q l].
  - constructor; [exact H | constructor].
  - rewrite join_cons in H by discriminate.
    apply Forall_app in H as [Hp H]. apply Forall_app in H as [_ H].
    constructor; [exact Hp | exact (IH H)].
Qed.

(** The last but one step of the pass: every line stripped. *)
Lemma strip_lines_Forall (P : char -> Prop) (t : text) :
  P NL -> Forall P t ->
  Forall P (join [NL] (List.map strip (Py.split [NL] t))).
Proof.
  intros Hnl Ht. apply Forall_join; [constructor; [exact Hnl | constructor]|].
  rewrite <- (split_join [NL] t) in Ht by discriminate.
  apply Forall_join_inv in Ht.
  apply Forall_forall. intros x Hx. apply in_map_iff in Hx as [y [<- Hy]].
  apply strip_Forall. rewrite Forall_forall in Ht. exact (Ht y Hy).
Qed.

(** X13. The text that [markdown_to_text] returns never contains a
    percent sign, an ampersand, a multiplication sign or an arrow to the
    right or to the left: each one has been replaced by its word. *)
Theorem symbols_spelled_out
        (unicode_word unicode_digit : char -> bool) (markdown_text : text) :
  Forall (fun c => is_symbol c = false)
         (markdown_to_text unicode_word unicode_digit markdown_text).
Proof.
  unfold markdown_to_text, is_symbol, spoken_symbols.
  apply strip_Forall. apply strip_lines_Forall; [reflexivity|].
  apply sub_Forall; [|intros; repeat constructor].
  apply sub_Forall; [|intros; repeat constructor].
  apply sub_Forall; [|intros; repeat constructor].
  apply replace1_among; [|repeat constructor].
  apply replace1_among; [|repeat constructor].
  apply replace1_among; [|repeat constructor].
  apply replace1_among; [|repeat constructor].
  apply replace1_among; [|repeat constructor].
  apply Forall_forall. intros; reflexivity.
Qed.

(** ** Lines *)

Lemma split_nl_cons (c : char) (s : text) :
  Py.split [NL] (c :: s)
  = if (NL =? c)%N then [] :: Py.split [NL] s
    else cons_head c (Py.split [NL] s).
Proof.
  unfold Py.split. cbn [split_go prefixb List.length Nat.sub].
  rewrite andb_true_r. reflexivity.
Qed.

Lemma split_nl_nonempty (s : text) : Py.split [NL] s <> [].
Proof. apply split_go_nonempty. Qed.

(** The lines of a line, a newline and more lines. *)
Lemma split_nl_app (a b : text) :
  Py.split [NL] (a ++ NL :: b) = Py.split [NL] a ++ Py.split [NL] b.
Proof.
  induction a as [|c a IH].
  - rewrite app_nil_l, split_nl_cons, N.eqb_refl. reflexivity.
  - rewrite <- app_comm_cons, !split_nl_cons, IH.
    destruct (NL =? c)%N; [reflexivity|].
    apply cons_head_app, split_nl_nonempty.
Qed.

Lemma split_nl_free (p : text) :
  Forall (fun c => c <> NL) p -> Py.split [NL] p = [p].
Proof.
  induction p as [|c p IH]; intros H; [reflexivity|].
  inversion H as [|? ? Hc Hp]; subst.
  rewrite split_nl_cons, (IH Hp).
  destruct (N.eqb_spec NL c); [congruence | reflexivity].
Qed.

Lemma split_nl_pieces_free (s : text) :
  Forall (Forall (fun c => c <> NL)) (Py.split [NL] s).
Proof.
  induction s as [|c s IH]; [repeat constructor|].
  rewrite split_nl_cons. destruct (N.eqb_spec NL c) as [E|E].
  - constructor; [constructor | exact IH].
  - destruct (Py.split [NL] s) as [|p ps]; [repeat constructor; congruence|].
    inversion IH; subst. constructor; [|assumption].
    constructor; [congruence | assumption].
Qed.

(** Joining lines and splitting again gives the lines back. *)
Lemma split_join_lines (ls : list text) :
  ls <> [] -> Forall (Forall (fun c => c <> NL)) ls ->
  Py.split [NL] (join [NL] ls) = ls.
Proof.
  induction ls as [|p ls IH]; [congruence|]. intros _ H.
  inversion H as [|? ? Hp Hl]; subst.
  destruct ls as [|q ls].
  - apply split_nl_free. exact Hp.
  - rewrite join_cons by discriminate.
    change ([NL] ++ join [NL] (q :: ls)) with (NL :: join [NL] (q :: ls)).
    rewrite split_nl_app, (split_nl_free p Hp), IH by (try discriminate; exact Hl).
    reflexivity.
Qed.

(** The last line with one more character that is not a newline. *)
Lemma split_nl_snoc (x : text) (c : char) :
  c <> NL ->
  exists ls l, Py.split [NL] x = ls ++ [l] /\
               Py.split [NL] (x ++ [c]) = ls ++ [l ++ [c]].
Proof.
  intros Hc. induction x as [|d x [ls [l [E1 E2]]]].
  - exists [], []. split; [reflexivity|].
    rewrite app_nil_l, split_nl_cons.
    destruct (N.eqb_spec NL c); [congruence | reflexivity].
  - rewrite <- app_comm_cons, !split_nl_cons, E1, E2.
    destruct (NL =? d)%N.
    + exists ([] :: ls), l. auto.
    + destruct ls as [|h t].
      * exists [], (d :: l). auto.
      * exists ((d :: h) :: t), l. auto.
Qed.

Lemma lines_clean_lstrip (x : text) :
  Forall clean_edges (Py.split [NL] x) ->
  Forall clean_edges (Py.split [NL] (lstrip x)).
Proof.
  induction x as [|c x IH]; intros H; [exact H|].
  cbn [lstrip]. destruct (isspace c) eqn:Sc; [|exact H].
  apply IH. rewrite split_nl_cons in H.
  destruct (NL =? c)%N.
  - inversion H; assumption.
  - exfalso. pose proof (split_nl_nonempty x) as N.
    destruct (Py.split [NL] x) as [|p ps]; [congruence|].
    inversion H as [|? ? [Hh _] _]; subst.
    rewrite (Hh c eq_refl) in Sc. discriminate.
Qed.

Lemma lstrip_rev_snoc (x : text) (c : char) :
  rstrip (x ++ [c]) = if isspace c then rstrip x else x ++ [c].
Proof.
  unfold rstrip. rewrite rev_app_distr. cbn [rev app lstrip].
  destruct (isspace c); [reflexivity|].
  cbn [rev]. rewrite rev_involutive. reflexivity.
Qed.

Lemma lines_clean_rstrip (x : text) :
  Forall clean_edges (Py.split [NL] x) ->
  Forall clean_edges (Py.split [NL] (rstrip x)).
Proof.
  induction x as [|c x IH] using rev_ind; intros H; [exact H|].
  rewrite lstrip_rev_snoc. destruct (isspace c) eqn:Sc; [|exact H].
  apply IH. destruct (N.eq_dec c NL) as [-> | Hc].
  - change (x ++ [NL]) with (x ++ NL :: []) in H.
    rewrite split_nl_app in H. apply Forall_app in H. tauto.
  - exfalso. destruct (split_nl_snoc x c Hc) as [ls [l [_ E]]].
    rewrite E in H. apply Forall_app in H as [_ H].
    inversion H as [|? ? [_ Hl] _]; subst.
    rewrite rev_app_distr in Hl. rewrite (Hl c eq_refl) in Sc. discriminate.
Qed.

Lemma stripped_lines_stay (t0 : text) :
  Forall (fun line => strip line = line)
         (Py.split [NL] (strip (join [NL] (List.map strip (Py.split [NL] t0))))).
Proof.
  set (t1 := join [NL] (List.map strip (Py.split [NL] t0))).
  assert (H : Forall clean_edges (Py.split [NL] t1)).
  { subst t1. rewrite split_join_lines.
    - apply Forall_forall. intros x Hx.
      apply in_map_iff in Hx as [y [<- _]]. apply strip_clean.
    - pose proof (split_nl_nonempty t0).
      destruct (Py.split [NL] t0); [congruence | discriminate].
    - apply Forall_forall. intros x Hx.
      apply in_map_iff in Hx as [y [<- Hy]]. apply strip_Forall.
      pose proof (split_nl_pieces_free t0) as F.
      rewrite Forall_forall in F. exact (F y Hy). }
  unfold strip at 1.
  apply lines_clean_lstrip, lines_clean_rstrip in H.
  apply Forall_forall. intros l Hl. apply strip_fixed.
  rewrite Forall_forall in H. exact (H l Hl).
Qed.

(** X14. The text that [markdown_to_text] returns has no white space at
    its start or end, and neither has any of its lines. *)
Theorem output_lines_stripped
        (unicode_word unicode_digit : char -> bool) (markdown_text : text) :
  strip (markdown_to_text unicode_word unicode_digit markdown_text)
  = markdown_to_text unicode_word unicode_digit markdown_text /\
  Forall (fun line => strip line = line)
         (Py.split [NL]
            (markdown_to_text unicode_word unicode_digit markdown_text)).
Proof.
  assert (E : exists t0,
             markdown_to_text unicode_word unicode_digit markdown_text
             = strip (join [NL] (List.map strip (Py.split [NL] t0)))).
  { unfold markdown_to_text. cbv zeta. eexists. reflexivity. }
  destruct E as [t0 ->].
  split; [apply strip_idem | apply stripped_lines_stay].
Qed.

(** * The chunker of [src/audiobook_generator.py] *)

Lemma fold_left_ext {A B : Type} (f g : A -> B -> A) :
  (forall a b, f a b = g a b) ->
  forall l a, fold_left f l a = fold_left g l a.
Proof.
  intros H. induction l as [|b l IH]; intros a; [reflexivity|].
  simpl. rewrite H. apply IH.
Qed.

(** The loop body is the one of the sentence branch of
    [src/audiobook.py]. *)
Lemma generator_add_sentence (max_chars : Z) (a : acc) (s : text) :
  Generator.add_sentence max_chars a s = add_sentence max_chars a s.
Proof.
  unfold Generator.add_sentence, add_sentence, flush.
  destruct (current_chunk a); reflexivity.
Qed.

Lemma generator_chunk_text_fold (text0 : text) (max_chars : Z) :
  Generator.chunk_text text0 max_chars
  = flush (fold_left (add_sentence max_chars) (sentences text0)
                     {| chunks := []; current_chunk := [] |}).
Proof.
  unfold Generator.chunk_text, flush, sentences. cbv zeta.
  rewrite (fold_left_ext _ _ (generator_add_sentence max_chars)).
  reflexivity.
Qed.

Lemma bounded_flush (text0 : text) (max_chars : Z) (a : acc) :
  bounded text0 max_chars a ->
  Forall (fun c => (len c <= max_chars)%Z \/ long_sentence text0 max_chars c)
         (flush a).
Proof.
  intros [Hc Hb]. unfold flush.
  destruct (truthy (current_chunk a)); [|exact Hc].
  apply Forall_app. split; [exact Hc|]. constructor; [|constructor].
  destruct Hb as [Hb | [Hin Hlong]].
  - left. pose proof (strip_len (current_chunk a)). lia.
  - right. exists (current_chunk a). auto.
Qed.

Lemma bounded_add_sentence (text0 : text) (max_chars : Z) (a : acc) (s : text) :
  bounded text0 max_chars a -> In s (sentences text0) ->
  bounded text0 max_chars (add_sentence max_chars a s).
Proof.
  intros Ha Hs. unfold add_sentence.
  destruct (Z.leb_spec (len (current_chunk a) + len s + 1) max_chars) as [Hfit | Hno].
  - split; [exact (proj1 Ha)|]. cbn [current_chunk]. left.
    destruct (truthy (current_chunk a)).
    + rewrite !len_app. change (len [SP]) with 1%Z. lia.
    + pose proof (len_nonneg (current_chunk a)). lia.
  - split; cbn [chunks current_chunk].
    + apply bounded_flush. exact Ha.
    + destruct (Z.le_gt_cases (len s) max_chars) as [Hle | Hgt];
        [left; exact Hle | right; split; [exact Hs | lia]].
Qed.

(** Blank text has no sentence end: a cut needs a terminator before
    it. *)
Lemma search_sentence_end_blank (s : text) :
  forall p, blank p = true -> blank s = true ->
            Re.search no_flags sentence_end p s = None.
Proof.
  induction s as [|c s IH]; intros p Hp Hs; cbn [Re.search].
  - destruct (Re.match_at no_flags sentence_end p []) as [st|] eqn:M; [|reflexivity].
    exfalso. destruct (match_sentence_end _ _ _ M) as [t [p' [w [-> [Ht _]]]]].
    simpl in Hp. apply andb_true_iff in Hp as [Hp _].
    rewrite (terminator_not_space _ Ht) in Hp. discriminate.
  - destruct (Re.match_at no_flags sentence_end p (c :: s)) as [st|] eqn:M.
    + exfalso. destruct (match_sentence_end _ _ _ M) as [t [p' [w [-> [Ht _]]]]].
      simpl in Hp. apply andb_true_iff in Hp as [Hp _].
      rewrite (terminator_not_space _ Ht) in Hp. discriminate.
    + simpl in Hs. apply andb_true_iff in Hs as [Hc Hs].
      apply IH; [|exact Hs]. simpl. rewrite Hc. exact Hp.
Qed.

Lemma sentences_blank (s : text) : blank s = true -> sentences s = [s].
Proof.
  intros H. unfold sentences, Re.split, Re.finditer. cbn [Re.finditer_go].
  rewrite (search_sentence_end_blank s [] eq_refl H). reflexivity.
Qed.

(** X15. The chunker of [audiobook_generator.py] keeps the words of the
    text: the words of its chunks, in the order of the chunks, are the
    words of the text, whatever the limit. *)
Theorem generator_chunks_keep_words (text0 : text) (max_chars : Z) :
  List.concat (List.map words (Generator.chunk_text text0 max_chars))
  = words text0.
Proof.
  rewrite generator_chunk_text_fold, flush_words, add_sentences_words.
  unfold content. cbn [chunks current_chunk List.map List.concat words app].
  apply sentences_words.
Qed.

(** X16. Every chunk of [audiobook_generator.chunk_text] is at most
    [max_chars] long, unless it is one sentence of the text that is itself
    longer than [max_chars]; such a sentence is a chunk of its own,
    stripped and not cut.  This holds for every limit. *)
Theorem generator_chunk_length (text0 : text) (max_chars : Z) :
  Forall (fun c => (len c <= max_chars)%Z \/ long_sentence text0 max_chars c)
         (Generator.chunk_text text0 max_chars).
Proof.
  rewrite generator_chunk_text_fold.
  destruct (sentences text0) as [|s0 ss] eqn:E; [constructor|].
  cbn [fold_left]. apply bounded_flush.
  apply fold_left_inv with (P := fun s => In s (sentences text0)).
  - intros; apply bounded_add_sentence; assumption.
  - apply Forall_forall. intros x Hx. rewrite E. right. exact Hx.
  - assert (H0 : In s0 (sentences text0)) by (rewrite E; left; reflexivity).
    unfold add_sentence. cbn [current_chunk chunks truthy flush].
    destruct (Z.leb_spec (len [] + len s0 + 1) max_chars) as [Hfit | Hno];
      (split; [constructor|]); cbn [current_chunk].
    + left. change (len []) with 0%Z in Hfit. lia.
    + destruct (Z.le_gt_cases (len s0) max_chars) as [Hle | Hgt];
        [left; exact Hle | right; split; [exact H0 | lia]].
Qed.

Lemma generator_blank_text (text0 : text) (max_chars : Z) :
  text0 <> [] -> blank text0 = true ->
  Generator.chunk_text text0 max_chars = [[]].
Proof.
  intros Hn Hb. rewrite generator_chunk_text_fold, (sentences_blank _ Hb).
  cbn [fold_left]. unfold add_sentence. cbn [current_chunk chunks truthy flush].
  destruct text0 as [|c t]; [congruence|].
  destruct (len [] + len (c :: t) + 1 <=? max_chars)%Z;
    cbn [flush current_chunk chunks truthy app];
    rewrite (blank_strip _ Hb); reflexivity.
Qed.

Lemma generator_solid_text (text0 : text) (max_chars : Z) :
  solid text0 -> Forall good_chunk (Generator.chunk_text text0 max_chars).
Proof.
  intros Hs. rewrite generator_chunk_text_fold. apply flush_good.
  apply fold_left_inv with (P := solid).
  - intros; apply add_sentence_sound; assumption.
  - apply sentences_solid. exact Hs.
  - split; [constructor | left; reflexivity].
Qed.

(** X17. [audiobook_generator.chunk_text] returns an empty chunk exactly
    for a text that is not empty and is white space only: the result is
    then the one empty chunk, where the chunker of [audiobook.py] returns
    no chunk. *)
Theorem generator_empty_chunk (text0 : text) (max_chars : Z) :
  (In [] (Generator.chunk_text text0 max_chars)
   <-> text0 <> [] /\ blank text0 = true) /\
  (In [] (Generator.chunk_text text0 max_chars)
   <-> Generator.chunk_text text0 max_chars = [[]]).
Proof.
  assert (H : In [] (Generator.chunk_text text0 max_chars)
              -> text0 <> [] /\ blank text0 = true).
  { intros Hin.
    assert (G : solid text0 -> False).
    { intros Hs. pose proof (generator_solid_text text0 max_chars Hs) as G.
      rewrite Forall_forall in G. destruct (G _ Hin) as [Hn _]. congruence. }
    destruct text0 as [|c t]; [exfalso; apply G; left; reflexivity|].
    split; [discriminate|].
    destruct (blank (c :: t)) eqn:Hb; [reflexivity|].
    exfalso. apply G. right. exact Hb. }
  split; split.
  - exact H.
  - intros [Hn Hb]. rewrite (generator_blank_text _ _ Hn Hb). left. reflexivity.
  - intros Hin. destruct (H Hin) as [Hn Hb]. exact (generator_blank_text _ _ Hn Hb).
  - intros ->. left. reflexivity.
Qed.

(** X18. For a text that is empty or has a character that is not
    white space, every chunk of [audiobook_generator.chunk_text] is
    non-empty and has no white space at its start or its end. *)
Theorem generator_chunks_clean (text0 : text) (max_chars : Z) :
  text0 = [] \/ blank text0 = false ->
  Forall (fun c => c <> [] /\ clean_edges c)
         (Generator.chunk_text text0 max_chars).
Proof. intros H. exact (generator_solid_text text0 max_chars H). Qed.

Lemma generator_chunks_clean_witness :
  Forall (fun c => c <> [] /\ clean_edges c)
         (Generator.chunk_text (str " One.  Two. Three. ") 10).
Proof.
  apply (generator_chunks_clean (str " One.  Two. Three. ") 10).
  right. reflexivity.
Defined.
(** * [str.replace] and the chapter pipeline *)

(** [s.replace(old, new)] is [new.join(s.split(old))]. *)
Lemma replace_go_join (old new : text) :
  forall s k, replace_go old new s k = join new (split_go old s k).
Proof.
  induction s as [|c s IH]; intros k; [reflexivity|].
  cbn [replace_go split_go]. destruct k as [|k]; [|apply IH].
  destruct (prefixb old (c :: s)).
  - rewrite IH, join_cons by apply split_go_nonempty. reflexivity.
  - rewrite IH, join_cons_head by apply split_go_nonempty. reflexivity.
Qed.

Lemma replace_join (old new s : text) :
  Py.replace old new s = join new (Py.split old s).
Proof. apply replace_go_join. Qed.

Lemma last_app (a b : text) :
  b <> [] -> hd_error (rev (a ++ b)) = hd_error (rev b).
Proof.
  intros H. rewrite rev_app_distr. apply hd_error_app.
  intros E. apply H. rewrite <- (rev_involutive b), E. reflexivity.
Qed.

(** Replacing by a text with clean edges keeps the edges clean. *)
Lemma replace_clean (old new s : text) :
  old <> [] -> new <> [] -> clean_edges new -> clean_edges s ->
  clean_edges (Py.replace old new s).
Proof.
  intros Ho Hn [Nh Nl] [Sh Sl]. split.
  - unfold Py.replace. destruct s as [|c s]; [discriminate|].
    cbn [replace_go]. destruct (prefixb old (c :: s)).
    + rewrite hd_error_app by exact Hn. exact Nh.
    + exact Sh.
  - rewrite replace_join.
    pose proof (split_join old s Ho) as J.
    destruct (exists_last (split_go_nonempty old s 0)) as [l [pn E]].
    unfold Py.split in *. rewrite E in *.
    destruct l as [|q l]; [simpl in *; rewrite J; exact Sl|].
    rewrite join_snoc in * by discriminate.
    destruct pn as [|x pn].
    + rewrite app_nil_r. intros c. rewrite last_app by exact Hn. apply Nl.
    + intros c. rewrite app_assoc, last_app by discriminate.
      intros H. apply Sl. rewrite <- J, app_assoc, last_app by discriminate.
      exact H.
Qed.

Lemma replacements_clean :
  Forall (fun kv => str (fst kv) <> [] /\ str (snd kv) <> [] /\
                    strip (str (snd kv)) = str (snd kv))
         Generator.replacements.
Proof.
  unfold Generator.replacements.
  repeat (constructor; [split; [discriminate | split; [discriminate | reflexivity]]|]).
  constructor.
Qed.

Lemma simple_tts_optimize_clean (t : text) :
  clean_edges t -> clean_edges (Generator.simple_tts_optimize t).
Proof.
  intros H. unfold Generator.simple_tts_optimize.
  apply fold_left_inv
    with (P := fun kv => str (fst kv) <> [] /\ str (snd kv) <> [] /\
                         strip (str (snd kv)) = str (snd kv));
    [|exact replacements_clean|exact H].
  intros a kv Ha [Ho [Hn Hs]]. unfold Generator.replace_one.
  apply replace_clean; try assumption.
  rewrite <- Hs. apply strip_clean.
Qed.

Lemma clean_markdown_for_tts_clean (unicode_digit : char -> bool) (content : text) :
  clean_edges (Generator.clean_markdown_for_tts unicode_digit content).
Proof. unfold Generator.clean_markdown_for_tts. cbv zeta. apply strip_clean. Qed.

(** X19. Whatever the chapter, every prompt that the chapter loop of
    [audiobook_generator.main] hands to the synthesis, that is every chunk
    of the cleaned and expanded chapter text, is non-empty and has no
    white space at its start or its end: the empty chunk that [chunk_text]
    gives for white space never arises there. *)
Theorem chapter_prompts_clean (unicode_digit : char -> bool) (content : text) :
  Forall (fun c => c <> [] /\ clean_edges c)
         (Generator.chapter_chunks unicode_digit content).
Proof.
  unfold Generator.chapter_chunks. cbv zeta.
  apply generator_solid_text.
  pose proof (simple_tts_optimize_clean _
                (clean_markdown_for_tts_clean unicode_digit content)) as C.
  destruct (Generator.simple_tts_optimize
              (Generator.clean_markdown_for_tts unicode_digit content))
    as [|c t] eqn:E; [left; reflexivity|].
  right. apply clean_nonblank; [discriminate | exact C].
Qed.

(** * The requests of a whole run *)








(** * [re.sub], one position after the other *)

Lemma sub_unfold (fl : flags) (r : regex) (repl : found -> text) (s : text) :
  Re.sub fl r repl s = sub_from fl r repl (S (List.length s)) [] s.
Proof. reflexivity. Qed.

(** Where the pattern does not match, the character is kept and the
    scan moves on. *)
Lemma sub_from_none (fl : flags) (r : regex) (repl : found -> text)
      (fuel : nat) (p : text) (c : char) (s' : text) :
  match_only repl ->
  Re.match_at fl r p (c :: s') = None ->
  sub_from fl r repl (S fuel) p (c :: s')
  = c :: sub_from fl r repl (S fuel) (c :: p) s'.
Proof.
  intros Hr M. unfold sub_from. cbn [Re.finditer_go Re.search]. rewrite M.
  destruct (Re.search fl r (c :: p) s') as [[st0 st1]|] eqn:Hs; [|reflexivity].
  destruct (search_spec _ _ _ _ _ _ Hs) as [a [E [P _]]].
  destruct st0 as [p0 r0 c0]. cbn [pre rest caps] in *. subst p0.
  assert (C1 : Re.consumed (start_at (c :: p) s')
                {| pre := rev a ++ c :: p; rest := r0; caps := c0 |} = a)
    by apply consumed_app.
  assert (C2 : Re.consumed (start_at p (c :: s'))
                {| pre := rev a ++ c :: p; rest := r0; caps := c0 |} = c :: a).
  { replace (rev a ++ c :: p) with (rev (c :: a) ++ p)
      by (simpl; rewrite <- app_assoc; reflexivity).
    apply consumed_app. }
  rewrite C1, C2. clear C1 C2.
  cbn [whole rev app].
  destruct (Re.consumed {| pre := rev a ++ c :: p; rest := r0; caps := c0 |} st1)
    as [|x w] eqn:W.
  - destruct (rest st1) as [|d s2].
    + cbn [flat_map skipped app]. rewrite !app_nil_r. cbn [app]. f_equal. f_equal.
      apply Hr; reflexivity.
    + destruct (Re.finditer_go fl fuel r (d :: pre st1) s2 [d]) as [fs tl].
      cbn [flat_map skipped app]. rewrite <- !app_assoc. cbn [app]. f_equal. f_equal.
      f_equal. apply Hr; reflexivity.
  - destruct (Re.finditer_go fl fuel r (pre st1) (rest st1) []) as [fs tl].
    cbn [flat_map skipped app]. rewrite <- !app_assoc. cbn [app]. f_equal. f_equal.
    f_equal. apply Hr; reflexivity.
Qed.

Lemma search_hit (fl : flags) (r : regex) (p s : text) (st : mstate) :
  Re.match_at fl r p s = Some st ->
  Re.search fl r p s = Some (start_at p s, st).
Proof. intros M. destruct s; cbn [Re.search]; rewrite M; reflexivity. Qed.

(** Where it matches, the replacement is put and the scan goes on
    after the match. *)
Lemma sub_from_some (fl : flags) (r : regex) (repl : found -> text)
      (fuel : nat) (p s : text) (st : mstate) :
  never_empty fl r ->
  Re.match_at fl r p s = Some st ->
  sub_from fl r repl (S fuel) p s
  = repl (found_at p s st) ++ sub_from fl r repl fuel (pre st) (rest st).
Proof.
  intros Hne M. unfold sub_from, found_at. cbn [Re.finditer_go].
  rewrite (search_hit _ _ _ _ _ M). cbn [whole].
  pose proof (Hne _ _ _ M) as L.
  destruct (match_at_advance _ _ _ _ _ M) as [w [R P]].
  assert (Hw : Re.consumed (start_at p s) st = w).
  { destruct st as [p1 r1 c1]. cbn [pre rest] in *. subst p1.
    apply consumed_app. }
  assert (H0 : Re.consumed (start_at p s) (start_at p s) = []).
  { unfold Re.consumed. rewrite Nat.sub_diag. reflexivity. }
  rewrite Hw, H0. destruct w as [|x w].
  - simpl in R. rewrite <- R in L. lia.
  - destruct (Re.finditer_go fl fuel r (pre st) (rest st) []) as [fs tl].
    cbn [flat_map skipped app rev]. rewrite app_assoc. reflexivity.
Qed.

(** Induction over the positions that [re.sub] visits. *)
Lemma sub_from_ind (fl : flags) (r : regex) (repl : found -> text)
      (P : text -> text -> text -> Prop) :
  match_only repl -> never_empty fl r ->
  (forall p, P p [] []) ->
  (forall p c s' res,
      Re.match_at fl r p (c :: s') = None ->
      P (c :: p) s' res -> P p (c :: s') (c :: res)) ->
  (forall p s st res,
      Re.match_at fl r p s = Some st ->
      P (pre st) (rest st) res -> P p s (repl (found_at p s st) ++ res)) ->
  forall fuel p s, (List.length s < fuel)%nat ->
                   P p s (sub_from fl r repl fuel p s).
Proof.
  intros Hr Hne Hend Hskip Hhit.
  induction fuel as [|fuel IHf]; intros p s L; [lia|].
  revert p L. induction s as [|c s IHs]; intros p L.
  - destruct (Re.match_at fl r p []) as [st|] eqn:M.
    + pose proof (Hne _ _ _ M) as L'. simpl in L'. lia.
    + unfold sub_from. cbn [Re.finditer_go Re.search]. rewrite M. apply Hend.
  - destruct (Re.match_at fl r p (c :: s)) as [st|] eqn:M.
    + rewrite (sub_from_some fl r repl fuel p (c :: s) st Hne M).
      apply Hhit; [exact M|]. apply IHf.
      pose proof (Hne _ _ _ M). lia.
    + rewrite (sub_from_none fl r repl fuel p c s Hr M).
      apply Hskip; [exact M|]. apply IHs. simpl in L. lia.
Qed.

Lemma sub_ind (fl : flags) (r : regex) (repl : found -> text)
      (P : text -> text -> text -> Prop) :
  match_only repl -> never_empty fl r ->
  (forall p, P p [] []) ->
  (forall p c s' res,
      Re.match_at fl r p (c :: s') = None ->
      P (c :: p) s' res -> P p (c :: s') (c :: res)) ->
  (forall p s st res,
      Re.match_at fl r p s = Some st ->
      P (pre st) (rest st) res -> P p s (repl (found_at p s st) ++ res)) ->
  forall s, P [] s (Re.sub fl r repl s).
Proof.
  intros Hr Hne Hend Hskip Hhit s. rewrite sub_unfold.
  apply (sub_from_ind fl r repl P Hr Hne Hend Hskip Hhit). lia.
Qed.

(** * Runs of one character *)

(** A greedy repetition of one character takes the whole run. *)
Lemma rep_greedy_run (fl : flags) (c : char)
      (k : text -> text -> option mstate) :
  (forall p r, k p r <> None) ->
  forall s lo p,
    Re.rep fl Greedy (only c) lo None p s k
    = if (lo <=? run c s)%nat
      then k (rev (firstn (run c s) s) ++ p) (skipn (run c s) s)
      else None.
Proof.
  intros Hk. induction s as [|x s IH]; intros lo p.
  - cbn [Re.rep run]. destruct lo; reflexivity.
  - cbn [Re.rep run cc_test only more_allowed andb option_map].
    rewrite andb_true_r. destruct (x =? c)%N eqn:E.
    + rewrite IH. cbn [firstn skipn rev].
      rewrite <- app_assoc. cbn [app].
      destruct lo as [|lo]; cbn [Nat.pred Nat.leb].
      * destruct (k (rev (firstn (run c s) s) ++ x :: p) (skipn (run c s) s)) eqn:K;
          [reflexivity | exfalso; exact (Hk _ _ K)].
      * destruct (lo <=? run c s)%nat; [|reflexivity].
        destruct (k (rev (firstn (run c s) s) ++ x :: p) (skipn (run c s) s)) eqn:K;
          [reflexivity | exfalso; exact (Hk _ _ K)].
    + destruct lo; reflexivity.
Qed.

Lemma match_at_least (fl : flags) (n : nat) (c : char) (p s : text) :
  Re.match_at fl (at_least n (only c)) p s
  = if (n <=? run c s)%nat
    then Some {| pre := rev (firstn (run c s) s) ++ p;
                 rest := skipn (run c s) s; caps := [] |}
    else None.
Proof.
  unfold Re.match_at, at_least. cbn [Re.exec start_at pre rest caps].
  apply rep_greedy_run. discriminate.
Qed.

Lemma run_skipn (c : char) (s : text) : run c (skipn (run c s) s) = 0%nat.
Proof.
  induction s as [|x s IH]; [reflexivity|]. cbn [run].
  destruct (x =? c)%N eqn:E; [exact IH|]. cbn [skipn run]. rewrite E. reflexivity.
Qed.

Lemma skipn_run_length (c : char) (s : text) :
  (List.length (skipn (run c s) s) + run c s = List.length s)%nat.
Proof.
  induction s as [|x s IH]; [reflexivity|]. cbn [run].
  destruct (x =? c)%N; cbn [skipn List.length]; lia.
Qed.

Lemma at_least_never_empty (fl : flags) (n : nat) (c : char) :
  (0 < n)%nat -> never_empty fl (at_least n (only c)).
Proof.
  intros Hn p s st M. rewrite match_at_least in M.
  destruct (Nat.leb_spec n (run c s)) as [L|L]; [|discriminate].
  injection M as <-. cbn [rest].
  pose proof (skipn_run_length c s). lia.
Qed.

Lemma run_repeat (c : char) (m : nat) (s : text) :
  run c (repeat c m ++ s) = (m + run c s)%nat.
Proof.
  induction m as [|m IH]; [reflexivity|].
  cbn [repeat app run]. rewrite N.eqb_refl, IH. reflexivity.
Qed.

Lemma short_runs_repeat (c : char) (n m : nat) (s : text) :
  (m < n)%nat -> run c s = 0%nat -> short_runs c n s = true ->
  short_runs c n (repeat c m ++ s) = true.
Proof.
  intros Hm H0 Hs. induction m as [|m IH]; [exact Hs|].
  change (repeat c (S m) ++ s) with (c :: repeat c m ++ s).
  cbn [short_runs]. rewrite IH by lia. rewrite andb_true_r.
  change (c :: repeat c m ++ s) with (repeat c (S m) ++ s).
  rewrite run_repeat, H0. apply Nat.ltb_lt. lia.
Qed.

(** After [re.sub] of [c{n,}] by fewer than [n] times [c], no [n]
    consecutive [c] are left. *)
Lemma sub_at_least_short (fl : flags) (n m : nat) (c : char) (s : text) :
  (m < n)%nat ->
  short_runs c n (Re.sub fl (at_least n (only c)) (fun _ => repeat c m) s) = true.
Proof.
  intros Hm.
  apply (sub_ind fl (at_least n (only c)) (fun _ => repeat c m)
           (fun _ s res => short_runs c n res = true /\
                           (run c s < n -> run c res <= run c s)%nat /\
                           (n <= run c s -> run c res < n)%nat)).
  - intros f f' _ _. reflexivity.
  - apply at_least_never_empty. lia.
  - intros _. split; [reflexivity|]. split; simpl; lia.
  - intros p x s' res M [Hs [Hlow Hhigh]].
    rewrite match_at_least in M.
    destruct (Nat.leb_spec n (run c (x :: s'))) as [L|L]; [discriminate|].
    assert (R : (run c (x :: res) <= run c (x :: s'))%nat).
    { cbn [run] in *. destruct (x =? c)%N; [|lia].
      assert (run c s' < n)%nat by lia. specialize (Hlow H). lia. }
    split; [|split; [intros _; exact R | lia]].
    cbn [short_runs]. rewrite Hs, andb_true_r. apply Nat.ltb_lt. lia.
  - intros p s0 st res M [Hs [Hlow _]].
    rewrite match_at_least in M.
    destruct (Nat.leb_spec n (run c s0)) as [L|L]; [|discriminate].
    injection M as <-. cbn [pre rest] in *.
    rewrite run_skipn in Hlow.
    assert (R0 : run c res = 0%nat) by (specialize (Hlow ltac:(lia)); lia).
    split; [apply short_runs_repeat; assumption|].
    rewrite run_repeat, R0. split; lia.
Qed.

Lemma prefixb_repeat (c : char) (n : nat) (s : text) :
  prefixb (repeat c n) s = (n <=? run c s)%nat.
Proof.
  revert s. induction n as [|n IH]; intros s; [reflexivity|].
  destruct s as [|x s]; [reflexivity|].
  cbn [repeat prefixb run]. rewrite (N.eqb_sym c x).
  destruct (x =? c)%N; [apply IH | reflexivity].
Qed.

(** [short_runs] says that [n] times [c] is not a part of the text. *)
Lemma short_runs_contains (c : char) (n : nat) (s : text) :
  (0 < n)%nat ->
  contains (repeat c n) s = negb (short_runs c n s).
Proof.
  intros Hn. induction s as [|x s IH].
  - cbn [contains short_runs]. rewrite prefixb_repeat. cbn [run].
    destruct n; [lia | reflexivity].
  - cbn [contains short_runs]. rewrite prefixb_repeat, IH, negb_andb.
    f_equal. rewrite Nat.ltb_antisym, negb_involutive. reflexivity.
Qed.

Lemma run_app_le (c : char) (a b : text) : (run c a <= run c (a ++ b))%nat.
Proof.
  induction a as [|x a IH]; [simpl; lia|].
  cbn [app run]. destruct (x =? c)%N; lia.
Qed.

Lemma short_runs_app (c : char) (n : nat) (a b : text) :
  short_runs c n (a ++ b) = true ->
  short_runs c n a = true /\ short_runs c n b = true.
Proof.
  induction a as [|x a IH]; intros H; [split; [reflexivity | exact H]|].
  change ((x :: a) ++ b) with (x :: a ++ b) in H.
  cbn [short_runs] in H |- *. apply andb_true_iff in H as [H1 H2].
  destruct (IH H2) as [Ha Hb]. split; [|exact Hb].
  rewrite Ha, andb_true_r. apply Nat.ltb_lt. apply Nat.ltb_lt in H1.
  pose proof (run_app_le c (x :: a) b). simpl app in H. lia.
Qed.

Lemma short_runs_strip (c : char) (n : nat) (s : text) :
  short_runs c n s = true -> short_runs c n (strip s) = true.
Proof.
  intros H. destruct (strip_split s) as [w1 [w2 [E _]]].
  rewrite E in H. apply short_runs_app in H as [_ H].
  apply short_runs_app in H as [H _]. exact H.
Qed.

Lemma run_app_stop (c x : char) (a b : text) :
  x <> c -> run c (a ++ x :: b) = run c a.
Proof.
  intros Hx. induction a as [|y a IH].
  - cbn [app run]. destruct (N.eqb_spec x c); [congruence | reflexivity].
  - cbn [app run]. rewrite IH. reflexivity.
Qed.

(** A character other than [c] ends every run of [c]. *)
Lemma short_runs_sep (c x : char) (n : nat) (a b : text) :
  x <> c -> (0 < n)%nat ->
  short_runs c n (a ++ x :: b) = short_runs c n a && short_runs c n b.
Proof.
  intros Hx Hn. induction a as [|y a IH].
  - cbn [app short_runs run]. destruct (N.eqb_spec x c); [congruence|].
    destruct n; [lia | reflexivity].
  - change ((y :: a) ++ x :: b) with (y :: a ++ x :: b).
    cbn [short_runs]. rewrite IH, andb_assoc. f_equal. f_equal.
    change (y :: a ++ x :: b) with ((y :: a) ++ x :: b).
    rewrite run_app_stop by exact Hx. reflexivity.
Qed.

Lemma short_runs_join (c x : char) (n : nat) (l : list text) :
  x <> c -> (0 < n)%nat ->
  short_runs c n (join [x] l) = forallb (short_runs c n) l.
Proof.
  intros Hx Hn. induction l as [|p l IH]; [reflexivity|].
  destruct l as [|q l].
  - cbn [join forallb]. rewrite andb_true_r. reflexivity.
  - rewrite join_cons by discriminate. cbn [app forallb].
    rewrite short_runs_sep by assumption. rewrite IH. reflexivity.
Qed.

Lemma short_runs_strip_lines (c : char) (n : nat) (t : text) :
  NL <> c -> (0 < n)%nat ->
  short_runs c n t = true ->
  short_runs c n (join [NL] (List.map strip (Py.split [NL] t))) = true.
Proof.
  intros Hc Hn H.
  rewrite <- (split_join [NL] t) in H by discriminate.
  rewrite short_runs_join in * by assumption.
  rewrite forallb_forall in *. intros x Hx.
  apply in_map_iff in Hx as [y [<- Hy]].
  apply short_runs_strip, H, Hy.
Qed.

(** X21. The text that [markdown_to_text] returns never has two
    consecutive spaces. *)
Theorem no_double_space
        (unicode_word unicode_digit : char -> bool) (markdown_text : text) :
  contains [SP; SP] (markdown_to_text unicode_word unicode_digit markdown_text)
  = false.
Proof.
  change [SP; SP] with (repeat SP 2).
  rewrite short_runs_contains by lia. apply negb_false_iff.
  assert (E : exists t0,
             markdown_to_text unicode_word unicode_digit markdown_text
             = strip (join [NL] (List.map strip (Py.split [NL]
                 (Re.sub no_flags re_spaces (fun _ => [SP]) t0))))).
  { unfold markdown_to_text. cbv zeta. eexists. reflexivity. }
  destruct E as [t0 ->].
  apply short_runs_strip, short_runs_strip_lines; [discriminate | lia |].
  exact (sub_at_least_short no_flags 2 1 SP t0 ltac:(lia)).
Qed.

(** X22. The text that [clean_markdown_for_tts] returns never has three
    consecutive newlines: paragraphs are at most one blank line apart. *)
Theorem no_triple_newline (unicode_digit : char -> bool) (content : text) :
  contains [NL; NL; NL] (Generator.clean_markdown_for_tts unicode_digit content)
  = false.
Proof.
  change [NL; NL; NL] with (repeat NL 3).
  rewrite short_runs_contains by lia. apply negb_false_iff.
  unfold Generator.clean_markdown_for_tts. cbv zeta.
  apply short_runs_strip.
  exact (sub_at_least_short no_flags 3 2 NL _ ltac:(lia)).
Qed.

(** * The table of abbreviations *)

(** A literal matches where it is a prefix of what is left. *)
Lemma exec_chars (fl : flags) (l : list char) :
  forall st k,
    Re.exec fl (seq (List.map chr l)) st k
    = if prefixb l (rest st)
      then k {| pre := rev l ++ pre st;
                rest := skipn (List.length l) (rest st);
                caps := caps st |}
      else None.
Proof.
  induction l as [|a l IH]; intros st k.
  - destruct st; reflexivity.
  - change (seq (List.map chr (a :: l)))
      with (Seq (chr a) (seq (List.map chr l))).
    cbn [Re.exec chr]. destruct (rest st) as [|c r'] eqn:R; [reflexivity|].
    cbn [cc_test prefixb]. rewrite (N.eqb_sym a c).
    destruct (N.eqb_spec c a) as [->|]; [|reflexivity].
    rewrite IH. cbn [pre rest caps andb List.length skipn rev].
    rewrite <- app_assoc. reflexivity.
Qed.

Lemma exec_lit (fl : flags) (k : string) (st : mstate)
      (K : mstate -> option mstate) :
  Re.exec fl (lit k) st K
  = if prefixb (str k) (rest st)
    then K {| pre := rev (str k) ++ pre st;
              rest := skipn (List.length (str k)) (rest st);
              caps := caps st |}
    else None.
Proof. apply exec_chars. Qed.

(** Where an entry of the table matches: the key is there, between two
    word boundaries. *)
Lemma match_abbr (fl : flags) (unicode_word : char -> bool) (k : string)
      (p s : text) :
  Re.match_at fl (re_abbr unicode_word k) p s
  = if xorb (starts_word (is_word unicode_word) p)
            (starts_word (is_word unicode_word) s)
       && prefixb (str k) s
       && xorb (starts_word (is_word unicode_word) (rev (str k) ++ p))
               (starts_word (is_word unicode_word)
                            (skipn (List.length (str k)) s))
    then Some {| pre := rev (str k) ++ p;
                 rest := skipn (List.length (str k)) s;
                 caps := [] |}
    else None.
Proof.
  unfold Re.match_at, re_abbr, wb.
  change (seq [WordB (is_word unicode_word); lit k; WordB (is_word unicode_word)])
    with (Seq (WordB (is_word unicode_word))
              (Seq (lit k) (Seq (WordB (is_word unicode_word)) Eps))).
  cbn [Re.exec]. unfold Re.word_before, Re.word_after, start_at at 1 2.
  cbn [pre rest]. fold (starts_word (is_word unicode_word) p).
  fold (starts_word (is_word unicode_word) s).
  destruct (xorb (starts_word (is_word unicode_word) p)
                 (starts_word (is_word unicode_word) s)); [|reflexivity].
  rewrite exec_lit. cbn [start_at pre rest caps andb].
  destruct (prefixb (str k) s); [|reflexivity].
  cbn [Re.exec andb]. unfold Re.word_before, Re.word_after. cbn [pre rest].
  fold (starts_word (is_word unicode_word) (rev (str k) ++ p)).
  fold (starts_word (is_word unicode_word) (skipn (List.length (str k)) s)).
  reflexivity.
Qed.

Lemma search_none (fl : flags) (r : regex) (s : text) :
  forall p,
    (forall a b, s = a ++ b -> Re.match_at fl r (rev a ++ p) b = None) ->
    Re.search fl r p s = None.
Proof.
  induction s as [|c s IH]; intros p H; cbn [Re.search].
  - pose proof (H [] [] eq_refl) as H0. cbn [rev app] in H0.
    rewrite H0. reflexivity.
  - pose proof (H [] (c :: s) eq_refl) as H0. cbn [rev app] in H0.
    rewrite H0. apply IH.
    intros a b E. specialize (H (c :: a) b). cbn [rev] in H.
    rewrite <- app_assoc in H. apply H. rewrite E. reflexivity.
Qed.

Lemma glued_app (w : char -> bool) (k a b : text) :
  glued w k (a ++ b) = false -> glued w k b = false.
Proof.
  induction a as [|x a IH]; intros H; [exact H|].
  apply IH. cbn [app glued] in H. apply orb_false_iff in H. tauto.
Qed.

(** A key that ends with a character that is no word character is
    replaced only where a word character follows it. *)
Lemma dotted_key_idle (unicode_word : char -> bool) (k e : string)
      (k0 : text) (d : char) (t : text) :
  str k = k0 ++ [d] -> is_word unicode_word d = false ->
  glued (is_word unicode_word) (str k) t = false ->
  expand_one unicode_word t (k, e) = t.
Proof.
  intros Hk Hd Hg. unfold expand_one. cbn [fst snd].
  apply sub_no_match. unfold no_match.
  rewrite search_none; [reflexivity|].
  intros a b E. rewrite match_abbr.
  rewrite E in Hg. apply glued_app in Hg.
  assert (G : prefixb (str k) b
              && starts_word (is_word unicode_word)
                             (skipn (List.length (str k)) b) = false).
  { destruct b; cbn [glued] in Hg; apply orb_false_iff in Hg; tauto. }
  assert (W : starts_word (is_word unicode_word) (rev (str k) ++ rev a ++ [])
              = false).
  { rewrite Hk, rev_app_distr. cbn [rev app starts_word]. exact Hd. }
  rewrite W, xorb_false_l.
  destruct (prefixb (str k) b);
    destruct (starts_word (is_word unicode_word) (skipn (List.length (str k)) b));
    cbn [andb] in G |- *; try discriminate;
    rewrite ?andb_false_r; reflexivity.
Qed.

(** X23. The entries for e.g., i.e., etc. and vs. are without effect on
    a text in which none of these abbreviations is directly followed by
    a word character: written as usual, before a space, a comma or the
    end, they are never expanded, and the table acts as if it began after
    them. *)
Theorem dotted_entries_idle (unicode_word : char -> bool) (t : text) :
  (forall kv, In kv dotted_entries ->
              glued (is_word unicode_word) (str (fst kv)) t = false) ->
  Forall (fun kv => expand_one unicode_word t kv = t) dotted_entries /\
  expand_abbreviations unicode_word t
  = fold_left (expand_one unicode_word) (skipn 4 abbreviations) t.
Proof.
  intros H.
  assert (F : Forall (fun kv => expand_one unicode_word t kv = t) dotted_entries).
  { apply Forall_forall. intros [k e] Hin. specialize (H _ Hin). cbn [fst] in H.
    unfold dotted_entries, abbreviations in Hin. cbn [firstn] in Hin.
    destruct Hin as [E | [E | [E | [E | []]]]]; injection E as <- <-.
    - apply (dotted_key_idle unicode_word _ _ (str "e.g") 46);
        [reflexivity | reflexivity | exact H].
    - apply (dotted_key_idle unicode_word _ _ (str "i.e") 46);
        [reflexivity | reflexivity | exact H].
    - apply (dotted_key_idle unicode_word _ _ (str "etc") 46);
        [reflexivity | reflexivity | exact H].
    - apply (dotted_key_idle unicode_word _ _ (str "vs") 46);
        [reflexivity | reflexivity | exact H]. }
  split; [exact F|].
  unfold expand_abbreviations.
  rewrite <- (firstn_skipn 4 abbreviations) at 1.
  rewrite fold_left_app. f_equal.
  fold dotted_entries. revert F. generalize dotted_entries.
  induction l as [|kv l IH]; intros F; [reflexivity|].
  inversion F as [|? ? Hkv Hl]; subst. cbn [fold_left]. rewrite Hkv. exact (IH Hl).
Qed.

Lemma dotted_entries_idle_witness :
  Forall (fun kv => expand_one no_unicode
                      (str "Use e.g. JSON, i.e. text, etc.") kv
                    = str "Use e.g. JSON, i.e. text, etc.") dotted_entries /\
  expand_abbreviations no_unicode (str "Use e.g. JSON, i.e. text, etc.")
  = fold_left (expand_one no_unicode) (skipn 4 abbreviations)
              (str "Use e.g. JSON, i.e. text, etc.").
Proof.
  apply (dotted_entries_idle no_unicode (str "Use e.g. JSON, i.e. text, etc.")).
  intros kv [<- | [<- | [<- | [<- | []]]]]; reflexivity.
Defined.
(** * The entry of the key JSON-RPC *)

Lemma sub_scan (fl : flags) (r : regex) (repl : found -> text) (s : text) :
  match_only repl -> never_empty fl r ->
  scan fl r repl [] s (Re.sub fl r repl s).
Proof.
  intros Hr Hne. apply (sub_ind fl r repl (scan fl r repl) Hr Hne).
  - apply scan_end.
  - intros; apply scan_skip; assumption.
  - intros; apply scan_hit; assumption.
Qed.

Lemma prefixb_le (k s : text) :
  prefixb k s = true -> (List.length k <= List.length s)%nat.
Proof.
  revert s. induction k as [|a k IH]; intros s H; [simpl; lia|].
  destruct s as [|b s]; [discriminate|]. cbn [prefixb] in H.
  apply andb_true_iff in H as [_ H]. specialize (IH _ H). simpl. lia.
Qed.

Lemma abbr_never_empty (fl : flags) (unicode_word : char -> bool) (k : string) :
  str k <> [] -> never_empty fl (re_abbr unicode_word k).
Proof.
  intros Hk p s st M. rewrite match_abbr in M.
  destruct (prefixb (str k) s) eqn:Pf.
  - match type of M with (if ?b then _ else _) = _ => destruct b end;
      [|discriminate].
    injection M as <-. cbn [rest]. rewrite length_skipn.
    pose proof (prefixb_le _ _ Pf).
    destruct (str k); [congruence|]. simpl in *. lia.
  - rewrite andb_false_r in M. discriminate.
Qed.

Lemma match_abbr_absent (fl : flags) (unicode_word : char -> bool) (k : string)
      (p s : text) :
  prefixb (str k) s = false ->
  Re.match_at fl (re_abbr unicode_word k) p s = None.
Proof. intros H. rewrite match_abbr, H, andb_false_r. reflexivity. Qed.

(** With a constant replacement, a character of the result other than
    the first of the replacement was kept from the subject. *)
Lemma scan_kept (fl : flags) (r : regex) (e : text) (x : char) (e' : text)
      (p s : text) (d : char) (res : text) :
  e = x :: e' -> d <> x ->
  scan fl r (fun _ => e) p s (d :: res) ->
  exists s', s = d :: s' /\ scan fl r (fun _ => e) (d :: p) s' res.
Proof.
  intros He Hd H. subst e. inversion H; subst.
  - eexists. split; [reflexivity | assumption].
  - exfalso. simpl in *. congruence.
Qed.

(** After the entry of JSON has been applied, the key JSON-RPC matches
    nowhere. *)
Lemma json_scan_no_rpc (unicode_word : char -> bool) (p s res : text) :
  scan no_flags (re_abbr unicode_word "JSON") (fun _ => str "Jason") p s res ->
  forall q,
    starts_word (is_word unicode_word) q = starts_word (is_word unicode_word) p ->
    Re.search no_flags (re_abbr unicode_word "JSON-RPC") q res = None.
Proof.
  induction 1 as [ p | p c s res M H IH | p s st res M H IH ]; intros q Hq.
  - cbn [Re.search]. rewrite match_abbr_absent by reflexivity. reflexivity.
  - cbn [Re.search].
    assert (M2 : Re.match_at no_flags (re_abbr unicode_word "JSON-RPC") q (c :: res)
                 = None).
    { destruct (prefixb (str "JSON-RPC") (c :: res)) eqn:Pf;
        [|apply match_abbr_absent; exact Pf].
      apply prefixb_skipn in Pf.
      remember (skipn (List.length (str "JSON-RPC")) (c :: res)) as rr eqn:Err.
      clear Err. cbn in Pf. injection Pf as -> ->.
      destruct (scan_kept _ _ _ 74%N (str "ason") _ _ 83%N _ eq_refl ltac:(discriminate) H)
        as [s1 [-> H1]].
      destruct (scan_kept _ _ _ 74%N (str "ason") _ _ 79%N _ eq_refl ltac:(discriminate) H1)
        as [s2 [-> H2]].
      destruct (scan_kept _ _ _ 74%N (str "ason") _ _ 78%N _ eq_refl ltac:(discriminate) H2)
        as [s3 [-> H3]].
      destruct (scan_kept _ _ _ 74%N (str "ason") _ _ 45%N _ eq_refl ltac:(discriminate) H3)
        as [s4 [-> H4]].
      rewrite match_abbr in M |- *. rewrite Hq.
      destruct (starts_word (is_word unicode_word) p).
      - reflexivity.
      - exfalso. cbn in M. discriminate M. }
    rewrite M2. apply IH. reflexivity.
  - rewrite match_abbr in M.
    match type of M with (if ?b then _ else _) = _ => destruct b end;
      [|discriminate].
    injection M as <-. cbn [pre rest] in *.
    change (str "Jason" ++ res) with (74%N :: 97%N :: 115%N :: 111%N :: 110%N :: res).
    cbn [Re.search].
    rewrite !match_abbr_absent by reflexivity.
    apply IH. reflexivity.
Qed.

(** X24. The entry of the key JSON-RPC never takes part: for every
    text, the table of abbreviations gives what it gives without that
    entry.  The entry of JSON, which comes first, has replaced every JSON
    that stands as a word, and with it every JSON-RPC. *)
Theorem json_rpc_entry_dead (unicode_word : char -> bool) (t : text) :
  expand_abbreviations unicode_word t
  = fold_left (expand_one unicode_word) without_json_rpc t.
Proof.
  assert (A : abbreviations
              = firstn 6 abbreviations
                ++ [("JSON", "Jason"); ("JSON-RPC", "Jason R P C")]%string
                ++ skipn 8 abbreviations) by reflexivity.
  assert (B : without_json_rpc
              = firstn 6 abbreviations
                ++ [("JSON", "Jason")]%string
                ++ skipn 8 abbreviations) by reflexivity.
  unfold expand_abbreviations. rewrite B, A at 1.
  rewrite !fold_left_app. f_equal. cbn [fold_left].
  unfold expand_one at 1. cbn [fst snd].
  apply sub_no_match. unfold no_match, expand_one. cbn [fst snd].
  rewrite (json_scan_no_rpc unicode_word [] _ _
             (sub_scan no_flags (re_abbr unicode_word "JSON")
                       (fun _ => str "Jason") _
                       (fun _ _ _ _ => eq_refl)
                       (abbr_never_empty no_flags unicode_word "JSON"
                                         ltac:(discriminate)))
             [] eq_refl).
  reflexivity.
Qed.

(** * [str.replace]: what is left of the old text *)

Lemma replace_go_skip (old new : text) :
  forall s k, replace_go old new s k = replace_go old new (skipn k s) 0.
Proof.
  induction s as [|c s IH]; intros k; destruct k as [|k]; try reflexivity.
  cbn [replace_go skipn]. apply IH.
Qed.

Lemma replace_hit (old new : text) (c : char) (s : text) :
  prefixb old (c :: s) = true ->
  Py.replace old new (c :: s)
  = new ++ Py.replace old new (skipn (List.length old - 1) s).
Proof.
  intros H. unfold Py.replace. cbn [replace_go]. rewrite H.
  rewrite replace_go_skip. reflexivity.
Qed.

Lemma replace_skip (old new : text) (c : char) (s : text) :
  prefixb old (c :: s) = false ->
  Py.replace old new (c :: s) = c :: Py.replace old new s.
Proof. intros H. unfold Py.replace. cbn [replace_go]. rewrite H. reflexivity. Qed.

Lemma mismatch_sym (a b : text) : mismatch a b = mismatch b a.
Proof.
  revert b. induction a as [|x a IH]; intros [|y b]; try reflexivity.
  cbn [mismatch]. rewrite (N.eqb_sym x y), IH. reflexivity.
Qed.

Lemma mismatch_prefix (k n r : text) :
  mismatch k n = true -> prefixb k (n ++ r) = false.
Proof.
  revert n. induction k as [|x k IH]; intros [|y n] H; try discriminate.
  cbn [mismatch] in H. cbn [app prefixb].
  destruct (x =? y)%N; [apply IH; exact H | reflexivity].
Qed.

(** [k] does not start inside [n]. *)
Lemma clear_of_app (k n r : text) :
  clear_of k n = true -> contains k (n ++ r) = contains k r.
Proof.
  induction n as [|y n IH]; intros H; [reflexivity|].
  cbn [clear_of] in H. apply andb_true_iff in H as [H1 H2].
  change ((y :: n) ++ r) with (y :: n ++ r). cbn [contains].
  change (y :: n ++ r) with ((y :: n) ++ r).
  rewrite (mismatch_prefix _ _ _ H1), (IH H2). reflexivity.
Qed.

(** A text that cannot start where the new text starts, and that the
    result starts with, was kept from the subject. *)
Lemma kept_prefix (old new : text) :
  forall k s, clear_of new k = true ->
              prefixb k (Py.replace old new s) = true -> prefixb k s = true.
Proof.
  induction k as [|x k IH]; intros s Hc Hp; [reflexivity|].
  cbn [clear_of] in Hc. apply andb_true_iff in Hc as [H1 H2].
  destruct s as [|c s]; [discriminate|].
  destruct (prefixb old (c :: s)) eqn:E.
  - rewrite (replace_hit _ _ _ _ E) in Hp. rewrite mismatch_sym in H1.
    rewrite (mismatch_prefix _ _ _ H1) in Hp. discriminate.
  - rewrite (replace_skip _ _ _ _ E) in Hp. cbn [prefixb] in Hp |- *.
    apply andb_true_iff in Hp as [Hx Hk]. rewrite Hx, (IH s H2 Hk). reflexivity.
Qed.

(** When the old text cannot start inside the new one, nor the new one
    inside the old one, no occurrence of the old text is left. *)
Lemma replace_gone (old new : text) (x : char) (old' : text) :
  old = x :: old' ->
  clear_of old new = true -> clear_of new old' = true ->
  forall s, contains old (Py.replace old new s) = false.
Proof.
  intros Ho H1 H2.
  assert (G : forall n s, (List.length s < n)%nat ->
                          contains old (Py.replace old new s) = false).
  { induction n as [|n IH]; intros s L; [lia|].
    destruct s as [|c s].
    - subst old. reflexivity.
    - destruct (prefixb old (c :: s)) eqn:E.
      + rewrite (replace_hit _ _ _ _ E), (clear_of_app _ _ _ H1). apply IH.
        rewrite length_skipn. simpl in L. lia.
      + rewrite (replace_skip _ _ _ _ E). cbn [contains].
        rewrite (IH s) by (simpl in L; lia). rewrite orb_false_r.
        destruct (prefixb old (c :: Py.replace old new s)) eqn:P; [|reflexivity].
        exfalso. subst old. cbn [prefixb] in P, E.
        apply andb_true_iff in P as [Px Pk].
        rewrite Px, (kept_prefix _ _ _ _ H2 Pk) in E. discriminate. }
  intros s. apply (G (S (List.length s))). lia.
Qed.

Lemma prefixb_app_l (k y s : text) :
  prefixb (k ++ y) s = true -> prefixb k s = true.
Proof.
  revert s. induction k as [|a k IH]; intros s H; [reflexivity|].
  destruct s as [|b s]; [discriminate|]. cbn [app prefixb] in H |- *.
  apply andb_true_iff in H as [H1 H2]. rewrite H1, (IH _ H2). reflexivity.
Qed.

Lemma contains_app_l (k y s : text) :
  contains k s = false -> contains (k ++ y) s = false.
Proof.
  induction s as [|c s IH]; cbn [contains]; intros H;
    apply orb_false_iff in H as [H1 H2].
  - destruct (prefixb (k ++ y) []) eqn:E; [|reflexivity].
    rewrite (prefixb_app_l _ _ _ E) in H1. discriminate.
  - rewrite (IH H2), orb_false_r.
    destruct (prefixb (k ++ y) (c :: s)) eqn:E; [|reflexivity].
    rewrite (prefixb_app_l _ _ _ E) in H1. discriminate.
Qed.

Lemma replace_absent (old new s : text) :
  contains old s = false -> Py.replace old new s = s.
Proof.
  induction s as [|c s IH]; intros H; [reflexivity|].
  cbn [contains] in H. apply orb_false_iff in H as [H1 H2].
  rewrite (replace_skip _ _ _ _ H1), (IH H2). reflexivity.
Qed.

(** An entry whose key adds to the key of the entry before it finds
    nothing to replace. *)
Lemma shadowed_step (k e k2 e2 : string) (x : char) (k' y : text) (t : text) :
  str k = x :: k' -> str k2 = str k ++ y ->
  clear_of (str k) (str e) = true -> clear_of (str e) k' = true ->
  Generator.replace_one (Generator.replace_one t (k, e)) (k2, e2)
  = Generator.replace_one t (k, e).
Proof.
  intros Hk Hk2 H1 H2. unfold Generator.replace_one at 1. cbn [fst snd].
  apply replace_absent. rewrite Hk2. apply contains_app_l.
  unfold Generator.replace_one. cbn [fst snd].
  exact (replace_gone _ _ _ _ Hk H1 H2 t).
Qed.

(** X25. In [simple_tts_optimize] the entries of APIs, HTTPS, URLs and
    LLMs never take part: [str.replace] with the shorter key before them
    has left no API, HTTP, URL or LLM in the text.  For every text the
    table gives what it gives without these four entries; so HTTPS comes
    out as the expansion of HTTP followed by S. *)
Theorem shadowed_entries_dead (t : text) :
  Generator.simple_tts_optimize t
  = fold_left Generator.replace_one effective_replacements t.
Proof.
  assert (B : effective_replacements
              = [ ("MCP", "M C P"); ("API", "A P I"); ("JSON", "Jason");
                  ("HTTP", "H T T P"); ("URL", "U R L"); ("CLI", "C L I");
                  ("SDK", "S D K"); ("SSE", "S S E");
                  ("STDIO", "standard I O"); ("AI", "A I"); ("LLM", "L L M");
                  ("e.g.", "for example"); ("i.e.", "that is");
                  ("etc.", "et cetera") ]%string) by reflexivity.
  rewrite B. unfold Generator.simple_tts_optimize, Generator.replacements.
  cbn [fold_left].
  rewrite (shadowed_step "API" "A P I" "APIs" "A P Is" 65 (str "PI") (str "s"))
    by reflexivity.
  rewrite (shadowed_step "HTTP" "H T T P" "HTTPS" "H T T P S" 72 (str "TTP") (str "S"))
    by reflexivity.
  rewrite (shadowed_step "URL" "U R L" "URLs" "U R Ls" 85 (str "RL") (str "s"))
    by reflexivity.
  rewrite (shadowed_step "LLM" "L L M" "LLMs" "L L Ms" 76 (str "LM") (str "s"))
    by reflexivity.
  reflexivity.
Qed.

(** * The run over the chapters *)

Section Chapters.

Import GeneratorMain.

Variable w : world.
Variable unicode_digit : char -> bool.

Lemma g_emit (e : gevent) (s : list gevent) :
  GeneratorMain.emit e s = (Returned tt, s ++ [e]).
Proof. reflexivity. Qed.

(** [generate_audio_chunk] returns, whatever happens, and tells whether
    the chunk was delivered. *)
Lemma generate_audio_chunk_run (t voice_url : text) (p : gpath)
      (s : list gevent) :
  generate_audio_chunk w t voice_url p s
  = (Returned (delivered w p t voice_url), s ++ chunk_trace w p t voice_url).
Proof.
  unfold generate_audio_chunk, delivered, chunk_trace, try_except, bind,
    GeneratorMain.call, bind, GeneratorMain.emit, modify, ret, raise.
  destruct (tts_run w p t voice_url) as [output|x]; [|rewrite <- app_assoc; reflexivity].
  destruct (truthy output); [|reflexivity].
  destruct (http_get w p output) as [response|x];
    [|rewrite <- !app_assoc; reflexivity].
  cbn [andb]. destruct (fst response =? 200)%Z;
    [|rewrite <- !app_assoc; reflexivity].
  destruct (write_audio w p (snd response)) as [[]|x];
    rewrite <- !app_assoc; reflexivity.
Qed.

Lemma chunk_loop_run (name voice_url : text) (l : list text) :
  forall i files s,
    chunk_loop w name voice_url i l files s
    = (Returned (files ++ delivered_files w name voice_url i l),
       s ++ chunks_trace w name voice_url i l).
Proof.
  induction l as [|c l IH]; intros i files s.
  - cbn. rewrite !app_nil_r. reflexivity.
  - cbn [chunk_loop chunks_trace delivered_files]. cbv zeta.
    unfold bind at 1. rewrite g_emit.
    unfold bind at 1. rewrite generate_audio_chunk_run.
    destruct (delivered w (ChunkAudio name i) c voice_url).
    + unfold bind at 1. cbn [ret]. unfold bind at 1. rewrite g_emit.
      rewrite IH. rewrite <- !app_assoc. reflexivity.
    + unfold bind at 1. unfold bind at 1. rewrite g_emit. cbn [ret].
      unfold bind at 1. rewrite g_emit.
      rewrite IH. rewrite <- !app_assoc. reflexivity.
Qed.

Lemma chunk_trace_requests (p : gpath) (t voice_url : text) :
  filter is_tts_request (chunk_trace w p t voice_url) = [Request t voice_url] /\
  filter is_pause (chunk_trace w p t voice_url) = [] /\
  filter is_final (chunk_trace w p t voice_url) = [].
Proof.
  unfold chunk_trace.
  destruct (tts_run w p t voice_url) as [output|x]; [|auto].
  destruct (truthy output); [|auto].
  destruct (http_get w p output) as [response|x]; [|auto].
  destruct (fst response =? 200)%Z; [|auto].
  destruct (write_audio w p (snd response)) as [[]|x]; auto.
Qed.

Lemma chunks_trace_filters (name voice_url : text) (l : list text) :
  forall i,
    filter is_tts_request (chunks_trace w name voice_url i l)
    = List.map (fun c => Request c voice_url) l /\
    filter is_pause (chunks_trace w name voice_url i l)
    = repeat Pause (List.length l) /\
    filter is_final (chunks_trace w name voice_url i l) = [].
Proof.
  induction l as [|c l IH]; intros i; [auto|].
  cbn [chunks_trace]. rewrite !filter_app.
  destruct (chunk_trace_requests (ChunkAudio name i) c voice_url) as [R [P F]].
  destruct (IH (S i)) as [R' [P' F']].
  rewrite R, P, F, R', P', F'.
  destruct (delivered w (ChunkAudio name i) c voice_url); auto.
Qed.

(** X26. The loop over the chunks of a chapter never raises, whatever
    the synthesis, the download and the writing of the file do: it
    returns the files of the chunks that were delivered, in order; it
    sends one request per chunk, in order, with the voice of the run; and
    it pauses one second after every chunk, also after one that failed
    and after the last one. *)
Theorem chapter_synthesis_never_aborts
        (name voice_url : text) (i : nat) (l : list text)
        (files : list gpath) (s : list gevent) :
  let run := chunk_loop w name voice_url i l files s in
  fst run = Returned (files ++ delivered_files w name voice_url i l) /\
  filter is_tts_request (snd run)
  = filter is_tts_request s ++ List.map (fun c => Request c voice_url) l /\
  filter is_pause (snd run)
  = filter is_pause s ++ repeat Pause (List.length l).
Proof.
  cbv zeta. rewrite chunk_loop_run. cbn [fst snd]. rewrite !filter_app.
  destruct (chunks_trace_filters name voice_url l i) as [R [P _]].
  rewrite R, P. auto.
Qed.

(** What follows holds when the files can be written, [ffmpeg] can be
    started and the files can be removed. *)
Hypothesis lists_written : forall p fs, write_list w p fs = Returned tt.
Hypothesis ffmpeg_runs : forall p, exists status, ffmpeg w p = Returned status.
Hypothesis lists_removed : forall p, remove_list w p = Returned tt.
Hypothesis files_removed : forall p, remove_file w p = Returned tt.

Lemma remove_all_run (fs : list gpath) :
  forall s, remove_all w fs s = (Returned tt, s ++ List.map Remove fs).
Proof.
  induction fs as [|f fs IH]; intros s.
  - cbn. rewrite app_nil_r. reflexivity.
  - cbn [remove_all]. unfold bind at 1, GeneratorMain.call, bind.
    rewrite g_emit, files_removed. cbn [ret].
    rewrite IH, <- app_assoc. reflexivity.
Qed.

Lemma concatenate_run (fs : list gpath) (out : gpath) (s : list gevent) :
  fs <> [] ->
  concatenate_audio_files w fs out s
  = (Returned tt,
     s ++ [WriteList ConcatList fs; Ffmpeg ConcatList out; Remove ConcatList]
       ++ List.map Remove fs).
Proof.
  intros Hn. unfold concatenate_audio_files.
  destruct fs as [|f fs]; [congruence|].
  destruct (ffmpeg_runs out) as [status Hf].
  unfold bind at 1, GeneratorMain.call at 1, bind at 1.
  rewrite g_emit, lists_written. cbn [ret].
  unfold bind at 1, GeneratorMain.call at 1, bind at 1.
  rewrite g_emit, Hf. cbn [ret].
  unfold bind at 1, GeneratorMain.call at 1, bind at 1.
  rewrite g_emit, lists_removed. cbn [ret].
  rewrite remove_all_run, <- !app_assoc. reflexivity.
Qed.

Lemma filter_removes (fs : list gpath) :
  filter is_tts_request (List.map Remove fs) = [] /\
  filter is_final (List.map Remove fs) = [].
Proof. induction fs as [|f fs [IH1 IH2]]; [auto|]. cbn. auto. Qed.

(** One chapter: it is listed when its audio is there or a chunk was
    delivered; requests are sent only when its audio is not there. *)
Lemma process_chapter_run (voice_url : text) (all : list gpath)
      (chapter : text * text) (s : list gevent) :
  exists s',
    process_chapter w unicode_digit voice_url all chapter s
    = (Returned (all ++ (if listed w unicode_digit voice_url chapter
                         then [ChapterAudio (fst chapter)] else [])), s') /\
    filter is_tts_request s'
    = filter is_tts_request s
      ++ run_requests_of w unicode_digit voice_url [chapter] /\
    filter is_final s' = filter is_final s.
Proof.
  unfold process_chapter, listed, run_requests_of. cbv zeta. cbn [flat_map].
  rewrite app_nil_r.
  destruct (path_exists w (ChapterAudio (fst chapter))).
  - eexists. split; [reflexivity|]. cbn [orb].
    rewrite !filter_app. cbn. rewrite !app_nil_r. auto.
  - cbn [orb].
    unfold bind at 1. rewrite g_emit.
    unfold bind at 1. rewrite g_emit.
    unfold bind at 1. rewrite g_emit.
    unfold bind at 1. rewrite g_emit.
    unfold bind at 1. rewrite chunk_loop_run. cbn [app].
    destruct (chunks_trace_filters (fst chapter) voice_url
                (Generator.chapter_chunks unicode_digit (snd chapter)) 0)
      as [R [_ F]].
    destruct (delivered_files w (fst chapter) voice_url 0
                (Generator.chapter_chunks unicode_digit (snd chapter)))
      as [|f fs] eqn:D.
    + unfold bind at 1. cbn [ret].
      unfold bind at 1. rewrite g_emit.
      unfold bind at 1. rewrite g_emit. cbn [ret]. rewrite app_nil_r.
      eexists. split; [reflexivity|].
      rewrite !filter_app, R, F. cbn. rewrite !app_nil_r. auto.
    + unfold bind at 1. unfold bind at 1. rewrite g_emit.
      unfold bind at 1. rewrite concatenate_run by discriminate. cbn [ret].
      unfold bind at 1. rewrite g_emit.
      unfold bind at 1. rewrite g_emit. cbn [ret].
      eexists. split; [reflexivity|].
      destruct (filter_removes (f :: fs)) as [Q1 Q2].
      rewrite !filter_app, R, F, Q1, Q2. cbn. rewrite !app_nil_r. auto.
Qed.

Lemma chapters_loop_run (voice_url : text) (chapters : list (text * text)) :
  forall all s, exists s',
    chapters_loop w unicode_digit voice_url chapters all s
    = (Returned (all ++ List.map (fun ch => ChapterAudio (fst ch))
                          (filter (listed w unicode_digit voice_url) chapters)),
       s') /\
    filter is_tts_request s'
    = filter is_tts_request s
      ++ run_requests_of w unicode_digit voice_url chapters /\
    filter is_final s' = filter is_final s.
Proof.
  induction chapters as [|ch chapters IH]; intros all s.
  - exists s. cbn. rewrite !app_nil_r. auto.
  - cbn [chapters_loop]. unfold bind at 1.
    destruct (process_chapter_run voice_url all ch s) as [s1 [E1 [R1 F1]]].
    rewrite E1.
    destruct (IH (all ++ (if listed w unicode_digit voice_url ch
                          then [ChapterAudio (fst ch)] else [])) s1)
      as [s2 [E2 [R2 F2]]].
    exists s2. rewrite E2. split; [|split].
    + f_equal. f_equal. cbn [filter].
      destruct (listed w unicode_digit voice_url ch);
        rewrite <- app_assoc; reflexivity.
    + rewrite R2, R1, <- app_assoc. f_equal.
      unfold run_requests_of. cbn [flat_map]. rewrite app_nil_r. reflexivity.
    + rewrite F2. exact F1.
Qed.

Lemma main_run (chapters : list (text * text)) (voice_url : text) :
  load_chapters w = Returned chapters ->
  upload_voice_reference w = Returned voice_url ->
  exists s',
    main w unicode_digit [] = (Returned tt, s') /\
    filter is_tts_request s'
    = run_requests_of w unicode_digit voice_url chapters /\
    filter is_final s'
    = match List.map (fun ch => ChapterAudio (fst ch))
              (filter (listed w unicode_digit voice_url) chapters)
      with
      | [] => []
      | f :: fs => [WriteList FinalList (f :: fs); Ffmpeg FinalList FinalOutput]
      end.
Proof.
  intros Hl Hv. unfold main.
  unfold bind at 1, GeneratorMain.call at 1, bind at 1.
  rewrite g_emit, Hl. cbn [ret].
  unfold bind at 1. rewrite g_emit.
  unfold bind at 1. rewrite g_emit.
  unfold bind at 1. rewrite g_emit.
  unfold bind at 1. rewrite g_emit.
  unfold bind at 1. rewrite g_emit.
  unfold bind at 1, GeneratorMain.call at 1, bind at 1.
  rewrite g_emit, Hv. cbn [ret].
  unfold bind at 1. rewrite g_emit.
  unfold bind at 1.
  match goal with |- context [chapters_loop _ _ _ _ _ ?s0] =>
    destruct (chapters_loop_run voice_url chapters [] s0) as [s1 [E [R F]]]
  end.
  rewrite E. cbn [app] in *.
  unfold bind at 1.
  destruct (List.map (fun ch => ChapterAudio (fst ch))
              (filter (listed w unicode_digit voice_url) chapters))
    as [|f fs] eqn:D.
  - cbn [ret]. unfold bind at 1. rewrite g_emit. rewrite g_emit.
    eexists. split; [reflexivity|].
    rewrite !filter_app, R, F. cbn. rewrite !app_nil_r. auto.
  - destruct (ffmpeg_runs FinalOutput) as [status Hf].
    unfold bind at 1. rewrite g_emit.
    unfold bind at 1. rewrite g_emit.
    unfold bind at 1, GeneratorMain.call at 1, bind at 1.
    rewrite g_emit, lists_written. cbn [ret].
    unfold bind at 1, GeneratorMain.call at 1, bind at 1.
    rewrite g_emit, Hf. cbn [ret].
    unfold bind at 1, GeneratorMain.call at 1, bind at 1.
    rewrite g_emit, lists_removed. cbn [ret].
    rewrite g_emit.
    unfold bind at 1. rewrite g_emit. rewrite g_emit.
    eexists. split; [reflexivity|].
    rewrite !filter_app, R, F. cbn. rewrite !app_nil_r. auto.
Qed.

End Chapters.

(** X27. When the chapters and the voice are loaded, the lists can be
    written, [ffmpeg] can be started and files can be removed, [main] of
    [audiobook_generator.py] returns normally whatever happens to the
    synthesis.  It requests audio for the chunks of exactly those
    chapters whose audio file is not there yet.  The final concatenation
    lists, in order, the chapters whose audio was there or of which at
    least one chunk was delivered: a chapter of which every chunk failed
    is left out without an error, and with no such chapter at all there is
    no final concatenation. *)
Theorem main_lists_finished_chapters
        (w : GeneratorMain.world) (unicode_digit : char -> bool)
        (chapters : list (text * text)) (voice_url : text) :
  (forall p fs, GeneratorMain.write_list w p fs = Returned tt) ->
  (forall p, exists status, GeneratorMain.ffmpeg w p = Returned status) ->
  (forall p, GeneratorMain.remove_list w p = Returned tt) ->
  (forall p, GeneratorMain.remove_file w p = Returned tt) ->
  GeneratorMain.load_chapters w = Returned chapters ->
  GeneratorMain.upload_voice_reference w = Returned voice_url ->
  let run := GeneratorMain.main w unicode_digit [] in
  let finished :=
    List.map (fun ch => GeneratorMain.ChapterAudio (fst ch))
             (filter (listed w unicode_digit voice_url) chapters) in
  fst run = Returned tt /\
  filter is_tts_request (snd run)
  = run_requests_of w unicode_digit voice_url chapters /\
  filter is_final (snd run)
  = match finished with
    | [] => []
    | _ :: _ => [GeneratorMain.WriteList GeneratorMain.FinalList finished;
                 GeneratorMain.Ffmpeg GeneratorMain.FinalList
                                      GeneratorMain.FinalOutput]
    end.
Proof.
  intros H1 H2 H3 H4 Hl Hv. cbv zeta.
  destruct (main_run w unicode_digit H1 H2 H3 H4 chapters voice_url Hl Hv)
    as [s' [E [R F]]].
  rewrite E. cbn [fst snd]. split; [reflexivity|]. split; [exact R|].
  rewrite F.
  destruct (List.map (fun ch => GeneratorMain.ChapterAudio (fst ch))
              (filter (listed w unicode_digit voice_url) chapters));
    reflexivity.
Qed.

Lemma main_lists_finished_chapters_witness :
  fst (GeneratorMain.main silent_world no_unicode []) = Returned tt /\
  filter is_tts_request (snd (GeneratorMain.main silent_world no_unicode []))
  = run_requests_of silent_world no_unicode (str "data:audio/mpeg;base64,")
      [(str "chapter-01", str "# One" ++ [NL; NL] ++ str "Some text.")] /\
  filter is_final (snd (GeneratorMain.main silent_world no_unicode []))
  = match List.map (fun ch => GeneratorMain.ChapterAudio (fst ch))
            (filter (listed silent_world no_unicode (str "data:audio/mpeg;base64,"))
               [(str "chapter-01", str "# One" ++ [NL; NL] ++ str "Some text.")])
    with
    | [] => []
    | f :: fs => [GeneratorMain.WriteList GeneratorMain.FinalList (f :: fs);
                  GeneratorMain.Ffmpeg GeneratorMain.FinalList
                                       GeneratorMain.FinalOutput]
    end.
Proof.
  apply (main_lists_finished_chapters silent_world no_unicode
           [(str "chapter-01", str "# One" ++ [NL; NL] ++ str "Some text.")]
           (str "data:audio/mpeg;base64,")).
  - reflexivity.
  - intros p. exists 0%Z. reflexivity.
  - reflexivity.
  - reflexivity.
  - reflexivity.
  - reflexivity.
Defined.
